(** * ember-lifeline: debounced tasks and DOM event listeners

    A shallow embedding of [addon/debounce-task.ts] and
    [addon/dom-event-listeners.js].  Both modules keep a process-wide
    [WeakMap] from an owner object to a mutable per-owner blob; the blob of
    the first module is an object used as a map from task names to pending
    debounces, the blob of the second is a flat array of 5-slot listener
    records.  The development models the two registries, the run loop the
    first module schedules on, the event source the second one registers
    with, and the ledger of teardown closures, as one explicit [World]
    threaded through a state-and-exception monad. *)

From stdpp Require Import gmap strings list fin_maps.

Open Scope string_scope.
Open Scope list_scope.
Open Scope nat_scope.

(** ** JavaScript values

    Only the distinctions the two modules look at are kept: [typeof],
    truthiness, [instanceof Element] and strict equality.  Functions,
    objects and elements are compared by identity (an allocation number);
    numbers are restricted to integers, so [===] is Leibniz equality. *)

Abbreviation Owner := nat (only parsing).

Inductive jsval : Type :=
  | VUndefined
  | VNull
  | VBool (b : bool)
  | VNum (n : Z)
  | VStr (s : string)
  | VFun (id : nat)
  | VObj (id : nat)
  | VElement (id : nat)
  | VBound (id : nat) (target : nat) (f : jsval).

Global Instance jsval_eq_dec : EqDecision jsval.
Proof. solve_decision. Defined.

Definition typeof (v : jsval) : string :=
  match v with
  | VUndefined => "undefined"
  | VNull => "object"
  | VBool _ => "boolean"
  | VNum _ => "number"
  | VStr _ => "string"
  | VFun _ | VBound _ _ _ => "function"
  | VObj _ | VElement _ => "object"
  end.

(** [!!v] *)
Definition truthy (v : jsval) : bool :=
  match v with
  | VUndefined | VNull => false
  | VBool b => b
  | VNum n => negb (n =? 0)%Z
  | VStr s => negb (String.eqb s "")
  | _ => true
  end.

(** [v instanceof Element] *)
Definition instanceof_Element (v : jsval) : bool :=
  match v with VElement _ => true | _ => false end.

(** [a === b] *)
Definition strict_eq (a b : jsval) : bool := bool_decide (a = b).

(** ** The debounce registry

    The blob [debounceTask] keeps per owner is a [new Map()] that is read
    and written as a plain object, by property name: the map itself stays
    empty.  The own properties of the blob are the entries the module
    stores; under any other name a read finds what a map inherits from
    [Map.prototype] and [Object.prototype]. *)

(** The arrow function built by [debounceTask]; it closes over the owner,
    the task name and the owner's blob (which is the registry's blob for
    that owner, never replaced once created).  [w_id] is its identity. *)
Record Wrapper : Type := mkWrapper {
  w_id : nat;
  w_obj : Owner;
  w_name : string
}.

Global Instance Wrapper_eq_dec : EqDecision Wrapper.
Proof. solve_decision. Defined.

(** [{ debouncedTask, cancelId }]; [debouncedTask] is [undefined] in an
    entry that was built from an inherited property. *)
Record PendingDebounce : Type := mkPending {
  debouncedTask : option Wrapper;
  cancelId : nat
}.

Global Instance PendingDebounce_eq_dec : EqDecision PendingDebounce.
Proof. solve_decision. Defined.

(** A pending timer of the run loop; its method is the function that was
    handed to [debounce], [undefined] included. *)
Record Timer : Type := mkTimer {
  t_id : nat;
  t_target : Owner;
  t_method : option Wrapper;
  t_args : list jsval;
  t_due : nat
}.

Global Instance Timer_eq_dec : EqDecision Timer.
Proof. solve_decision. Defined.

(** The teardown closures handed to [registerDisposable]; each closes over
    the blob of one owner. *)
Inductive Disposable : Type :=
  | DebouncesDisposable (obj : Owner)
  | EventListenersDisposable (obj : Owner).

Global Instance Disposable_eq_dec : EqDecision Disposable.
Proof. solve_decision. Defined.

(** Calls that cross the boundary of the two modules, in the order they
    happen: the owner's task being invoked, a scheduling request to the
    run loop, and registrations with the event source. *)
Inductive LogEvent : Type :=
  | Invoked (obj : Owner) (name : string) (args : list jsval)
  | Debounced (target : Owner) (method : option Wrapper) (args : list jsval)
              (wait : nat) (token : nat)
  | DomAdd (element eventName callback options : jsval)
  | DomRemove (element eventName callback options : jsval).

Global Instance LogEvent_eq_dec : EqDecision LogEvent.
Proof. solve_decision. Defined.

(** What user code (the body of an owner's task) can do with the public
    functions of the two modules. *)
Inductive Action : Type :=
  | ADebounceTask (obj : Owner) (name : jsval) (debounceArgs : list jsval)
                  (wait : nat)
  | ACancelDebounce (obj : Owner) (name : string)
  | AAddEventListener (obj : Owner) (element : jsval) (eventName : jsval)
                      (callback options : jsval)
  | ARemoveEventListener (obj : Owner) (element : jsval) (eventName : jsval)
                         (callback options : jsval)
  | ARunDisposables (obj : Owner).

Record World : Type := mkWorld {
  methods : Owner → string → option (list jsval → list Action);
  PASSIVE_SUPPORTED : bool;
  now : nat;
  next_id : nat;
  timers : list Timer;
  registeredDebounces : gmap nat (gmap string PendingDebounce);
  eventListeners : gmap nat (list jsval);
  listenersDisposed : gset nat;
  disposables : gmap nat (list Disposable);
  destroyed : gset nat;
  log : list LogEvent
}.


Definition set_now (f : nat → nat) (w : World) : World :=
  mkWorld (methods w) (PASSIVE_SUPPORTED w) (f (now w)) (next_id w) (timers w) (registeredDebounces w)
          (eventListeners w) (listenersDisposed w) (disposables w)
          (destroyed w) (log w).

Definition set_next_id (f : nat → nat) (w : World) : World :=
  mkWorld (methods w) (PASSIVE_SUPPORTED w) (now w) (f (next_id w)) (timers w) (registeredDebounces w)
          (eventListeners w) (listenersDisposed w) (disposables w)
          (destroyed w) (log w).

Definition set_timers (f : list Timer → list Timer) (w : World) : World :=
  mkWorld (methods w) (PASSIVE_SUPPORTED w) (now w) (next_id w) (f (timers w)) (registeredDebounces w)
          (eventListeners w) (listenersDisposed w) (disposables w)
          (destroyed w) (log w).

Definition set_registeredDebounces
    (f : gmap nat (gmap string PendingDebounce) →
         gmap nat (gmap string PendingDebounce)) (w : World) : World :=
  mkWorld (methods w) (PASSIVE_SUPPORTED w) (now w) (next_id w) (timers w) (f (registeredDebounces w))
          (eventListeners w) (listenersDisposed w) (disposables w)
          (destroyed w) (log w).

Definition set_eventListeners
    (f : gmap nat (list jsval) → gmap nat (list jsval)) (w : World) : World :=
  mkWorld (methods w) (PASSIVE_SUPPORTED w) (now w) (next_id w) (timers w) (registeredDebounces w)
          (f (eventListeners w)) (listenersDisposed w) (disposables w)
          (destroyed w) (log w).

Definition set_listenersDisposed (f : gset nat → gset nat) (w : World) : World :=
  mkWorld (methods w) (PASSIVE_SUPPORTED w) (now w) (next_id w) (timers w) (registeredDebounces w)
          (eventListeners w) (f (listenersDisposed w)) (disposables w)
          (destroyed w) (log w).

Definition set_disposables
    (f : gmap nat (list Disposable) → gmap nat (list Disposable))
    (w : World) : World :=
  mkWorld (methods w) (PASSIVE_SUPPORTED w) (now w) (next_id w) (timers w) (registeredDebounces w)
          (eventListeners w) (listenersDisposed w) (f (disposables w))
          (destroyed w) (log w).

Definition set_destroyed (f : gset nat → gset nat) (w : World) : World :=
  mkWorld (methods w) (PASSIVE_SUPPORTED w) (now w) (next_id w) (timers w) (registeredDebounces w)
          (eventListeners w) (listenersDisposed w) (disposables w)
          (f (destroyed w)) (log w).

Definition add_log (e : LogEvent) (w : World) : World :=
  mkWorld (methods w) (PASSIVE_SUPPORTED w) (now w) (next_id w) (timers w) (registeredDebounces w)
          (eventListeners w) (listenersDisposed w) (disposables w)
          (destroyed w) (log w ++ [e]).

(** ** State and exceptions *)

Inductive Result (A : Type) : Type :=
  | Ok (a : A)
  | Throw (msg : string).
Arguments Ok {A} a.
Arguments Throw {A} msg.

Definition M (A : Type) : Type := World → Result A * World.

Global Instance M_ret : MRet M := λ A a w, (Ok a, w).
Global Instance M_bind : MBind M := λ A B f m w,
  match m w with
  | (Ok a, w') => f a w'
  | (Throw e, w') => (Throw e, w')
  end.

Definition get : M World := λ w, (Ok w, w).
Definition modify (f : World → World) : M unit := λ w, (Ok tt, f w).
Definition throw {A} (msg : string) : M A := λ w, (Throw msg, w).

(** [assert(msg, cond)] of [@ember/debug], as in a debug build: a failed
    assertion throws. *)
Definition assert (msg : string) (cond : bool) : M unit :=
  if cond then mret tt else throw msg.

(** The world a computation leaves, whether it returns or throws. *)
Definition exec {A} (m : M A) (w : World) : World := (m w).2.

(** ** The run loop

    [debounce] and [cancel] of [@ember/runloop] are not part of the
    repository; they are modelled from the contract the specification
    gives for the external timer service.  The queue is kept ordered by due
    time. *)

Fixpoint insert_timer (t : Timer) (ts : list Timer) : list Timer :=
  match ts with
  | [] => [t]
  | x :: r =>
      if decide (t_due t < t_due x) then t :: x :: r
      else x :: insert_timer t r
  end.

Definition is_debouncee (target : Owner) (method : option Wrapper) (t : Timer)
    : Prop :=
  t_target t = target ∧ t_method t = method.

Global Instance is_debouncee_dec target method t :
  Decision (is_debouncee target method t).
Proof. unfold is_debouncee. apply _. Defined.

(** Modelled from the spec: [debounce(target, method, ...args, wait)] of
    the external timer service coalesces by the pair of target and method
    identity: a pending timer for the same pair is superseded, and every
    call hands out a fresh token.  The service takes whatever it is given
    as the method, [undefined] too, and two [undefined] methods are the
    same method.  The arguments are those of the documented signature of
    [debounceTask], [...args, wait]; the optional trailing [immediate] flag
    of the run loop is not modelled. *)
Definition debounce (target : Owner) (method : option Wrapper)
    (args : list jsval) (wait : nat) : M nat := λ w,
  let token := next_id w in
  let rest := filter (λ t, ¬ is_debouncee target method t) (timers w) in
  let t := mkTimer token target method args (now w + wait) in
  (Ok token,
   add_log (Debounced target method args wait token)
     (set_next_id S (set_timers (λ _, insert_timer t rest) w))).

(** Modelled from the spec: [cancel(token)] of the external timer service
    drops the timer with that token, if it is still pending; with
    [undefined] in place of a token there is nothing to drop. *)
Definition cancel (token : option nat) : M unit :=
  match token with
  | Some token => modify (set_timers (filter (λ t, t_id t ≠ token)))
  | None => mret tt
  end.

(** ** The ledger of teardown closures

    [addon/utils/disposable] is missing from the sources at hand. *)

(** Modelled from the spec: [registerDisposable(owner, teardownFn)] of
    [addon/utils/disposable] records a teardown closure for the owner, to
    be run once, when the owner's disposables are run. *)
Definition registerDisposable (obj : Owner) (d : Disposable) : M unit :=
  modify (set_disposables (λ m, <[obj := default [] (m !! obj) ++ [d]]> m)).

(** ** Host capability *)

(** What [window.addEventListener('test', null, options)] does with an
    options object whose [passive] property is a getter. *)
Inductive Probe : Type :=
  | ProbeReadsPassive
  | ProbeIgnoresOptions
  | ProbeThrows.

Definition LISTENER_ITEM_LENGTH : nat := 5.
Definition INDEX_ELEMENT : nat := 0.
Definition INDEX_EVENT_NAME : nat := 1.
Definition INDEX_CALLBACK : nat := 2.
Definition INDEX_ORIGINAL_CALLBACK : nat := 3.
Definition INDEX_OPTIONS : nat := 4.

(** [arr[i]]: reading past the end of an array gives [undefined]. *)
Definition js_index (arr : list jsval) (i : nat) : jsval :=
  default VUndefined (arr !! i).

(** [arr.splice(i, n)] *)
Definition splice (i n : nat) (arr : list jsval) : list jsval :=
  take i arr ++ drop (i + n) arr.

(** The function expression that initialises [PASSIVE_SUPPORTED]: it runs
    once, when [dom-event-listeners.js] is loaded, and its result is only
    read afterwards.  [ret] becomes [true] when the host reads the
    [passive] property of the probe's options; an exception of the host is
    caught and ignored. *)
Definition detect_passive (host : Probe) : bool :=
  let ret := false in
  match host with
  | ProbeReadsPassive => true
  | ProbeIgnoresOptions => ret
  | ProbeThrows => ret
  end.

(** The world after both modules are loaded in [host]: empty registries, no
    timers.  [class_of obj name] is the body of [obj[name]] when that
    property is a function; a body receives the arguments and calls back
    into the public functions.  [obj.__proto__] is the prototype of [obj],
    an object and not a function, whatever the class is. *)
Definition initial_world
    (class_of : Owner → string → option (list jsval → list Action))
    (host : Probe) : World :=
  mkWorld (λ obj name, if bool_decide (name = "__proto__") then None
                       else class_of obj name)
          (detect_passive host) 0 0 [] ∅ ∅ ∅ ∅ ∅ [].

(** *** [debounce-task.ts] *)

(** What a [new Map()] has under a name that is not one of its own
    properties. *)
Inductive Inherited : Type :=
  | InheritedMethod   (* a function of [Map.prototype] or [Object.prototype] *)
  | InheritedSize     (* the accessor [size] of [Map.prototype]: a getter
                         that counts the entries of the map, and no setter *)
  | InheritedProto.   (* the accessor [__proto__] of [Object.prototype] *)

Global Instance Inherited_eq_dec : EqDecision Inherited.
Proof. solve_decision. Defined.

(** The function-valued properties of the two prototypes (ECMAScript 2015
    and its Annex B). *)
Definition Map_prototype_methods : list string :=
  ["clear"; "constructor"; "delete"; "entries"; "forEach"; "get"; "has";
   "keys"; "set"; "values"].

Definition Object_prototype_methods : list string :=
  ["constructor"; "hasOwnProperty"; "isPrototypeOf"; "propertyIsEnumerable";
   "toLocaleString"; "toString"; "valueOf"; "__defineGetter__";
   "__defineSetter__"; "__lookupGetter__"; "__lookupSetter__"].

Definition inherited (name : string) : option Inherited :=
  if bool_decide (name = "size") then Some InheritedSize
  else if bool_decide (name = "__proto__") then Some InheritedProto
  else if bool_decide (name ∈ Map_prototype_methods ++ Object_prototype_methods)
       then Some InheritedMethod
       else None.

(** The value of [pendingDebounces[name]]. *)
Inductive Property : Type :=
  | POwn (p : PendingDebounce)
  | PInherited (i : Inherited)
  | PUndefined.

Definition blob_get (blob : gmap string PendingDebounce) (name : string)
    : Property :=
  match blob !! name with
  | Some p => POwn p
  | None =>
      match inherited name with
      | Some i => PInherited i
      | None => PUndefined
      end
  end.

(** [!!v]: an entry, a function and the prototype object are truthy; the
    size of the map is 0, since nothing is ever put in the map itself. *)
Definition property_truthy (v : Property) : bool :=
  match v with
  | POwn _ => true
  | PInherited InheritedMethod => true
  | PInherited InheritedSize => false
  | PInherited InheritedProto => true
  | PUndefined => false
  end.

(** [v === undefined] *)
Definition property_undefined (v : Property) : bool :=
  match v with PUndefined => true | _ => false end.

(** [v.debouncedTask] and the [cancelId] of [let { cancelId } = v]: only an
    entry has them. *)
Definition property_debouncedTask (v : Property) : option Wrapper :=
  match v with POwn p => debouncedTask p | _ => None end.

Definition property_cancelId (v : Property) : option nat :=
  match v with POwn p => Some (cancelId p) | _ => None end.

Definition blob_of (w : World) (obj : Owner) : gmap string PendingDebounce :=
  default ∅ (registeredDebounces w !! obj).

(** An own property [name] of the blob of [obj] is created or overwritten. *)
Definition set_entry (obj : Owner) (name : string) (p : PendingDebounce) : M unit :=
  modify (set_registeredDebounces (λ m, <[obj := <[name := p]> (default ∅ (m !! obj))]> m)).

(** [pendingDebounces[name] = entry] on the blob of [obj], in the strict
    mode of a module: the assignment writes an own property, unless the
    name is inherited as an accessor.  [size] has no setter, so the
    assignment throws.  The setter of [__proto__] is not reached:
    [debounceTask] has asserted that [obj[name]] is a function, and
    [obj.__proto__] is none. *)
Definition assign_entry (obj : Owner) (name : string) (p : PendingDebounce)
    : M unit :=
  w ← get;
  match blob_get (blob_of w obj) name with
  | PInherited InheritedSize =>
      throw "TypeError: Cannot set property size of #<Map> which has only a getter"
  | PInherited InheritedProto => throw "unreachable"
  | _ => set_entry obj name p
  end.

(** [delete pendingDebounces[name]] on the blob of [obj] *)
Definition delete_entry (obj : Owner) (name : string) : M unit :=
  modify (set_registeredDebounces (λ m,
    match m !! obj with
    | Some blob => <[obj := delete name blob]> m
    | None => m
    end)).

(** Allocation of a closure: a fresh identity. *)
Definition fresh : M nat := λ w, (Ok (next_id w), set_next_id S w).

Definition debounceTask (obj : Owner) (name : jsval) (debounceArgs : list jsval)
    (wait : nat) : M unit :=
  assert "Called `debounceTask` without a string as the first argument."
         (bool_decide (typeof name = "string")) ;;
  match name with
  | VStr name =>
      w0 ← get;
      assert "Called `obj.debounceTask(name, ...)` where obj[name] is not a function."
             (bool_decide (is_Some (methods w0 obj name))) ;;
      w ← get;
      assert "Called `debounceTask` on destroyed object."
             (negb (bool_decide (obj ∈ destroyed w))) ;;
      match registeredDebounces w !! obj with
      | Some _ => mret tt
      | None =>
          modify (set_registeredDebounces <[obj := ∅]>) ;;
          registerDisposable obj (DebouncesDisposable obj)
      end ;;
      w ← get;
      let pendingDebounce := blob_get (blob_of w obj) name in
      debouncedTask ←
        if negb (property_truthy pendingDebounce)
        then id ← fresh; mret (Some (mkWrapper id obj name))
        else mret (property_debouncedTask pendingDebounce);
      (* cancelId is new, even if the debounced function was already present *)
      cancelId ← debounce obj debouncedTask debounceArgs wait;
      assign_entry obj name (mkPending debouncedTask cancelId)
  | _ => throw "unreachable"
  end.

Definition cancelDebounce (obj : Owner) (name : string) : M unit :=
  w ← get;
  match registeredDebounces w !! obj with
  | None => mret tt
  | Some pendingDebounces =>
      let pendingDebounce := blob_get pendingDebounces name in
      if property_undefined pendingDebounce then mret tt
      else
        let cancelId := property_cancelId pendingDebounce in
        delete_entry obj name ;;
        cancel cancelId
  end.

Fixpoint cancel_each (debounces : gmap string PendingDebounce)
    (debounceNames : list string) : M unit :=
  match debounceNames with
  | [] => mret tt
  | name :: rest =>
      match debounces !! name with
      | Some p => cancel (Some (cancelId p))
      | None => throw "TypeError: cannot destructure undefined"
      end ;;
      cancel_each debounces rest
  end.

(** The closure returned by [getDebouncesDisposable(debounces)], where
    [debounces] is the blob of [obj]; [Object.keys] lists the own
    properties, which are the entries. *)
Definition debouncesDisposable (obj : Owner) : M unit :=
  w ← get;
  match registeredDebounces w !! obj with
  | None => mret tt
  | Some debounces =>
      let debounceNames := (map_to_list debounces).*1 in
      if bool_decide (length debounceNames = 0) then mret tt
      else cancel_each debounces debounceNames
  end.

(** *** [dom-event-listeners.js] *)

(** [element.addEventListener(eventName, callback, options)] and
    [element.removeEventListener(...)] of the event source; calling them on
    something that is not an element is a [TypeError]. *)
Definition element_addEventListener (element eventName callback options : jsval)
    : M unit :=
  if instanceof_Element element
  then modify (add_log (DomAdd element eventName callback options))
  else throw "TypeError: element.addEventListener is not a function".

Definition element_removeEventListener
    (element eventName callback options : jsval) : M unit :=
  if instanceof_Element element
  then modify (add_log (DomRemove element eventName callback options))
  else throw "TypeError: element.removeEventListener is not a function".

(** [run.bind(obj, _callback)]: a new function on every call. *)
Definition run_bind (obj : Owner) (_callback : jsval) : M jsval :=
  id ← fresh; mret (VBound id obj _callback).

Definition getEventListeners (obj : Owner) : M (list jsval) :=
  w ← get;
  match eventListeners w !! obj with
  | Some listeners => mret listeners
  | None =>
      modify (set_eventListeners <[obj := []]>) ;;
      registerDisposable obj (EventListenersDisposable obj) ;;
      mret []
  end.

Definition addEventListener (obj : Owner)
    (element eventName _callback options : jsval) : M unit :=
  assert "Must provide a DOM element when using addEventListener"
         (truthy element) ;;
  assert "Must provide an element (not a DOM selector) when using addEventListener."
         (instanceof_Element element) ;;
  callback ← run_bind obj _callback;
  listeners ← getEventListeners obj;
  w ← get;
  let options := if PASSIVE_SUPPORTED w then options else VUndefined in
  element_addEventListener element eventName callback options ;;
  modify (set_eventListeners
            <[obj := listeners ++ [element; eventName; callback; _callback; options]]>).

(** The test of the loop body at index [i]. *)
Definition listener_matches (listeners : list jsval) (i : nat)
    (element eventName callback : jsval) : bool :=
  strict_eq (js_index listeners (i + INDEX_ELEMENT)) element
  && strict_eq (js_index listeners (i + INDEX_EVENT_NAME)) eventName
  && strict_eq (js_index listeners (i + INDEX_ORIGINAL_CALLBACK)) callback.

(** [for (let i = 0; i < listeners.length; i += LISTENER_ITEM_LENGTH)]
    up to the [break]: the index at which the loop stops, if it does. *)
Fixpoint find_listener (fuel i : nat) (listeners : list jsval)
    (element eventName callback : jsval) : option nat :=
  match fuel with
  | 0 => None
  | S fuel' =>
      if decide (i < length listeners) then
        if listener_matches listeners i element eventName callback
        then Some i
        else find_listener fuel' (i + LISTENER_ITEM_LENGTH) listeners
                           element eventName callback
      else None
  end.

Definition removeEventListener (obj : Owner)
    (element eventName callback options : jsval) : M unit :=
  assert "Must provide a DOM element when using removeEventListener"
         (truthy element) ;;
  assert "Must provide an element (not a DOM selector) when using removeEventListener."
         (instanceof_Element element) ;;
  listeners ← getEventListeners obj;
  if bool_decide (length listeners = 0) then mret tt
  else
    w ← get;
    let options := if PASSIVE_SUPPORTED w then options else VUndefined in
    match find_listener (length listeners) 0 listeners element eventName callback with
    | Some i =>
        let ownCallback := js_index listeners (i + INDEX_CALLBACK) in
        element_removeEventListener element eventName ownCallback options ;;
        modify (set_eventListeners
                  <[obj := splice i LISTENER_ITEM_LENGTH listeners]>)
    | None => mret tt
    end.

Fixpoint remove_each (fuel i : nat) (eventListeners : list jsval) : M unit :=
  match fuel with
  | 0 => mret tt
  | S fuel' =>
      if decide (i < length eventListeners) then
        let element := js_index eventListeners (i + INDEX_ELEMENT) in
        let eventName := js_index eventListeners (i + INDEX_EVENT_NAME) in
        let callback := js_index eventListeners (i + INDEX_CALLBACK) in
        let options := js_index eventListeners (i + INDEX_OPTIONS) in
        element_removeEventListener element eventName callback options ;;
        remove_each fuel' (i + LISTENER_ITEM_LENGTH) eventListeners
      else mret tt
  end.

(** The closure returned by [getEventListenersDisposable(eventListeners)],
    where [eventListeners] is the array of [obj].  Its captured variable is
    set to [undefined] at the end of the first run, which
    [listenersDisposed] records. *)
Definition eventListenersDisposable (obj : Owner) : M unit :=
  w ← get;
  if bool_decide (obj ∈ listenersDisposed w) then mret tt
  else
    let eventListeners := default [] (eventListeners w !! obj) in
    remove_each (length eventListeners) 0 eventListeners ;;
    modify (set_listenersDisposed (union {[obj]})).

(** *** Running teardown closures, user code and timers *)

Definition run_disposable (d : Disposable) : M unit :=
  match d with
  | DebouncesDisposable obj => debouncesDisposable obj
  | EventListenersDisposable obj => eventListenersDisposable obj
  end.

Fixpoint run_each (ds : list Disposable) : M unit :=
  match ds with
  | [] => mret tt
  | d :: rest => run_disposable d ;; run_each rest
  end.

(** Modelled from the spec: [runDisposables(obj)] of
    [addon/utils/disposable] runs every teardown closure recorded for
    [obj], each once. *)
Definition runDisposables (obj : Owner) : M unit :=
  w ← get;
  match disposables w !! obj with
  | None => mret tt
  | Some ds => modify (set_disposables (delete obj)) ;; run_each ds
  end.

Definition exec_action (a : Action) : M unit :=
  match a with
  | ADebounceTask obj name debounceArgs wait =>
      debounceTask obj name debounceArgs wait
  | ACancelDebounce obj name => cancelDebounce obj name
  | AAddEventListener obj element eventName callback options =>
      addEventListener obj element eventName callback options
  | ARemoveEventListener obj element eventName callback options =>
      removeEventListener obj element eventName callback options
  | ARunDisposables obj => runDisposables obj
  end.

Fixpoint run_actions (body : list Action) : M unit :=
  match body with
  | [] => mret tt
  | a :: rest => exec_action a ;; run_actions rest
  end.

(** [obj[name](...args)] *)
Definition call_method (obj : Owner) (name : string) (args : list jsval) : M unit :=
  w ← get;
  match methods w obj name with
  | Some body =>
      modify (add_log (Invoked obj name args)) ;;
      run_actions (body args)
  | None => throw "TypeError: obj[name] is not a function"
  end.

(** The body of the arrow function built by [debounceTask]. *)
Definition call_wrapper (wr : Wrapper) (args : list jsval) : M unit :=
  delete_entry (w_obj wr) (w_name wr) ;;
  call_method (w_obj wr) (w_name wr) args.

(** The run loop takes a due timer off its queue and calls its method;
    calling [undefined] is a [TypeError] inside the run loop. *)
Definition fire (t : Timer) : M unit :=
  modify (set_timers (filter (λ x, t_id x ≠ t_id t))) ;;
  match t_method t with
  | Some wr => call_wrapper wr (t_args t)
  | None => throw "TypeError: method is not a function"
  end.

(** One turn of the run loop: the timers that are due at the start of the
    turn fire in queue order; one that an earlier task of the same turn
    cancelled or superseded does not.  An exception of a task ends that
    task only. *)
Definition run_due (w : World) : World :=
  foldl (λ w t, if bool_decide (t ∈ timers w) then exec (fire t) w else w)
        w (filter (λ t, t_due t ≤ now w) (timers w)).

(** Time passes, then the run loop takes its turn. *)
Definition elapse (dt : nat) (w : World) : World :=
  run_due (set_now (λ n, n + dt) w).

(** ** Executions *)

(** What can happen to the world: user code calls a public function, time
    passes and the run loop takes a turn, or an owner is destroyed. *)
Inductive Step : World → World → Prop :=
  | step_call (a : Action) (w : World) : Step w (exec (exec_action a) w)
  | step_elapse (dt : nat) (w : World) : Step w (elapse dt w)
  | step_destroy (obj : Owner) (w : World) :
      Step w (set_destroyed (union {[obj]}) w).

Definition reachable (w : World) : Prop :=
  ∃ class_of host, rtc Step (initial_world class_of host) w.

(** The method and the token of the scheduling call that a
    [debounceTask obj name] call makes in [w] once its assertions have
    passed, whether its last assignment stores the entry, its outcome, and
    the world it leaves. *)
Definition wrapper_for (w : World) (obj : Owner) (name : string)
    : option Wrapper :=
  let v := blob_get (blob_of w obj) name in
  if property_truthy v then property_debouncedTask v
  else Some (mkWrapper (next_id w) obj name).

Definition token_for (w : World) (obj : Owner) (name : string) : nat :=
  if property_truthy (blob_get (blob_of w obj) name) then next_id w
  else S (next_id w).

Definition assignable (v : Property) : bool :=
  match v with
  | PInherited InheritedSize | PInherited InheritedProto => false
  | _ => true
  end.

Definition debounce_outcome (w : World) (obj : Owner) (name : string)
    : Result unit :=
  match blob_get (blob_of w obj) name with
  | PInherited InheritedSize =>
      Throw "TypeError: Cannot set property size of #<Map> which has only a getter"
  | PInherited InheritedProto => Throw "unreachable"
  | _ => Ok tt
  end.

Definition debounced_world (obj : Owner) (name : string) (args : list jsval)
    (wait : nat) (w : World) : World :=
  let wr := wrapper_for w obj name in
  let tok := token_for w obj name in
  mkWorld (methods w) (PASSIVE_SUPPORTED w) (now w) (S tok)
    (insert_timer (mkTimer tok obj wr args (now w + wait))
       (filter (λ t, ¬ is_debouncee obj wr t) (timers w)))
    (if assignable (blob_get (blob_of w obj) name)
     then <[obj := <[name := mkPending wr tok]> (blob_of w obj)]>
            (registeredDebounces w)
     else <[obj := blob_of w obj]> (registeredDebounces w))
    (eventListeners w) (listenersDisposed w)
    (match registeredDebounces w !! obj with
     | Some _ => disposables w
     | None => <[obj := default [] (disposables w !! obj) ++ [DebouncesDisposable obj]]>
                 (disposables w)
     end)
    (destroyed w)
    (log w ++ [Debounced obj wr args wait tok]).

(** The array of [obj], empty when there is none yet. *)
Definition listeners_of (w : World) (obj : Owner) : list jsval :=
  default [] (eventListeners w !! obj).

(** The options both functions pass on to the event source. *)
Definition adjusted_options (w : World) (options : jsval) : jsval :=
  if PASSIVE_SUPPORTED w then options else VUndefined.

(** What [getEventListeners] does to the ledger. *)
Definition listeners_ledger (w : World) (obj : Owner)
    : gmap nat (list Disposable) :=
  match eventListeners w !! obj with
  | Some _ => disposables w
  | None => <[obj := default [] (disposables w !! obj)
                     ++ [EventListenersDisposable obj]]> (disposables w)
  end.

(** The world a successful [addEventListener] leaves. *)
Definition listening_world (obj : Owner)
    (element eventName _callback options : jsval) (w : World) : World :=
  let callback := VBound (next_id w) obj _callback in
  let options := adjusted_options w options in
  mkWorld (methods w) (PASSIVE_SUPPORTED w) (now w) (S (next_id w)) (timers w)
    (registeredDebounces w)
    (<[obj := listeners_of w obj
              ++ [element; eventName; callback; _callback; options]]>
       (eventListeners w))
    (listenersDisposed w) (listeners_ledger w obj) (destroyed w)
    (log w ++ [DomAdd element eventName callback options]).

(** The world a successful [removeEventListener] leaves. *)
Definition unlistened_world (obj : Owner)
    (element eventName callback options : jsval) (w : World) : World :=
  let listeners := listeners_of w obj in
  match find_listener (length listeners) 0 listeners element eventName callback with
  | Some i =>
      mkWorld (methods w) (PASSIVE_SUPPORTED w) (now w) (next_id w) (timers w)
        (registeredDebounces w)
        (<[obj := splice i LISTENER_ITEM_LENGTH listeners]> (eventListeners w))
        (listenersDisposed w) (disposables w) (destroyed w)
        (log w ++ [DomRemove element eventName
                     (js_index listeners (i + INDEX_CALLBACK))
                     (adjusted_options w options)])
  | None =>
      mkWorld (methods w) (PASSIVE_SUPPORTED w) (now w) (next_id w) (timers w)
        (registeredDebounces w)
        (<[obj := listeners]> (eventListeners w))
        (listenersDisposed w) (listeners_ledger w obj) (destroyed w) (log w)
  end.

(** The tokens a blob holds. *)
Definition tokens_of (blob : gmap string PendingDebounce) : list nat :=
  (λ x, cancelId x.2) <$> map_to_list blob.

(** The invocations of owners' tasks a log records. *)
Definition invocations (l : list LogEvent) : list (Owner * string * list jsval) :=
  omap (λ e, match e with
             | Invoked obj name args => Some (obj, name, args)
             | _ => None
             end) l.

(** No blob of either registry is taken away. *)
Definition keeps_blobs (w w' : World) : Prop :=
  (∀ obj, is_Some (registeredDebounces w !! obj) →
          is_Some (registeredDebounces w' !! obj))
  ∧ (∀ obj, is_Some (eventListeners w !! obj) →
            is_Some (eventListeners w' !! obj)).

(** What a call of a public function leaves alone: the classes, the
    capability flag, the clock, the set of destroyed owners and the tasks
    invoked so far; the log and the registries only grow. *)
Record quiet (w w' : World) : Prop := mkQuiet {
  quiet_methods : methods w' = methods w;
  quiet_passive : PASSIVE_SUPPORTED w' = PASSIVE_SUPPORTED w;
  quiet_now : now w' = now w;
  quiet_destroyed : destroyed w' = destroyed w;
  quiet_invocations : invocations (log w') = invocations (log w);
  quiet_log : log w `prefix_of` log w';
  quiet_blobs : keeps_blobs w w'
}.

(** What every step leaves alone. *)
Record grows (w w' : World) : Prop := mkGrows {
  grows_methods : methods w' = methods w;
  grows_passive : PASSIVE_SUPPORTED w' = PASSIVE_SUPPORTED w;
  grows_log : log w `prefix_of` log w';
  grows_blobs : keeps_blobs w w'
}.

(** A timer of the queue that will call [obj[name]]: its method is a
    wrapper that closes over [obj] and [name]. *)
Definition pending_for (obj : Owner) (name : string) (t : Timer) : Prop :=
  match t_method t with
  | Some wr => w_obj wr = obj ∧ w_name wr = name
  | None => False
  end.

Global Instance pending_for_dec obj name t : Decision (pending_for obj name t).
Proof. unfold pending_for. destruct (t_method t); apply _. Defined.

(** ** Invariants of reachable worlds

    Token and closure identities are below the allocation counter, tokens
    in the queue are pairwise distinct, a wrapper in the queue is called on
    the owner it closes over, every pending timer other than those of a
    task named [size] is the one an entry of its owner's blob records, an
    entry's token is in the queue only for the entry's own method, a wrapper
    sits under the owner and name it closes over and an entry without one
    under a name the blob inherits as a function, no owner has a function
    as its [__proto__], listener arrays are made of whole records, and a
    registry has a blob for an owner the log shows a registration for. *)
Record Inv (w : World) : Prop := mkInv {
  inv_ids : ∀ t, t ∈ timers w → t_id t < next_id w;
  inv_nodup : NoDup (t_id <$> timers w);
  inv_target : ∀ t wr, t ∈ timers w → t_method t = Some wr →
    t_target t = w_obj wr ∧ w_id wr < next_id w;
  inv_entry : ∀ t, t ∈ timers w →
    pending_for (t_target t) "size" t
    ∨ ∃ name, blob_of w (t_target t) !! name
              = Some (mkPending (t_method t) (t_id t));
  inv_token : ∀ t obj name p, t ∈ timers w →
    blob_of w obj !! name = Some p → cancelId p = t_id t →
    t_target t = obj ∧ t_method t = debouncedTask p;
  inv_tokens : ∀ obj name p, blob_of w obj !! name = Some p →
    cancelId p < next_id w;
  inv_wrapper : ∀ obj name p, blob_of w obj !! name = Some p →
    match debouncedTask p with
    | Some wr =>
        w_id wr < next_id w ∧ w_obj wr = obj ∧ w_name wr = name
        ∧ inherited name = None
    | None => inherited name = Some InheritedMethod
    end;
  inv_proto : ∀ obj, methods w obj "__proto__" = None;
  inv_tuples : ∀ obj l, eventListeners w !! obj = Some l →
    length l `mod` LISTENER_ITEM_LENGTH = 0;
  inv_blob : ∀ obj, is_Some (registeredDebounces w !! obj) ↔
    ∃ m a wt tok, Debounced obj m a wt tok ∈ log w;
  inv_listeners : ∀ el ev id obj cb opts,
    DomAdd el ev (VBound id obj cb) opts ∈ log w →
    is_Some (eventListeners w !! obj)
}.

(** ** The listener array read as a sequence of records

    The reading the specification gives of the flat array: an ordered
    sequence of 5-tuples.  [flat] lays such a sequence out as the array the
    code keeps, and [names] is the test a removal request makes of a
    tuple. *)
Record Listener : Type := mkListener {
  l_element : jsval;
  l_eventName : jsval;
  l_callback : jsval;
  l_original : jsval;
  l_options : jsval
}.

Definition slots (t : Listener) : list jsval :=
  [l_element t; l_eventName t; l_callback t; l_original t; l_options t].

Fixpoint flat (ts : list Listener) : list jsval :=
  match ts with
  | [] => []
  | t :: rest => slots t ++ flat rest
  end.

Definition names (element eventName callback : jsval) (t : Listener) : Prop :=
  l_element t = element ∧ l_eventName t = eventName ∧ l_original t = callback.

Global Instance names_dec element eventName callback t :
  Decision (names element eventName callback t).
Proof. unfold names. apply _. Defined.

(** The records a flat array holds, five slots at a time. *)
Fixpoint unflat (l : list jsval) : list Listener :=
  match l with
  | element :: eventName :: callback :: original :: options :: rest =>
      mkListener element eventName callback original options :: unflat rest
  | _ => []
  end.

(** A computation keeps the invariants; a computation relates the world it
    starts in to the world it leaves by [R]. *)
Definition preserves {A} (m : M A) : Prop := ∀ w, Inv w → Inv (exec m w).

Definition respects (R : relation World) {A} (m : M A) : Prop :=
  ∀ w, R w (exec m w).

(** ** Scenarios *)


(** A burst of [debounceTask(obj, name, ...args, wait)] calls, each
    followed by [gap] units of time. *)
Fixpoint debounce_burst (obj : Owner) (name : string)
    (calls : list (list jsval * nat * nat)) (w : World) : World :=
  match calls with
  | [] => w
  | (args, wait, gap) :: rest =>
      debounce_burst obj name rest
        (elapse gap (exec (debounceTask obj (VStr name) args wait) w))
  end.

(** The time a burst takes. *)
Definition burst_time (calls : list (list jsval * nat * nat)) : nat :=
  sum_list (snd <$> calls).

(** Owner 7 has a task [save] that calls nothing back; owner 8 has a task
    [poll] that debounces itself again. *)
Definition demo_class (obj : Owner) (name : string)
    : option (list jsval → list Action) :=
  if bool_decide (obj = 7 ∧ name = "save") then Some (λ _, [])
  else if bool_decide (obj = 8 ∧ name = "poll")
       then Some (λ args, [ADebounceTask 8 (VStr "poll") args 50])
       else None.

Definition demo_world : World := initial_world demo_class ProbeIgnoresOptions.

Definition demo_saving : World :=
  exec (debounceTask 7 (VStr "save") [VNum 1] 100) demo_world.

Definition demo_polling : World :=
  exec (debounceTask 8 (VStr "poll") [VNum 1] 100) demo_world.


Definition demo_listening : World :=
  exec (addEventListener 7 (VElement 1) (VStr "click") (VFun 9) VUndefined)
       demo_world.

(** Owner 9 is a form whose tasks [clear], [size] and [submit] call
    nothing back; a map inherits something under the first two names. *)
Definition form_class (obj : Owner) (name : string)
    : option (list jsval → list Action) :=
  if bool_decide (obj = 9 ∧ name ∈ ["clear"; "size"; "submit"])
  then Some (λ _, [])
  else None.

Definition demo_form : World := initial_world form_class ProbeIgnoresOptions.

Definition demo_clearing : World :=
  exec (debounceTask 9 (VStr "clear") [VNum 1] 100) demo_form.





(** ** Further invariants of reachable worlds *)

(** A record of an owner's array as [addEventListener] writes it: the
    target is an element and the dispatch callback is what [run.bind] made
    of the owner and the original callback. *)
Definition listener_ok (obj : Owner) (t : Listener) : Prop :=
  instanceof_Element (l_element t) = true
  ∧ ∃ id, l_callback t = VBound id obj (l_original t).

(** Every array is the layout of records written by [addEventListener]. *)
Definition listeners_ok (w : World) : Prop :=
  ∀ obj l, eventListeners w !! obj = Some l →
    flat (unflat l) = l ∧ Forall (listener_ok obj) (unflat l).

(** Tokens stored in the blobs were handed out by the run loop, and no two
    entries hold the same one. *)
Definition tokens_ok (w : World) : Prop :=
  (∀ obj name p, blob_of w obj !! name = Some p → cancelId p < next_id w)
  ∧ (∀ obj name p obj' name' p',
       blob_of w obj !! name = Some p → blob_of w obj' !! name' = Some p' →
       cancelId p = cancelId p' → obj = obj' ∧ name = name').

(** The ledger holds a teardown closure at most once, under the owner it
    closes over, and only while that owner has the blob it closes over. *)
Definition ledger_ok (w : World) : Prop :=
  ∀ obj ds, disposables w !! obj = Some ds →
    NoDup ds
    ∧ ∀ d, d ∈ ds →
        (d = DebouncesDisposable obj ∧ is_Some (registeredDebounces w !! obj))
        ∨ (d = EventListenersDisposable obj
           ∧ is_Some (eventListeners w !! obj)).

Record Tidy (w : World) : Prop := mkTidy {
  tidy_listeners : listeners_ok w;
  tidy_tokens : tokens_ok w;
  tidy_ledger : ledger_ok w
}.

(** A step from a tidy world leads to a tidy world. *)
Definition tidy_step (w w' : World) : Prop := Tidy w → Tidy w'.

(** The call [element.removeEventListener] the teardown closure makes for
    a record. *)
Definition detach (t : Listener) : LogEvent :=
  DomRemove (l_element t) (l_eventName t) (l_callback t) (l_options t).

(** The world with [events] added at the end of the log. *)
Definition add_logs (events : list LogEvent) (w : World) : World :=
  mkWorld (methods w) (PASSIVE_SUPPORTED w) (now w) (next_id w) (timers w)
          (registeredDebounces w) (eventListeners w) (listenersDisposed w)
          (disposables w) (destroyed w) (log w ++ events).

(** The log shows a [removeEventListener] call on [element] for
    [eventName] and the wrapper [callback], with whatever options the call
    carried. *)
Definition removal_called (l : list LogEvent)
    (element eventName callback : jsval) : Prop :=
  ∃ options, DomRemove element eventName callback options ∈ l.

(** The array of [obj] holds a record for the wrapper [callback], with the
    options it was attached with. *)
Definition recorded (w : World) (obj : Owner)
    (element eventName callback options : jsval) : Prop :=
  ∃ l t, eventListeners w !! obj = Some l ∧ t ∈ unflat l
         ∧ l_element t = element ∧ l_eventName t = eventName
         ∧ l_callback t = callback ∧ l_options t = options.

(** As long as the teardown closure of an owner has not run, every wrapper
    that an [addEventListener] call of the owner attached is in the owner's
    array, with the options of that call, or a [removeEventListener] call
    was made for it on its element. *)
Definition accounted (w : World) : Prop :=
  ∀ element eventName id obj cb options,
    DomAdd element eventName (VBound id obj cb) options ∈ log w →
    obj ∉ listenersDisposed w →
    removal_called (log w) element eventName (VBound id obj cb)
    ∨ recorded w obj element eventName (VBound id obj cb) options.

(** Both families of invariants, and a step that keeps them. *)
Definition settled (w : World) : Prop := Tidy w ∧ accounted w.

Definition settled_step (w w' : World) : Prop := settled w → settled w'.

(** Events of which none is an [addEventListener] call on an element. *)
Definition attaches_nothing (events : list LogEvent) : Prop :=
  Forall (λ e, ∀ a b c d, e ≠ DomAdd a b c d) events.

(** ** Further scenarios *)

(** Owner 7 listens twice on element 1, for clicks and for key presses. *)
Definition demo_listening_twice : World :=
  exec (addEventListener 7 (VElement 1) (VStr "keydown") (VFun 5) VUndefined)
       demo_listening.

(** Owner 7 has debounced [save]; owner 8 has debounced [poll] after it. *)
Definition demo_both : World :=
  exec (debounceTask 8 (VStr "poll") [VNum 2] 40) demo_saving.

(** * Properties *)

Local Arguments Nat.modulo : simpl never.

Ltac munfold :=
  cbv [mbind M_bind mret M_ret get modify assert throw fresh exec] in *.

Ltac wunfold :=
  cbv [set_now set_next_id set_timers set_registeredDebounces
       set_eventListeners set_listenersDisposed set_disposables
       set_destroyed add_log] in *; simpl in *.

(** ** The timer queue *)

Lemma insert_timer_perm t ts : insert_timer t ts ≡ₚ t :: ts.
Proof.
  induction ts as [|x r IH]; simpl; [done|].
  case_decide; [done|].
  rewrite IH. apply Permutation_swap.
Qed.

Lemma elem_of_insert_timer x t ts : x ∈ insert_timer t ts ↔ x = t ∨ x ∈ ts.
Proof. rewrite insert_timer_perm. apply elem_of_cons. Qed.

(** ** Closed forms of the public functions *)

Lemma debounceTask_ok obj name args wait w :
  is_Some (methods w obj name) → obj ∉ destroyed w →
  debounceTask obj (VStr name) args wait w
  = (debounce_outcome w obj name, debounced_world obj name args wait w).
Proof.
  intros Hm Hd.
  unfold debounceTask, debounced_world, debounce_outcome, wrapper_for, token_for.
  munfold. simpl.
  rewrite (bool_decide_eq_true_2 _ Hm).
  rewrite (bool_decide_eq_false_2 _ Hd). simpl.
  unfold blob_of, registerDisposable, assign_entry, set_entry, debounce, blob_get.
  munfold.
  destruct (registeredDebounces w !! obj) as [blob|] eqn:Hb; simpl.
  - rewrite Hb. simpl.
    destruct (blob !! name) as [p|] eqn:Hp; simpl.
    + unfold blob_of. wunfold. rewrite Hb. simpl. rewrite Hp. simpl.
      by rewrite Hb.
    + destruct (inherited name) as [[]|] eqn:Hi; simpl; unfold blob_of;
        wunfold; rewrite ?Hb; simpl; rewrite ?Hp, ?Hi; simpl; rewrite ?Hb;
        simpl; rewrite ?insert_id by done; try reflexivity.
  - wunfold. rewrite !lookup_insert_eq. simpl. rewrite lookup_empty. simpl.
    destruct (inherited name) as [[]|] eqn:Hi; simpl; unfold blob_of; wunfold;
      rewrite ?lookup_insert_eq; simpl; rewrite ?lookup_empty, ?Hi; simpl;
      rewrite ?lookup_insert_eq, ?insert_insert_eq; try reflexivity.
Qed.

Lemma NoDup_ids_filter (P : Timer → Prop) `{!∀ t, Decision (P t)} ts :
  NoDup (t_id <$> ts) → NoDup (t_id <$> filter P ts).
Proof.
  intros Hnd. eapply sublist_NoDup; [exact Hnd|].
  apply fmap_sublist, sublist_filter.
Qed.

Lemma blob_of_lookup w obj name p :
  blob_of w obj !! name = Some p → is_Some (registeredDebounces w !! obj).
Proof.
  unfold blob_of. destruct (registeredDebounces w !! obj); simpl; [eauto|].
  by rewrite lookup_empty.
Qed.

Lemma token_for_ge w obj name : next_id w ≤ token_for w obj name.
Proof. unfold token_for. destruct (property_truthy _); lia. Qed.

(** ** Reading the blob by property name *)

Lemma inherited_size name : inherited name = Some InheritedSize ↔ name = "size".
Proof.
  unfold inherited. repeat case_bool_decide; split; intros ?; try done;
    simplify_eq.
Qed.

Lemma inherited_proto name :
  inherited name = Some InheritedProto ↔ name = "__proto__".
Proof.
  unfold inherited. repeat case_bool_decide; split; intros ?; try done;
    simplify_eq.
Qed.

Lemma blob_get_own blob name p : blob !! name = Some p → blob_get blob name = POwn p.
Proof. unfold blob_get. by intros ->. Qed.

Lemma blob_get_inherited blob name i :
  blob !! name = None → inherited name = Some i →
  blob_get blob name = PInherited i.
Proof. unfold blob_get. by intros -> ->. Qed.

Lemma blob_get_undefined blob name :
  blob !! name = None → inherited name = None → blob_get blob name = PUndefined.
Proof. unfold blob_get. by intros -> ->. Qed.

Lemma blob_get_cases blob name :
  (∃ p, blob !! name = Some p ∧ blob_get blob name = POwn p)
  ∨ (∃ i, blob !! name = None ∧ inherited name = Some i
          ∧ blob_get blob name = PInherited i)
  ∨ (blob !! name = None ∧ inherited name = None
     ∧ blob_get blob name = PUndefined).
Proof.
  unfold blob_get. destruct (blob !! name) as [p|]; [left; eauto|right].
  destruct (inherited name) as [i|]; [left; eauto|by right].
Qed.

(** The entry a [debounceTask] call leaves under a name, next to the
    entries it found. *)
Lemma blob_of_debounced_world obj name args wait w obj' name' :
  blob_of (debounced_world obj name args wait w) obj' !! name'
  = if decide (obj' = obj ∧ name' = name
               ∧ assignable (blob_get (blob_of w obj) name) = true)
    then Some (mkPending (wrapper_for w obj name) (token_for w obj name))
    else blob_of w obj' !! name'.
Proof.
  unfold blob_of at 1. simpl.
  destruct (assignable (blob_get (blob_of w obj) name)) eqn:Ha.
  - destruct (decide (obj' = obj ∧ name' = name ∧ true = true)) as [Hd|Hd].
    + destruct Hd as (-> & -> & _). rewrite lookup_insert_eq. simpl.
      by rewrite lookup_insert_eq.
    + destruct (decide (obj' = obj)) as [->|Ho].
      * rewrite lookup_insert_eq. simpl. rewrite lookup_insert_ne; [done|].
        intros ->. by apply Hd.
      * by rewrite lookup_insert_ne.
  - rewrite decide_False by (by intros (_ & _ & ?)).
    destruct (decide (obj' = obj)) as [->|Ho].
    + by rewrite lookup_insert_eq.
    + by rewrite lookup_insert_ne.
Qed.

(** What [debounceTask] hands to [debounce], case by case. *)
Lemma debounce_plan w obj name :
  Inv w → name ≠ "__proto__" →
  (∀ p, blob_of w obj !! name = Some p →
        wrapper_for w obj name = debouncedTask p
        ∧ assignable (blob_get (blob_of w obj) name) = true)
  ∧ match wrapper_for w obj name with
    | Some wr =>
        w_obj wr = obj ∧ w_name wr = name ∧ w_id wr ≤ token_for w obj name
        ∧ if assignable (blob_get (blob_of w obj) name)
          then inherited name = None
          else name = "size" ∧ blob_of w obj !! name = None
    | None =>
        inherited name = Some InheritedMethod
        ∧ assignable (blob_get (blob_of w obj) name) = true
    end.
Proof.
  intros HI Hproto. unfold wrapper_for, token_for.
  destruct (blob_get_cases (blob_of w obj) name)
    as [(p & Hp & ->)|[(i & Hp & Hi & ->)|(Hp & Hi & ->)]]; simpl.
  - split; [intros p' Hp'; by simplify_eq|].
    pose proof (inv_wrapper _ HI _ _ _ Hp) as Hw.
    destruct (debouncedTask p) as [wr|]; [|done].
    destruct Hw as (? & ? & ? & ?). repeat split; auto; lia.
  - split; [intros p' Hp'; congruence|].
    destruct i; simpl.
    + done.
    + apply inherited_size in Hi. repeat split; auto.
    + by apply inherited_proto in Hi.
  - split; [intros p' Hp'; congruence|]. repeat split; auto.
Qed.

(** ** Preservation of the invariants *)

Lemma Inv_debounced_world obj name args wait w :
  Inv w → name ≠ "__proto__" → Inv (debounced_world obj name args wait w).
Proof.
  intros HI Hproto.
  destruct (debounce_plan w obj name HI Hproto) as [Hown Hplan].
  destruct HI as [Hids Hnd Htg Hent Htok Htoks Hwr Hpr Htup Hblob Hlis].
  pose proof (token_for_ge w obj name) as Hge.
  assert (Hlook := blob_of_debounced_world obj name args wait w).
  unfold debounced_world in *.
  remember (wrapper_for w obj name) as m eqn:Hm0.
  remember (token_for w obj name) as tok eqn:Htok0.
  remember (blob_get (blob_of w obj) name) as v eqn:Hv0.
  clear Hm0 Htok0 Hv0.
  assert (Hold : ∀ t, t ∈ filter (λ t, ¬ is_debouncee obj m t) (timers w) →
            t ∈ timers w ∧ ¬ is_debouncee obj m t ∧ t_id t < next_id w).
  { intros t Ht. apply list_elem_of_filter in Ht as [? Ht]. auto. }
  assert (Hkept : ∀ t o n p,
            t ∈ filter (λ t, ¬ is_debouncee obj m t) (timers w) →
            blob_of w o !! n = Some p → t_target t = o →
            t_method t = debouncedTask p → ¬ (o = obj ∧ n = name)).
  { intros t o n p Ht Hp Hto Htm [-> ->].
    destruct (Hold t Ht) as (_ & Hnot & _). apply Hnot. split; [done|].
    destruct (Hown p Hp) as [-> _]. done. }
  split.
  - intros t Ht. simpl in *.
    apply elem_of_insert_timer in Ht as [->|Ht]; simpl; [lia|].
    apply Hold in Ht as (_ & _ & ?). lia.
  - simpl. rewrite insert_timer_perm. rewrite fmap_cons. simpl.
    apply NoDup_cons. split.
    + intros Hin. apply list_elem_of_fmap in Hin as (t & Heq & Ht).
      apply Hold in Ht as (_ & _ & ?). lia.
    + by apply NoDup_ids_filter.
  - intros t wr Ht Hm. simpl in Ht.
    apply elem_of_insert_timer in Ht as [->|Ht]; simpl in Hm |- *.
    + rewrite Hm in Hplan. destruct Hplan as (? & _ & ? & _). split; [done|lia].
    + apply Hold in Ht as (Ht & _ & _). destruct (Htg t wr Ht Hm).
      split; [done|lia].
  - intros t Ht. simpl in Ht.
    apply elem_of_insert_timer in Ht as [->|Ht]; simpl.
    + destruct (assignable v) eqn:Ha.
      * right. exists name. rewrite Hlook. rewrite decide_True; done.
      * left. unfold pending_for. simpl.
        destruct m as [wr|]; [|by destruct Hplan as [_ ?]; congruence].
        destruct Hplan as (? & ? & _ & -> & _). done.
    + destruct (Hold t Ht) as (Ht' & _ & _).
      destruct (Hent t Ht') as [Hsz|(n & Hn)]; [by left|right].
      exists n. rewrite Hlook. rewrite decide_False; [done|].
      intros (Ho & -> & _). by apply (Hkept t _ _ _ Ht Hn eq_refl).
  - intros t o n p Ht. rewrite Hlook. simpl in Ht.
    destruct (decide (o = obj ∧ n = name ∧ assignable v = true)) as [Hd|Hd].
    + intros [= <-]. simpl. destruct Hd as (-> & -> & _).
      apply elem_of_insert_timer in Ht as [->|Ht]; [done|].
      apply Hold in Ht as (_ & _ & ?). intros ?. lia.
    + intros Hp Hc. apply elem_of_insert_timer in Ht as [->|Ht].
      * simpl in Hc. apply Htoks in Hp. lia.
      * apply Hold in Ht as (Ht & _ & _). by eapply Htok.
  - intros o n p. rewrite Hlook. simpl.
    destruct (decide (o = obj ∧ n = name ∧ assignable v = true));
      [intros [= <-]; simpl; lia|].
    intros Hp. apply Htoks in Hp. lia.
  - intros o n p. rewrite Hlook. simpl.
    destruct (decide (o = obj ∧ n = name ∧ assignable v = true)) as [Hd|Hd].
    + intros [= <-]. simpl. destruct Hd as (-> & -> & Ha).
      destruct m as [wr|].
      * rewrite Ha in Hplan. destruct Hplan as (? & ? & ? & ?).
        repeat split; auto; lia.
      * by destruct Hplan.
    + intros Hp. pose proof (Hwr _ _ _ Hp) as Hw.
      destruct (debouncedTask p) as [wr|]; [|done].
      destruct Hw as (? & ? & ? & ?). repeat split; auto; lia.
  - exact Hpr.
  - exact Htup.
  - intros o. simpl.
    assert (Hsome : is_Some
              ((if assignable v
                then <[obj := <[name := mkPending m tok]> (blob_of w obj)]>
                       (registeredDebounces w)
                else <[obj := blob_of w obj]> (registeredDebounces w)) !! o)
              ↔ o = obj ∨ is_Some (registeredDebounces w !! o)).
    { destruct (assignable v); rewrite lookup_insert_is_Some;
        destruct (decide (o = obj)); intuition congruence. }
    rewrite Hsome, Hblob. split.
    + intros [->|(m' & a & wt & tk & Hin)].
      * do 4 eexists. apply elem_of_app. right. apply list_elem_of_singleton.
        reflexivity.
      * exists m', a, wt, tk. apply elem_of_app. by left.
    + intros (m' & a & wt & tk & Hin).
      apply elem_of_app in Hin as [Hin|Hin]; [right; eauto 6|].
      apply list_elem_of_singleton in Hin. left. congruence.
  - intros el ev id o cb opts Hin. simpl in Hin.
    apply elem_of_app in Hin as [Hin|Hin]; [eauto|].
    apply list_elem_of_singleton in Hin. discriminate.
Qed.

Lemma debounceTask_not_string obj name args wait w :
  typeof name ≠ "string" →
  debounceTask obj name args wait w
  = (Throw "Called `debounceTask` without a string as the first argument.", w).
Proof.
  intros H. unfold debounceTask. munfold.
  by rewrite (bool_decide_eq_false_2 _ H).
Qed.

Lemma debounceTask_not_function obj name args wait w :
  methods w obj name = None →
  debounceTask obj (VStr name) args wait w
  = (Throw "Called `obj.debounceTask(name, ...)` where obj[name] is not a function.", w).
Proof.
  intros H. unfold debounceTask. munfold. simpl. rewrite H.
  rewrite bool_decide_eq_false_2; [done|]. by intros [? ?].
Qed.

Lemma debounceTask_destroyed obj name args wait w :
  is_Some (methods w obj name) → obj ∈ destroyed w →
  debounceTask obj (VStr name) args wait w
  = (Throw "Called `debounceTask` on destroyed object.", w).
Proof.
  intros Hm Hd. unfold debounceTask. munfold. simpl.
  rewrite (bool_decide_eq_true_2 _ Hm), (bool_decide_eq_true_2 _ Hd). done.
Qed.

Lemma debounceTask_cases obj name args wait w :
  exec (debounceTask obj name args wait) w = w
  ∨ ∃ s, name = VStr s ∧ is_Some (methods w obj s) ∧
      exec (debounceTask obj name args wait) w = debounced_world obj s args wait w.
Proof.
  destruct (decide (typeof name = "string")) as [Hs|Hs].
  - destruct name; try discriminate.
    destruct (methods w obj s) as [body|] eqn:Hm.
    + destruct (decide (obj ∈ destroyed w)) as [Hd|Hd].
      * left. unfold exec. rewrite debounceTask_destroyed; [done| |done].
        by rewrite Hm.
      * right. exists s. split; [done|]. rewrite Hm. split; [done|].
        unfold exec. rewrite debounceTask_ok; [done| |done]. by rewrite Hm.
    + left. unfold exec. by rewrite debounceTask_not_function.
  - left. unfold exec. by rewrite debounceTask_not_string.
Qed.

(** A task is not called [__proto__]. *)
Lemma task_not_proto w obj name :
  Inv w → is_Some (methods w obj name) → name ≠ "__proto__".
Proof. intros HI [body Hm] ->. by rewrite (inv_proto _ HI) in Hm. Qed.

Lemma Inv_debounceTask obj name args wait w :
  Inv w → Inv (exec (debounceTask obj name args wait) w).
Proof.
  intros HI.
  destruct (debounceTask_cases obj name args wait w) as [->|(s & _ & Hm & ->)];
    [done|]. apply Inv_debounced_world; [done|]. by eapply task_not_proto.
Qed.

(** [cancelDebounce] where the blob has no entry under the name: with
    nothing at all under it the function returns at once; with an
    inherited property under it, it deletes nothing and has no token to
    cancel. *)
Lemma cancelDebounce_absent obj name w :
  blob_of w obj !! name = None → cancelDebounce obj name w = (Ok tt, w).
Proof.
  unfold blob_of, cancelDebounce. munfold.
  destruct (registeredDebounces w !! obj) as [blob|] eqn:Hb; simpl; [|done].
  intros Hn. unfold blob_get. rewrite Hn.
  destruct (inherited name) as [i|]; simpl; [|done].
  unfold delete_entry, cancel. munfold. wunfold. rewrite Hb.
  rewrite delete_id by done. rewrite insert_id by done. by destruct w.
Qed.

Lemma cancelDebounce_present obj name blob p w :
  registeredDebounces w !! obj = Some blob → blob !! name = Some p →
  cancelDebounce obj name w
  = (Ok tt, set_timers (filter (λ t, t_id t ≠ cancelId p))
              (set_registeredDebounces <[obj := delete name blob]> w)).
Proof.
  intros Hb Hp. unfold cancelDebounce, delete_entry, cancel, blob_get. munfold.
  rewrite Hb, Hp. wunfold. by rewrite Hb.
Qed.

Lemma blob_of_Some w obj blob :
  registeredDebounces w !! obj = Some blob → blob_of w obj = blob.
Proof. unfold blob_of. by intros ->. Qed.

(** Dropping the entry of [(obj, name)] together with the timer that
    entry records keeps the invariants. *)
Lemma Inv_drop obj name blob (P : Timer → Prop) `{!∀ t, Decision (P t)} w :
  Inv w → registeredDebounces w !! obj = Some blob →
  (∀ t, t ∈ timers w → t_target t = obj →
        blob !! name = Some (mkPending (t_method t) (t_id t)) → ¬ P t) →
  Inv (set_timers (filter P)
         (set_registeredDebounces <[obj := delete name blob]> w)).
Proof.
  intros [Hids Hnd Htg Hent Htok Htoks Hwr Hpr Htup Hblob Hlis] Hb HP.
  assert (Hlook : ∀ o n,
    blob_of (set_timers (filter P)
      (set_registeredDebounces <[obj := delete name blob]> w)) o !! n
    = if decide (o = obj ∧ n = name) then None else blob_of w o !! n).
  { intros o n. unfold blob_of. wunfold.
    destruct (decide (o = obj ∧ n = name)) as [[-> ->]|Hd].
    - rewrite lookup_insert_eq. simpl. by rewrite lookup_delete_eq.
    - destruct (decide (o = obj)) as [->|Ho].
      + rewrite lookup_insert_eq, Hb. simpl.
        rewrite lookup_delete_ne; [done|]. intros <-. by apply Hd.
      + by rewrite lookup_insert_ne. }
  assert (Hsub : ∀ o n p,
    blob_of (set_timers (filter P)
      (set_registeredDebounces <[obj := delete name blob]> w)) o !! n = Some p →
    blob_of w o !! n = Some p).
  { intros o n p. rewrite Hlook. by destruct (decide (o = obj ∧ n = name)). }
  split.
  - intros t Ht. apply list_elem_of_filter in Ht as [_ Ht]. simpl. auto.
  - by apply NoDup_ids_filter.
  - intros t wr Ht. apply list_elem_of_filter in Ht as [_ Ht]. simpl. by apply Htg.
  - intros t Ht. apply list_elem_of_filter in Ht as [HPt Ht].
    destruct (Hent t Ht) as [?|(n & Hn)]; [by left|right].
    exists n. rewrite Hlook. rewrite decide_False; [done|].
    intros [Ho ->]. apply (HP t Ht Ho); [|done].
    rewrite Ho in Hn. unfold blob_of in Hn. by rewrite Hb in Hn.
  - intros t o n p Ht Hp. apply list_elem_of_filter in Ht as [_ Ht].
    apply Hsub in Hp. by eapply Htok.
  - intros o n p Hp. apply Hsub in Hp. simpl. by eapply Htoks.
  - intros o n p Hp. apply Hsub in Hp. simpl. by apply Hwr.
  - done.
  - done.
  - intros o. simpl. rewrite <- Hblob. destruct (decide (o = obj)) as [->|Ho].
    + rewrite lookup_insert_eq, Hb. split; eauto.
    + by rewrite lookup_insert_ne.
  - done.
Qed.

Lemma Inv_filter_timers (P : Timer → Prop) `{!∀ t, Decision (P t)} w :
  Inv w → Inv (set_timers (filter P) w).
Proof.
  intros [Hids Hnd Htg Hent Htok Htoks Hwr Hpr Htup Hblob Hlis].
  split; try done.
  - intros t Ht. apply list_elem_of_filter in Ht as [_ Ht]. simpl. auto.
  - by apply NoDup_ids_filter.
  - intros t wr Ht. apply list_elem_of_filter in Ht as [_ Ht]. simpl. by apply Htg.
  - intros t Ht. apply list_elem_of_filter in Ht as [_ Ht]. by apply Hent.
  - intros t o n p Ht. apply list_elem_of_filter in Ht as [_ Ht]. by apply Htok.
Qed.

Lemma Inv_cancelDebounce obj name w :
  Inv w → Inv (exec (cancelDebounce obj name) w).
Proof.
  intros HI. destruct (blob_of w obj !! name) as [p|] eqn:Hp.
  - destruct (blob_of_lookup _ _ _ _ Hp) as [blob Hb].
    rewrite (blob_of_Some _ _ _ Hb) in Hp.
    unfold exec. rewrite (cancelDebounce_present _ _ _ _ _ Hb Hp). simpl.
    apply Inv_drop; [done..|].
    intros t Ht Ho He Hid. apply Hid. rewrite Hp in He. by simplify_eq.
  - unfold exec. by rewrite cancelDebounce_absent.
Qed.

(** ** The listener array *)

Lemma find_listener_Some fuel i0 l el ev cb i :
  find_listener fuel i0 l el ev cb = Some i →
  (∃ k, i = i0 + k * LISTENER_ITEM_LENGTH) ∧ i < length l
  ∧ listener_matches l i el ev cb = true
  ∧ ∀ k, i0 + k * LISTENER_ITEM_LENGTH < i →
         listener_matches l (i0 + k * LISTENER_ITEM_LENGTH) el ev cb = false.
Proof.
  revert i0. induction fuel as [|fuel IH]; intros i0; simpl; [done|].
  case_decide as Hlt; [|done].
  destruct (listener_matches l i0 el ev cb) eqn:Hm.
  - intros [= <-]. repeat split; auto.
    + exists 0. lia.
    + intros k Hk. lia.
  - intros H. apply IH in H as ((k & ->) & Hlen & Hmatch & Hbefore).
    repeat split; auto.
    + exists (S k). unfold LISTENER_ITEM_LENGTH. lia.
    + intros [|j] Hj.
      * replace (i0 + 0 * LISTENER_ITEM_LENGTH) with i0 by lia. done.
      * replace (i0 + S j * LISTENER_ITEM_LENGTH)
          with (i0 + LISTENER_ITEM_LENGTH + j * LISTENER_ITEM_LENGTH)
          by (unfold LISTENER_ITEM_LENGTH; lia).
        apply Hbefore. unfold LISTENER_ITEM_LENGTH in *. lia.
Qed.

Lemma find_listener_None fuel i0 l el ev cb :
  length l ≤ i0 + fuel * LISTENER_ITEM_LENGTH →
  find_listener fuel i0 l el ev cb = None →
  ∀ k, i0 + k * LISTENER_ITEM_LENGTH < length l →
       listener_matches l (i0 + k * LISTENER_ITEM_LENGTH) el ev cb = false.
Proof.
  revert i0. induction fuel as [|fuel IH]; intros i0 Hfuel; simpl.
  - intros _ k Hk. unfold LISTENER_ITEM_LENGTH in *. lia.
  - case_decide as Hlt.
    + destruct (listener_matches l i0 el ev cb) eqn:Hm; [done|].
      intros H [|j] Hj.
      * replace (i0 + 0 * LISTENER_ITEM_LENGTH) with i0 by lia. done.
      * replace (i0 + S j * LISTENER_ITEM_LENGTH)
          with (i0 + LISTENER_ITEM_LENGTH + j * LISTENER_ITEM_LENGTH)
          by (unfold LISTENER_ITEM_LENGTH; lia).
        apply IH; [unfold LISTENER_ITEM_LENGTH in *; lia|done|].
        unfold LISTENER_ITEM_LENGTH in *. lia.
    + intros _ k Hk. unfold LISTENER_ITEM_LENGTH in *. lia.
Qed.

Lemma length_splice i n (l : list jsval) :
  i + n ≤ length l → length (splice i n l) + n = length l.
Proof.
  intros H. unfold splice. rewrite length_app, length_take, length_drop. lia.
Qed.

Lemma tuple_fits i (l : list jsval) :
  length l `mod` LISTENER_ITEM_LENGTH = 0 →
  (∃ k, i = k * LISTENER_ITEM_LENGTH) → i < length l →
  i + LISTENER_ITEM_LENGTH ≤ length l.
Proof.
  unfold LISTENER_ITEM_LENGTH. intros Hm [k ->] Hlt.
  apply Nat.Div0.mod_divides in Hm as [c Hc]. lia.
Qed.

(** ** Closed forms, continued *)

Lemma addEventListener_ok obj el ev cb opts w :
  instanceof_Element el = true →
  addEventListener obj el ev cb opts w
  = (Ok tt, listening_world obj el ev cb opts w).
Proof.
  intros He. destruct el; try discriminate.
  unfold addEventListener, listening_world, run_bind, getEventListeners,
    element_addEventListener, registerDisposable, listeners_of,
    listeners_ledger, adjusted_options.
  munfold. simpl.
  destruct (eventListeners w !! obj) as [l|] eqn:Hl; wunfold; rewrite ?Hl; simpl.
  - reflexivity.
  - by rewrite insert_insert_eq.
Qed.

Lemma addEventListener_fails obj el ev cb opts w :
  instanceof_Element el = false →
  ∃ msg, addEventListener obj el ev cb opts w = (Throw msg, w).
Proof.
  intros He. unfold addEventListener. munfold. rewrite He.
  destruct (truthy el); eauto.
Qed.

Lemma removeEventListener_ok obj el ev cb opts w :
  instanceof_Element el = true →
  removeEventListener obj el ev cb opts w
  = (Ok tt, unlistened_world obj el ev cb opts w).
Proof.
  intros He. destruct el; try discriminate.
  unfold removeEventListener, unlistened_world, getEventListeners,
    element_removeEventListener, registerDisposable, listeners_of,
    listeners_ledger, adjusted_options.
  munfold. simpl.
  destruct (eventListeners w !! obj) as [l|] eqn:Hl; wunfold; rewrite ?Hl; simpl.
  - case_bool_decide as Hlen.
    + destruct l; [|done]. simpl. rewrite insert_id by done. by destruct w.
    + destruct (find_listener _ _ _ _ _ _) as [i|]; [done|].
      rewrite insert_id by done. by destruct w.
  - reflexivity.
Qed.

Lemma removeEventListener_fails obj el ev cb opts w :
  instanceof_Element el = false →
  ∃ msg, removeEventListener obj el ev cb opts w = (Throw msg, w).
Proof.
  intros He. unfold removeEventListener. munfold. rewrite He.
  destruct (truthy el); eauto.
Qed.

(** ** Preservation, continued *)

Lemma exec_bind {A B} (m : M A) (k : A → M B) w :
  exec (m ≫= k) w
  = match (m w).1 with
    | Ok a => exec (k a) (exec m w)
    | Throw _ => exec m w
    end.
Proof. munfold. by destruct (m w) as [[a|e] w']. Qed.

Lemma preserves_bind {A B} (m : M A) (k : A → M B) :
  preserves m → (∀ a, preserves (k a)) → preserves (m ≫= k).
Proof.
  intros Hm Hk w HI. rewrite exec_bind.
  destruct ((m w).1); [apply Hk|]; by apply Hm.
Qed.

Lemma preserves_ret {A} (a : A) : preserves (mret a).
Proof. by intros w. Qed.

Lemma preserves_throw {A} msg : preserves (@throw A msg).
Proof. by intros w. Qed.

Lemma preserves_get : preserves get.
Proof. by intros w. Qed.

(** The invariants about tasks read the classes, the queue and the blobs,
    and the allocation counter as a bound. *)
Lemma Inv_tasks_frame w w' :
  Inv w →
  methods w' = methods w → timers w' = timers w → next_id w ≤ next_id w' →
  registeredDebounces w' = registeredDebounces w →
  (∀ obj l, eventListeners w' !! obj = Some l →
            length l `mod` LISTENER_ITEM_LENGTH = 0) →
  (∀ obj, is_Some (registeredDebounces w !! obj) ↔
          ∃ m a wt tok, Debounced obj m a wt tok ∈ log w') →
  (∀ el ev id obj cb opts,
     DomAdd el ev (VBound id obj cb) opts ∈ log w' →
     is_Some (eventListeners w' !! obj)) →
  Inv w'.
Proof.
  intros [Hids Hnd Htg Hent Htok Htoks Hwr Hpr Htup Hblob Hlis]
    Hm Ht Hn Hr Htup' Hblob' Hlis'.
  split; unfold blob_of in *; rewrite ?Hm, ?Ht, ?Hr; try done.
  - intros t Hin. apply Hids in Hin. lia.
  - intros t wr Hin Hw. destruct (Htg t wr Hin Hw). split; [done|lia].
  - intros o n p Hp. apply Htoks in Hp. lia.
  - intros o n p Hp. pose proof (Hwr _ _ _ Hp) as Hw.
    destruct (debouncedTask p) as [wr|]; [|done].
    destruct Hw as (? & ? & ? & ?). repeat split; auto; lia.
Qed.

Lemma log_keeps_Debounced (l extra : list LogEvent) obj :
  Forall (λ e, ∀ t m a wt tok, e ≠ Debounced t m a wt tok) extra →
  (∃ m a wt tok, Debounced obj m a wt tok ∈ l)
  ↔ (∃ m a wt tok, Debounced obj m a wt tok ∈ l ++ extra).
Proof.
  intros Hex. split; intros (m & a & wt & tok & Hin); exists m, a, wt, tok.
  - apply elem_of_app. by left.
  - apply elem_of_app in Hin as [Hin|Hin]; [done|].
    rewrite Forall_forall in Hex. by destruct (Hex _ Hin obj m a wt tok).
Qed.

Lemma Inv_frame w w' :
  methods w' = methods w →
  timers w' = timers w → next_id w' = next_id w →
  registeredDebounces w' = registeredDebounces w →
  eventListeners w' = eventListeners w → log w' = log w →
  Inv w → Inv w'.
Proof.
  intros Hm Ht Hn Hr He Hl HI.
  apply (Inv_tasks_frame w); try done; [lia|..]; rewrite ?He, ?Hl.
  - apply (inv_tuples _ HI).
  - apply (inv_blob _ HI).
  - apply (inv_listeners _ HI).
Qed.

Lemma Inv_log_DomRemove el ev cb opts w :
  Inv w → Inv (add_log (DomRemove el ev cb opts) w).
Proof.
  intros HI. apply (Inv_tasks_frame w); try done; simpl.
  - apply (inv_tuples _ HI).
  - intros o. rewrite (inv_blob _ HI). apply log_keeps_Debounced.
    by repeat constructor.
  - intros ?????? Hin. apply elem_of_app in Hin as [Hin|Hin];
      [by eapply inv_listeners|].
    by apply list_elem_of_singleton in Hin.
Qed.

Lemma Inv_log_Invoked obj name args w :
  Inv w → Inv (add_log (Invoked obj name args) w).
Proof.
  intros HI. apply (Inv_tasks_frame w); try done; simpl.
  - apply (inv_tuples _ HI).
  - intros o. rewrite (inv_blob _ HI). apply log_keeps_Debounced.
    by repeat constructor.
  - intros ?????? Hin. apply elem_of_app in Hin as [Hin|Hin];
      [by eapply inv_listeners|].
    by apply list_elem_of_singleton in Hin.
Qed.

Lemma mod_add_item n :
  n `mod` LISTENER_ITEM_LENGTH = 0 →
  (n + LISTENER_ITEM_LENGTH) `mod` LISTENER_ITEM_LENGTH = 0.
Proof.
  unfold LISTENER_ITEM_LENGTH. intros [c Hc]%Nat.Div0.mod_divides.
  apply Nat.Div0.mod_divides. exists (c + 1). lia.
Qed.

Lemma Inv_listening_world obj el ev cb opts w :
  Inv w → Inv (listening_world obj el ev cb opts w).
Proof.
  intros HI. pose proof (inv_tuples _ HI) as Htup.
  pose proof (inv_listeners _ HI) as Hlis.
  apply (Inv_tasks_frame w); try done; simpl; [lia|..].
  - intros o l. destruct (decide (o = obj)) as [->|Ho].
    + rewrite lookup_insert_eq. intros [= <-]. rewrite length_app.
      apply (mod_add_item (length (listeners_of w obj))).
      unfold listeners_of. destruct (eventListeners w !! obj) as [l|] eqn:Hl; simpl.
      * by apply Htup in Hl.
      * done.
    + rewrite lookup_insert_ne by done. apply Htup.
  - intros o. rewrite (inv_blob _ HI). apply log_keeps_Debounced.
    by repeat constructor.
  - intros el' ev' id o cb' opts' Hin.
    apply elem_of_app in Hin as [Hin|Hin].
    + apply Hlis in Hin. destruct (decide (o = obj)) as [->|Ho].
      * rewrite lookup_insert_eq. eauto.
      * by rewrite lookup_insert_ne.
    + apply list_elem_of_singleton in Hin. inversion Hin; subst.
      rewrite lookup_insert_eq. eauto.
Qed.

Lemma Inv_unlistened_world obj el ev cb opts w :
  Inv w → Inv (unlistened_world obj el ev cb opts w).
Proof.
  intros HI. pose proof (inv_tuples _ HI) as Htup.
  pose proof (inv_listeners _ HI) as Hlis.
  assert (Hmod : length (listeners_of w obj) `mod` LISTENER_ITEM_LENGTH = 0).
  { unfold listeners_of.
    destruct (eventListeners w !! obj) eqn:Hl; [by apply Htup in Hl|done]. }
  unfold unlistened_world.
  destruct (find_listener _ _ _ _ _ _) as [i|] eqn:Hf.
  - apply find_listener_Some in Hf as ((k & Hk) & Hlt & _).
    apply (Inv_tasks_frame w); try done; simpl.
    + intros o l. destruct (decide (o = obj)) as [->|Ho].
      * rewrite lookup_insert_eq. intros [= <-].
        pose proof (tuple_fits i _ Hmod (ex_intro _ k Hk) Hlt) as Hfit.
        pose proof (length_splice _ _ _ Hfit) as Hlen.
        unfold LISTENER_ITEM_LENGTH in *.
        apply Nat.Div0.mod_divides in Hmod as [c Hc].
        apply Nat.Div0.mod_divides. exists (c - 1). lia.
      * rewrite lookup_insert_ne by done. apply Htup.
    + intros o. rewrite (inv_blob _ HI). apply log_keeps_Debounced.
      by repeat constructor.
    + intros el' ev' id o cb' opts' Hin.
      apply elem_of_app in Hin as [Hin|Hin];
        [|by apply list_elem_of_singleton in Hin].
      apply Hlis in Hin. destruct (decide (o = obj)) as [->|Ho].
      * rewrite lookup_insert_eq. eauto.
      * by rewrite lookup_insert_ne.
  - apply (Inv_tasks_frame w); try done; simpl.
    + intros o l. destruct (decide (o = obj)) as [->|Ho].
      * rewrite lookup_insert_eq. by intros [= <-].
      * rewrite lookup_insert_ne by done. apply Htup.
    + apply (inv_blob _ HI).
    + intros el' ev' id o cb' opts' Hin.
      apply Hlis in Hin. destruct (decide (o = obj)) as [->|Ho].
      * rewrite lookup_insert_eq. eauto.
      * by rewrite lookup_insert_ne.
Qed.

Lemma preserves_addEventListener obj el ev cb opts :
  preserves (addEventListener obj el ev cb opts).
Proof.
  intros w HI. destruct (instanceof_Element el) eqn:He.
  - unfold exec. rewrite addEventListener_ok by done. by apply Inv_listening_world.
  - destruct (addEventListener_fails obj el ev cb opts w He) as [msg Hm].
    unfold exec. by rewrite Hm.
Qed.

Lemma preserves_removeEventListener obj el ev cb opts :
  preserves (removeEventListener obj el ev cb opts).
Proof.
  intros w HI. destruct (instanceof_Element el) eqn:He.
  - unfold exec. rewrite removeEventListener_ok by done.
    by apply Inv_unlistened_world.
  - destruct (removeEventListener_fails obj el ev cb opts w He) as [msg Hm].
    unfold exec. by rewrite Hm.
Qed.

Lemma preserves_modify_frame (f : World → World) :
  (∀ w, methods (f w) = methods w) →
  (∀ w, timers (f w) = timers w) → (∀ w, next_id (f w) = next_id w) →
  (∀ w, registeredDebounces (f w) = registeredDebounces w) →
  (∀ w, eventListeners (f w) = eventListeners w) →
  (∀ w, log (f w) = log w) →
  preserves (modify f).
Proof. intros ?????? w. by apply Inv_frame. Qed.

Lemma preserves_cancel token : preserves (cancel token).
Proof.
  destruct token as [token|]; [|apply preserves_ret].
  intros w HI. by apply Inv_filter_timers.
Qed.

Lemma preserves_cancel_each blob names : preserves (cancel_each blob names).
Proof.
  induction names as [|n names IH]; simpl; [apply preserves_ret|].
  apply preserves_bind; [|done].
  destruct (blob !! n); [apply (preserves_cancel (Some _))|apply preserves_throw].
Qed.

Lemma preserves_debouncesDisposable obj : preserves (debouncesDisposable obj).
Proof.
  unfold debouncesDisposable. apply preserves_bind; [apply preserves_get|].
  intros w. destruct (registeredDebounces w !! obj); [|apply preserves_ret].
  case_bool_decide; [apply preserves_ret|apply preserves_cancel_each].
Qed.

Lemma preserves_element_removeEventListener el ev cb opts :
  preserves (element_removeEventListener el ev cb opts).
Proof.
  unfold element_removeEventListener.
  destruct (instanceof_Element el); [|apply preserves_throw].
  intros w. apply Inv_log_DomRemove.
Qed.

Lemma preserves_remove_each fuel i l : preserves (remove_each fuel i l).
Proof.
  revert i. induction fuel as [|fuel IH]; intros i; simpl; [apply preserves_ret|].
  case_decide; [|apply preserves_ret].
  apply preserves_bind; [apply preserves_element_removeEventListener|done].
Qed.

Lemma preserves_eventListenersDisposable obj :
  preserves (eventListenersDisposable obj).
Proof.
  unfold eventListenersDisposable. apply preserves_bind; [apply preserves_get|].
  intros w. case_bool_decide; [apply preserves_ret|].
  apply preserves_bind; [apply preserves_remove_each|].
  intros _. by apply preserves_modify_frame.
Qed.

Lemma preserves_run_each ds : preserves (run_each ds).
Proof.
  induction ds as [|d ds IH]; simpl; [apply preserves_ret|].
  apply preserves_bind; [|done].
  destruct d; [apply preserves_debouncesDisposable
              |apply preserves_eventListenersDisposable].
Qed.

Lemma preserves_runDisposables obj : preserves (runDisposables obj).
Proof.
  unfold runDisposables. apply preserves_bind; [apply preserves_get|].
  intros w. destruct (disposables w !! obj); [|apply preserves_ret].
  apply preserves_bind; [by apply preserves_modify_frame|].
  intros _. apply preserves_run_each.
Qed.

Lemma preserves_exec_action a : preserves (exec_action a).
Proof.
  destruct a; simpl.
  - intros w. apply Inv_debounceTask.
  - intros w. apply Inv_cancelDebounce.
  - apply preserves_addEventListener.
  - apply preserves_removeEventListener.
  - apply preserves_runDisposables.
Qed.

Lemma preserves_run_actions body : preserves (run_actions body).
Proof.
  induction body as [|a body IH]; simpl; [apply preserves_ret|].
  apply preserves_bind; [apply preserves_exec_action|done].
Qed.

Lemma preserves_call_method obj name args : preserves (call_method obj name args).
Proof.
  unfold call_method. apply preserves_bind; [apply preserves_get|].
  intros w. destruct (methods w obj name); [|apply preserves_throw].
  apply preserves_bind; [intros w'; apply Inv_log_Invoked|].
  intros _. apply preserves_run_actions.
Qed.

(** A blob has no entry under [size]. *)
Lemma no_entry_under_size w obj : Inv w → blob_of w obj !! "size" = None.
Proof.
  intros HI. destruct (blob_of w obj !! "size") as [p|] eqn:Hp; [|done].
  pose proof (inv_wrapper _ HI _ _ _ Hp) as Hw.
  destruct (debouncedTask p); [by destruct Hw as (_ & _ & _ & ?)|done].
Qed.

(** The entry of a pending timer whose wrapper is not for a task named
    [size]. *)
Lemma pending_entry w t wr :
  Inv w → t ∈ timers w → t_method t = Some wr → w_name wr ≠ "size" →
  blob_of w (w_obj wr) !! w_name wr = Some (mkPending (Some wr) (t_id t)).
Proof.
  intros HI Ht Hm Hns. destruct (inv_target _ HI t wr Ht Hm) as [Htg _].
  destruct (inv_entry _ HI t Ht) as [Hsz|(n & Hn)].
  - unfold pending_for in Hsz. rewrite Hm in Hsz. by destruct Hsz.
  - rewrite Hm, Htg in Hn. pose proof (inv_wrapper _ HI _ _ _ Hn) as Hw.
    simpl in Hw. destruct Hw as (_ & _ & <- & _). done.
Qed.

(** The world in which the owner's task starts when [t] fires. *)
Lemma fire_eq t wr w blob :
  t_method t = Some wr →
  registeredDebounces w !! w_obj wr = Some blob →
  fire t w
  = call_method (w_obj wr) (w_name wr) (t_args t)
      (set_timers (filter (λ x, t_id x ≠ t_id t))
         (set_registeredDebounces
            <[w_obj wr := delete (w_name wr) blob]> w)).
Proof.
  intros Hm Hb. unfold fire, call_wrapper, delete_entry. rewrite Hm.
  munfold. wunfold. by rewrite Hb.
Qed.

Lemma fire_eq_no_blob t wr w :
  t_method t = Some wr →
  registeredDebounces w !! w_obj wr = None →
  fire t w
  = call_method (w_obj wr) (w_name wr) (t_args t)
      (set_timers (filter (λ x, t_id x ≠ t_id t)) w).
Proof.
  intros Hm Hb. unfold fire, call_wrapper, delete_entry. rewrite Hm.
  munfold. wunfold. rewrite Hb. by destruct w.
Qed.

Lemma fire_undefined t w :
  t_method t = None →
  fire t w
  = (Throw "TypeError: method is not a function",
     set_timers (filter (λ x, t_id x ≠ t_id t)) w).
Proof. intros Hm. unfold fire. rewrite Hm. by munfold. Qed.

Lemma Inv_fire t w : Inv w → t ∈ timers w → Inv (exec (fire t) w).
Proof.
  intros HI Ht. destruct (t_method t) as [wr|] eqn:Hm.
  - destruct (registeredDebounces w !! w_obj wr) as [blob|] eqn:Hb.
    + unfold exec. rewrite (fire_eq _ _ _ _ Hm Hb).
      apply preserves_call_method. apply Inv_drop; [done..|].
      intros x Hx Ho He Hid. apply Hid.
      rewrite <- (blob_of_Some _ _ _ Hb) in He.
      destruct (decide (w_name wr = "size")) as [Hsz|Hns].
      * rewrite Hsz, no_entry_under_size in He; done.
      * rewrite (pending_entry w t wr HI Ht Hm Hns) in He. by simplify_eq.
    + unfold exec. rewrite (fire_eq_no_blob _ _ _ Hm Hb).
      apply preserves_call_method. by apply Inv_filter_timers.
  - unfold exec. rewrite (fire_undefined _ _ Hm). by apply Inv_filter_timers.
Qed.

Lemma Inv_run_due w : Inv w → Inv (run_due w).
Proof.
  unfold run_due. generalize (filter (λ t, t_due t ≤ now w) (timers w)).
  intros due. revert w. induction due as [|t due IH]; intros w HI; simpl; [done|].
  apply IH. case_bool_decide; [by apply Inv_fire|done].
Qed.

Lemma Inv_elapse dt w : Inv w → Inv (elapse dt w).
Proof. intros HI. apply Inv_run_due. revert HI. by apply Inv_frame. Qed.

Lemma Inv_initial class_of host : Inv (initial_world class_of host).
Proof.
  split; simpl.
  - intros t Ht. by apply elem_of_nil in Ht.
  - constructor.
  - intros t wr Ht. by apply elem_of_nil in Ht.
  - intros t Ht. by apply elem_of_nil in Ht.
  - intros t o n p Ht. by apply elem_of_nil in Ht.
  - intros o n p. unfold blob_of. simpl. by rewrite lookup_empty.
  - intros o n p. unfold blob_of. simpl. by rewrite lookup_empty.
  - done.
  - intros o l. by rewrite lookup_empty.
  - intros o. rewrite lookup_empty. split; [by intros [? ?]|].
    intros (?&?&?&?&Hin). by apply elem_of_nil in Hin.
  - intros ?????? Hin. by apply elem_of_nil in Hin.
Qed.

Lemma Inv_Step w w' : Step w w' → Inv w → Inv w'.
Proof.
  intros [a ?|dt ?|obj ?] HI.
  - by apply preserves_exec_action.
  - by apply Inv_elapse.
  - revert HI. by apply Inv_frame.
Qed.

Lemma reachable_Inv w : reachable w → Inv w.
Proof.
  intros (class_of & host & Hr).
  apply (rtc_ind_r (R := Step) (λ w, Inv w) (initial_world class_of host));
    [apply Inv_initial| |exact Hr].
  intros y z _ Hs IH. by apply (Inv_Step y).
Qed.

(** ** What the public functions leave alone *)

Section Respects.
Variable R : relation World.
Context `{!Reflexive R, !Transitive R}.

Lemma respects_bind {A B} (m : M A) (k : A → M B) :
  respects R m → (∀ a, respects R (k a)) → respects R (m ≫= k).
Proof.
  intros Hm Hk w. rewrite exec_bind.
  destruct ((m w).1); [|apply Hm]. etrans; [apply Hm|apply Hk].
Qed.

Lemma respects_ret {A} (a : A) : respects R (mret a).
Proof. intros w. unfold exec. simpl. reflexivity. Qed.

Lemma respects_throw {A} msg : respects R (@throw A msg).
Proof. intros w. unfold exec. simpl. reflexivity. Qed.

Lemma respects_get : respects R get.
Proof. intros w. unfold exec. simpl. reflexivity. Qed.

Lemma respects_assert msg b : respects R (assert msg b).
Proof. destruct b; [apply respects_ret|apply respects_throw]. Qed.
End Respects.

Global Instance keeps_blobs_refl : Reflexive keeps_blobs.
Proof. intros w. by split. Qed.

Global Instance keeps_blobs_trans : Transitive keeps_blobs.
Proof. intros w1 w2 w3 [H1 H2] [H3 H4]. split; eauto. Qed.

Lemma keeps_blobs_same w w' :
  registeredDebounces w' = registeredDebounces w →
  eventListeners w' = eventListeners w → keeps_blobs w w'.
Proof. intros Hr He. split; intros obj; by rewrite ?Hr, ?He. Qed.

Lemma keeps_blobs_debounces w w' obj blob :
  registeredDebounces w' = <[obj := blob]> (registeredDebounces w) →
  eventListeners w' = eventListeners w → keeps_blobs w w'.
Proof.
  intros Hr He. split; intros o; rewrite ?Hr, ?He; [|done].
  intros Ho. apply lookup_insert_is_Some'. by right.
Qed.

Lemma keeps_blobs_listeners w w' obj l :
  registeredDebounces w' = registeredDebounces w →
  eventListeners w' = <[obj := l]> (eventListeners w) → keeps_blobs w w'.
Proof.
  intros Hr He. split; intros o; rewrite ?Hr, ?He; [done|].
  intros Ho. apply lookup_insert_is_Some'. by right.
Qed.

Global Instance quiet_refl : Reflexive quiet.
Proof. intros w. by split. Qed.

Global Instance quiet_trans : Transitive quiet.
Proof.
  intros w1 w2 w3 [] []. split; try congruence; by etrans.
Qed.

Global Instance grows_refl : Reflexive grows.
Proof. intros w. by split. Qed.

Global Instance grows_trans : Transitive grows.
Proof.
  intros w1 w2 w3 [] []. split; try congruence; by etrans.
Qed.

Lemma quiet_grows w w' : quiet w w' → grows w w'.
Proof. intros []. by split. Qed.

Lemma invocations_app l1 l2 :
  invocations (l1 ++ l2) = invocations l1 ++ invocations l2.
Proof. unfold invocations. apply omap_app. Qed.

(** A change that keeps the quiet fields and logs events other than task
    invocations. *)
Lemma quiet_intro w w' events :
  methods w' = methods w → PASSIVE_SUPPORTED w' = PASSIVE_SUPPORTED w →
  now w' = now w → destroyed w' = destroyed w →
  log w' = log w ++ events → invocations events = [] →
  keeps_blobs w w' →
  quiet w w'.
Proof.
  intros ???? Hl He ?. split; try done.
  - by rewrite Hl, invocations_app, He, app_nil_r.
  - rewrite Hl. by apply prefix_app_r.
Qed.

Lemma quiet_same w w' :
  methods w' = methods w → PASSIVE_SUPPORTED w' = PASSIVE_SUPPORTED w →
  now w' = now w → destroyed w' = destroyed w → log w' = log w →
  keeps_blobs w w' →
  quiet w w'.
Proof.
  intros ???? Hl ?. apply (quiet_intro _ _ []); try done. by rewrite app_nil_r.
Qed.

Lemma keeps_blobs_debounced_world obj name args wait w :
  keeps_blobs w (debounced_world obj name args wait w).
Proof.
  unfold debounced_world.
  destruct (assignable _); by eapply keeps_blobs_debounces.
Qed.

Lemma quiet_debounceTask obj name args wait :
  respects quiet (debounceTask obj name args wait).
Proof.
  intros w.
  destruct (debounceTask_cases obj name args wait w) as [->|(s & _ & _ & ->)];
    [done|].
  eapply quiet_intro; try done. apply keeps_blobs_debounced_world.
Qed.

Lemma quiet_cancelDebounce obj name : respects quiet (cancelDebounce obj name).
Proof.
  intros w. destruct (blob_of w obj !! name) as [p|] eqn:Hp.
  - destruct (blob_of_lookup _ _ _ _ Hp) as [blob Hb].
    rewrite (blob_of_Some _ _ _ Hb) in Hp.
    unfold exec. rewrite (cancelDebounce_present _ _ _ _ _ Hb Hp).
    apply quiet_same; try done; by eapply keeps_blobs_debounces.
  - unfold exec. by rewrite cancelDebounce_absent.
Qed.

Lemma quiet_addEventListener obj el ev cb opts :
  respects quiet (addEventListener obj el ev cb opts).
Proof.
  intros w. destruct (instanceof_Element el) eqn:He.
  - unfold exec. rewrite addEventListener_ok by done.
    eapply quiet_intro; try done; by eapply keeps_blobs_listeners.
  - destruct (addEventListener_fails obj el ev cb opts w He) as [msg Hm].
    unfold exec. by rewrite Hm.
Qed.

Lemma quiet_removeEventListener obj el ev cb opts :
  respects quiet (removeEventListener obj el ev cb opts).
Proof.
  intros w. destruct (instanceof_Element el) eqn:He.
  - unfold exec. rewrite removeEventListener_ok by done.
    unfold unlistened_world. destruct (find_listener _ _ _ _ _ _).
    + eapply quiet_intro; try done; by eapply keeps_blobs_listeners.
    + apply quiet_same; try done; by eapply keeps_blobs_listeners.
  - destruct (removeEventListener_fails obj el ev cb opts w He) as [msg Hm].
    unfold exec. by rewrite Hm.
Qed.

Lemma quiet_modify_frame (f : World → World) :
  (∀ w, methods (f w) = methods w) →
  (∀ w, PASSIVE_SUPPORTED (f w) = PASSIVE_SUPPORTED w) →
  (∀ w, now (f w) = now w) → (∀ w, destroyed (f w) = destroyed w) →
  (∀ w, log (f w) = log w) →
  (∀ w, registeredDebounces (f w) = registeredDebounces w) →
  (∀ w, eventListeners (f w) = eventListeners w) →
  respects quiet (modify f).
Proof.
  intros ???? Hl ?? w. apply quiet_same; try done; by apply keeps_blobs_same.
Qed.

Lemma quiet_cancel_each blob names : respects quiet (cancel_each blob names).
Proof.
  induction names as [|n names IH]; simpl; [apply respects_ret, _|].
  apply respects_bind; [apply _| |done].
  destruct (blob !! n); [|apply respects_throw, _].
  by apply quiet_modify_frame.
Qed.

Lemma quiet_debouncesDisposable obj : respects quiet (debouncesDisposable obj).
Proof.
  unfold debouncesDisposable.
  apply respects_bind; [apply _|apply respects_get, _|].
  intros w. destruct (registeredDebounces w !! obj); [|apply respects_ret, _].
  case_bool_decide; [apply respects_ret, _|apply quiet_cancel_each].
Qed.

Lemma quiet_remove_each fuel i l : respects quiet (remove_each fuel i l).
Proof.
  revert i. induction fuel as [|fuel IH]; intros i; simpl;
    [apply respects_ret, _|].
  case_decide; [|apply respects_ret, _].
  apply respects_bind; [apply _| |done].
  unfold element_removeEventListener.
  destruct (instanceof_Element _); [|apply respects_throw, _].
  intros w. eapply quiet_intro; try done; by apply keeps_blobs_same.
Qed.

Lemma quiet_eventListenersDisposable obj :
  respects quiet (eventListenersDisposable obj).
Proof.
  unfold eventListenersDisposable.
  apply respects_bind; [apply _|apply respects_get, _|].
  intros w. case_bool_decide; [apply respects_ret, _|].
  apply respects_bind; [apply _|apply quiet_remove_each|].
  intros _. by apply quiet_modify_frame.
Qed.

Lemma quiet_run_each ds : respects quiet (run_each ds).
Proof.
  induction ds as [|d ds IH]; simpl; [apply respects_ret, _|].
  apply respects_bind; [apply _| |done].
  destruct d; [apply quiet_debouncesDisposable
              |apply quiet_eventListenersDisposable].
Qed.

Lemma quiet_runDisposables obj : respects quiet (runDisposables obj).
Proof.
  unfold runDisposables.
  apply respects_bind; [apply _|apply respects_get, _|].
  intros w. destruct (disposables w !! obj); [|apply respects_ret, _].
  apply respects_bind; [apply _|by apply quiet_modify_frame|].
  intros _. apply quiet_run_each.
Qed.

Lemma quiet_exec_action a : respects quiet (exec_action a).
Proof.
  destruct a; simpl.
  - apply quiet_debounceTask.
  - apply quiet_cancelDebounce.
  - apply quiet_addEventListener.
  - apply quiet_removeEventListener.
  - apply quiet_runDisposables.
Qed.

Lemma quiet_run_actions body : respects quiet (run_actions body).
Proof.
  induction body as [|a body IH]; simpl; [apply respects_ret, _|].
  apply respects_bind; [apply _|apply quiet_exec_action|done].
Qed.

(** ** What every step leaves alone *)

Lemma grows_call_method obj name args : respects grows (call_method obj name args).
Proof.
  unfold call_method.
  apply respects_bind; [apply _|apply respects_get, _|].
  intros w. destruct (methods w obj name); [|apply respects_throw, _].
  apply respects_bind; [apply _| |].
  - intros w'. split; try done; try (by apply keeps_blobs_same).
    unfold exec, modify, add_log. simpl. by apply prefix_app_r.
  - intros _ w'. apply quiet_grows, quiet_run_actions.
Qed.

Lemma grows_delete_entry obj name : respects grows (delete_entry obj name).
Proof.
  intros w. unfold exec, delete_entry, modify. simpl. split; try done.
  split; [|done]. simpl. intros o Ho.
  destruct (registeredDebounces w !! obj); [|done].
  apply lookup_insert_is_Some'. by right.
Qed.

Lemma grows_fire t : respects grows (fire t).
Proof.
  unfold fire.
  apply respects_bind; [apply _| |].
  { intros w. split; try done; by apply keeps_blobs_same. }
  intros _. destruct (t_method t) as [wr|]; [|apply respects_throw, _].
  unfold call_wrapper.
  apply respects_bind;
    [apply _|apply grows_delete_entry|intros _; apply grows_call_method].
Qed.

Lemma grows_run_due w : grows w (run_due w).
Proof.
  unfold run_due. generalize (filter (λ t, t_due t ≤ now w) (timers w)).
  intros due. revert w. induction due as [|t due IH]; intros w; simpl; [done|].
  etrans; [|apply IH]. case_bool_decide; [apply grows_fire|done].
Qed.

Lemma grows_Step w w' : Step w w' → grows w w'.
Proof.
  intros [a ?|dt ?|obj ?].
  - apply quiet_grows, quiet_exec_action.
  - unfold elapse. etrans; [|apply grows_run_due].
    split; try done; by apply keeps_blobs_same.
  - split; try done; by apply keeps_blobs_same.
Qed.

Lemma grows_rtc w w' : rtc Step w w' → grows w w'.
Proof.
  induction 1 as [|w1 w2 w3 Hs _ IH]; [done|].
  etrans; [by apply grows_Step|done].
Qed.

(** * The debounce coordinator *)

Lemma wrapper_for_Some w obj name p :
  blob_of w obj !! name = Some p → wrapper_for w obj name = debouncedTask p.
Proof. intros Hp. unfold wrapper_for. by rewrite (blob_get_own _ _ _ Hp). Qed.

Lemma token_for_Some w obj name p :
  blob_of w obj !! name = Some p → token_for w obj name = next_id w.
Proof. intros Hp. unfold token_for. by rewrite (blob_get_own _ _ _ Hp). Qed.

Lemma wrapper_for_None w obj name :
  blob_of w obj !! name = None → inherited name = None →
  wrapper_for w obj name = Some (mkWrapper (next_id w) obj name).
Proof.
  intros Hp Hi. unfold wrapper_for. by rewrite (blob_get_undefined _ _ Hp Hi).
Qed.

Lemma token_for_None w obj name :
  blob_of w obj !! name = None → inherited name = None →
  token_for w obj name = S (next_id w).
Proof.
  intros Hp Hi. unfold token_for. by rewrite (blob_get_undefined _ _ Hp Hi).
Qed.

(** Names under which the assignment of [debounceTask] stores its entry. *)
Lemma assignable_own blob name p :
  blob !! name = Some p → assignable (blob_get blob name) = true.
Proof. intros Hp. by rewrite (blob_get_own _ _ _ Hp). Qed.

Lemma assignable_plain blob name :
  inherited name = None → assignable (blob_get blob name) = true.
Proof.
  intros Hi. unfold blob_get. rewrite Hi. by destruct (blob !! name).
Qed.

Lemma assignable_outcome w obj name :
  assignable (blob_get (blob_of w obj) name) = true →
  debounce_outcome w obj name = Ok tt.
Proof.
  unfold debounce_outcome. by destruct (blob_get _ _) as [?|[]|].
Qed.

Lemma debounced_world_entry obj name args wait w :
  assignable (blob_get (blob_of w obj) name) = true →
  blob_of (debounced_world obj name args wait w) obj !! name
  = Some (mkPending (wrapper_for w obj name) (token_for w obj name)).
Proof.
  intros Ha. rewrite blob_of_debounced_world. by rewrite decide_True.
Qed.

(** C2. When [debounceTask] finds an entry for the owner and the name, the
    scheduling call is made with the stored wrapper, and the new entry
    keeps that wrapper and holds the token that call returned. *)
Theorem debounceTask_reuses_wrapper obj name args wait w blob p :
  registeredDebounces w !! obj = Some blob → blob !! name = Some p →
  is_Some (methods w obj name) → obj ∉ destroyed w →
  ∃ token w1,
    debounce obj (debouncedTask p) args wait w = (Ok token, w1) ∧
    (debounceTask obj (VStr name) args wait w).1 = Ok tt ∧
    blob_of (exec (debounceTask obj (VStr name) args wait) w) obj !! name
    = Some (mkPending (debouncedTask p) token) ∧
    log (exec (debounceTask obj (VStr name) args wait) w)
    = log w ++ [Debounced obj (debouncedTask p) args wait token].
Proof.
  intros Hb Hp Hm Hd. eexists _, _. split; [reflexivity|].
  assert (Hp' : blob_of w obj !! name = Some p)
    by (by rewrite (blob_of_Some _ _ _ Hb)).
  pose proof (assignable_own _ _ _ Hp') as Ha.
  unfold exec. rewrite debounceTask_ok by done. simpl.
  rewrite (assignable_outcome _ _ _ Ha), debounced_world_entry by done.
  by rewrite (wrapper_for_Some _ _ _ _ Hp'), (token_for_Some _ _ _ _ Hp').
Qed.

Lemma debounceTask_reuses_wrapper_witness :
  ∃ token w1,
    debounce 7 (Some (mkWrapper 0 7 "save")) [VNum 2] 100 demo_saving
    = (Ok token, w1) ∧
    (debounceTask 7 (VStr "save") [VNum 2] 100 demo_saving).1 = Ok tt ∧
    blob_of (exec (debounceTask 7 (VStr "save") [VNum 2] 100) demo_saving) 7
      !! "save"
    = Some (mkPending (Some (mkWrapper 0 7 "save")) token) ∧
    log (exec (debounceTask 7 (VStr "save") [VNum 2] 100) demo_saving)
    = log demo_saving
      ++ [Debounced 7 (Some (mkWrapper 0 7 "save")) [VNum 2] 100 token].
Proof.
  apply (debounceTask_reuses_wrapper 7 "save" [VNum 2] 100 demo_saving
           {[ "save" := mkPending (Some (mkWrapper 0 7 "save")) 1 ]}
           (mkPending (Some (mkWrapper 0 7 "save")) 1)).
  - vm_compute. reflexivity.
  - vm_compute. reflexivity.
  - vm_compute. eauto.
  - apply (bool_decide_unpack _). vm_compute. exact I.
Defined.

(** C9. A call that breaks a precondition throws at once and changes
    nothing: [debounceTask] with a name that is not a string, with a name
    under which the owner has no function, or on a destroyed owner;
    [addEventListener] and [removeEventListener] with an element that is
    missing or is not an [Element]. *)
Theorem preconditions_are_signalled obj name args wait el ev cb opts w :
  ((typeof name ≠ "string"
    ∨ (∃ s, name = VStr s ∧ methods w obj s = None)
    ∨ obj ∈ destroyed w) →
   ∃ msg, debounceTask obj name args wait w = (Throw msg, w))
  ∧ ((truthy el = false ∨ instanceof_Element el = false) →
     (∃ msg, addEventListener obj el ev cb opts w = (Throw msg, w))
     ∧ (∃ msg, removeEventListener obj el ev cb opts w = (Throw msg, w))).
Proof.
  split.
  - intros Hbad. destruct (decide (typeof name = "string")) as [Hs|Hs];
      [|by eexists; apply debounceTask_not_string].
    destruct name; try discriminate.
    destruct (methods w obj s) as [body|] eqn:Hm;
      [|by eexists; apply debounceTask_not_function].
    destruct Hbad as [?|[(s' & Heq & Hn)|Hd]]; [done| |].
    + simplify_eq.
    + eexists. apply debounceTask_destroyed; [by rewrite Hm|done].
  - intros Hbad.
    assert (He : instanceof_Element el = false).
    { destruct Hbad as [Hbad|?]; [|done]. by destruct el. }
    split; [by apply addEventListener_fails|by apply removeEventListener_fails].
Qed.

Lemma preconditions_are_signalled_witness :
  (∃ msg, debounceTask 7 (VNum 3) [] 100 demo_saving = (Throw msg, demo_saving))
  ∧ (∃ msg, debounceTask 7 (VStr "load") [] 100 demo_saving
            = (Throw msg, demo_saving))
  ∧ (∃ msg, addEventListener 7 VUndefined (VStr "click") (VFun 1) VUndefined
              demo_saving = (Throw msg, demo_saving))
  ∧ (∃ msg, removeEventListener 7 (VStr ".some-item") (VStr "click") (VFun 1)
              VUndefined demo_saving = (Throw msg, demo_saving)).
Proof.
  repeat split.
  - apply (preconditions_are_signalled 7 (VNum 3) [] 100 VNull VNull VNull VNull
             demo_saving).
    left. vm_compute. discriminate.
  - apply (preconditions_are_signalled 7 (VStr "load") [] 100 VNull VNull VNull
             VNull demo_saving).
    right. left. exists "load". split; reflexivity.
  - apply (preconditions_are_signalled 7 VNull [] 100 VUndefined (VStr "click")
             (VFun 1) VUndefined demo_saving).
    left. reflexivity.
  - apply (preconditions_are_signalled 7 VNull [] 100 (VStr ".some-item")
             (VStr "click") (VFun 1) VUndefined demo_saving).
    right. reflexivity.
Defined.





(** ** The teardown closure of the debounce registry *)

Lemma filter_all {A} (P : A → Prop) `{!∀ x, Decision (P x)} (l : list A) :
  (∀ x, x ∈ l → P x) → filter P l = l.
Proof.
  induction l as [|x l IH]; intros Hall; [done|].
  rewrite filter_cons_True by (apply Hall; left).
  f_equal. apply IH. intros y Hy. apply Hall. by right.
Qed.

Lemma set_timers_id w : set_timers (λ ts, ts) w = w.
Proof. by destruct w. Qed.

Lemma cancel_each_ok blob (entries : list (string * PendingDebounce)) w :
  (∀ x, x ∈ entries → blob !! x.1 = Some x.2) →
  cancel_each blob entries.*1 w
  = (Ok tt, set_timers
              (filter (λ t, t_id t ∉ (λ x, cancelId x.2) <$> entries)) w).
Proof.
  revert w. induction entries as [|[n p] entries IH]; intros w Hin; simpl.
  - munfold. rewrite <- (set_timers_id w) at 1. unfold set_timers. simpl.
    do 3 f_equal. symmetry. apply filter_all. intros t _. apply not_elem_of_nil.
  - pose proof (Hin (n, p) ltac:(left)) as Hnp. simpl in Hnp.
    munfold. rewrite Hnp. simpl. munfold.
    rewrite IH by (intros x Hx; apply Hin; by right).
    unfold set_timers. simpl. do 3 f_equal.
    rewrite list_filter_filter. apply list_filter_iff.
    intros t. rewrite not_elem_of_cons. simpl. tauto.
Qed.

Lemma debouncesDisposable_ok obj w blob :
  registeredDebounces w !! obj = Some blob →
  debouncesDisposable obj w
  = (Ok tt, set_timers (filter (λ t, t_id t ∉ tokens_of blob)) w).
Proof.
  intros Hb. unfold debouncesDisposable. munfold. rewrite Hb.
  case_bool_decide as Hlen.
  - unfold tokens_of. rewrite length_fmap in Hlen.
    apply nil_length_inv in Hlen. rewrite Hlen. simpl.
    rewrite <- (set_timers_id w) at 1. unfold set_timers. simpl.
    do 3 f_equal. symmetry. apply filter_all. intros t _. apply not_elem_of_nil.
  - apply cancel_each_ok. intros [n p] Hx. by apply elem_of_map_to_list.
Qed.

(** C4, as the code has it.  The teardown closure cancels the token of
    every entry of the owner's blob, so that no timer of the owner stays
    pending other than the timers of a task named [size], and returns
    normally; it leaves the entries where they are.  With no entries it
    changes nothing. *)
Theorem debounces_teardown obj w blob :
  registeredDebounces w !! obj = Some blob →
  (debouncesDisposable obj w).1 = Ok tt
  ∧ timers (exec (debouncesDisposable obj) w)
    = filter (λ t, t_id t ∉ tokens_of blob) (timers w)
  ∧ (∀ name p t, blob !! name = Some p →
       t ∈ timers (exec (debouncesDisposable obj) w) → t_id t ≠ cancelId p)
  ∧ (Inv w → ∀ t, t ∈ timers (exec (debouncesDisposable obj) w) →
       t_target t = obj → pending_for obj "size" t)
  ∧ registeredDebounces (exec (debouncesDisposable obj) w)
    = registeredDebounces w
  ∧ (blob = ∅ → exec (debouncesDisposable obj) w = w).
Proof.
  intros Hb. unfold exec. rewrite (debouncesDisposable_ok _ _ _ Hb). simpl.
  assert (Htok : ∀ name p, blob !! name = Some p → cancelId p ∈ tokens_of blob).
  { intros name p Hp. unfold tokens_of. apply list_elem_of_fmap.
    exists (name, p). split; [done|]. by apply elem_of_map_to_list. }
  repeat split.
  - intros name p t Hp Ht Heq. apply list_elem_of_filter in Ht as [Hnot _].
    apply Hnot. rewrite Heq. eauto.
  - intros HI t Ht Ho. apply list_elem_of_filter in Ht as [Hnot Ht].
    destruct (inv_entry _ HI t Ht) as [Hsz|(n & He)]; [by rewrite Ho in Hsz|].
    rewrite Ho, (blob_of_Some _ _ _ Hb) in He.
    destruct Hnot. apply (Htok _ _ He).
  - intros ->. rewrite <- (set_timers_id w) at 2. unfold set_timers. simpl.
    f_equal. apply filter_all. intros t _. unfold tokens_of.
    rewrite map_to_list_empty. apply not_elem_of_nil.
Qed.

Lemma debounces_teardown_witness :
  (debouncesDisposable 7 demo_saving).1 = Ok tt
  ∧ timers (exec (debouncesDisposable 7) demo_saving) = []
  ∧ registeredDebounces (exec (debouncesDisposable 7) demo_saving)
    = registeredDebounces demo_saving.
Proof.
  destruct (debounces_teardown 7 demo_saving
              {[ "save" := mkPending (Some (mkWrapper 0 7 "save")) 1 ]})
    as (Hok & Ht & _ & _ & Hr & _).
  - vm_compute. reflexivity.
  - split; [exact Hok|]. split; [|exact Hr]. rewrite Ht. vm_compute. reflexivity.
Defined.

(** C4, as the claim has it, fails: after the teardown closure has run the
    blob still holds the entry whose token it cancelled. *)
Lemma debounces_teardown_keeps_entries :
  (debouncesDisposable 7 demo_saving).1 = Ok tt
  ∧ blob_of (exec (debouncesDisposable 7) demo_saving) 7 !! "save"
    = Some (mkPending (Some (mkWrapper 0 7 "save")) 1)
  ∧ blob_of (exec (debouncesDisposable 7) demo_saving) 7 ≠ ∅.
Proof.
  split; [by vm_compute|]. split; [by vm_compute|].
  intros H. assert (Hl : blob_of (exec (debouncesDisposable 7) demo_saving) 7
                          !! "save" = None) by (by rewrite H).
  vm_compute in Hl. discriminate.
Qed.

(** ** Coalescing *)

Lemma NoDup_fmap_eq {A B} (f : A → B) (l : list A) x y :
  NoDup (f <$> l) → x ∈ l → y ∈ l → f x = f y → x = y.
Proof.
  induction l as [|a l IH]; simpl; intros Hnd Hx Hy Hf.
  - by apply elem_of_nil in Hx.
  - apply NoDup_cons in Hnd as [Ha Hnd].
    apply elem_of_cons in Hx as [->|Hx]; apply elem_of_cons in Hy as [->|Hy].
    + done.
    + exfalso. apply Ha. rewrite Hf. by apply list_elem_of_fmap_2.
    + exfalso. apply Ha. rewrite <- Hf. by apply list_elem_of_fmap_2.
    + by apply IH.
Qed.

(** At most one timer is pending for an owner's task, unless the task is
    named [size]. *)
Lemma pending_unique obj name w t1 t2 :
  Inv w → name ≠ "size" → t1 ∈ timers w → t2 ∈ timers w →
  pending_for obj name t1 → pending_for obj name t2 → t1 = t2.
Proof.
  intros HI Hns H1 H2 Hp1 Hp2. unfold pending_for in *.
  destruct (t_method t1) as [wr1|] eqn:Hm1; [|done].
  destruct (t_method t2) as [wr2|] eqn:Hm2; [|done].
  destruct Hp1 as [Ho1 Hn1]. destruct Hp2 as [Ho2 Hn2].
  pose proof (pending_entry w t1 wr1 HI H1 Hm1 ltac:(by rewrite Hn1)) as He1.
  pose proof (pending_entry w t2 wr2 HI H2 Hm2 ltac:(by rewrite Hn2)) as He2.
  rewrite Ho1, Hn1 in He1. rewrite Ho2, Hn2, He1 in He2.
  apply (NoDup_fmap_eq t_id (timers w)); [by apply inv_nodup|done..|].
  by simplify_eq.
Qed.

Lemma filter_none {A} (P : A → Prop) `{!∀ x, Decision (P x)} (l : list A) :
  (∀ x, x ∈ l → ¬ P x) → filter P l = [].
Proof.
  induction l as [|x l IH]; intros Hall; [done|].
  rewrite filter_cons_False by (apply Hall; left).
  apply IH. intros y Hy. apply Hall. by right.
Qed.

Lemma filter_one {A} (P : A → Prop) `{!∀ x, Decision (P x)} (l : list A) a :
  NoDup l → a ∈ l → P a → (∀ x, x ∈ l → x ≠ a → ¬ P x) → filter P l = [a].
Proof.
  induction l as [|x l IH]; intros Hnd Ha HP Hall.
  - by apply elem_of_nil in Ha.
  - apply NoDup_cons in Hnd as [Hx Hnd].
    apply elem_of_cons in Ha as [->|Ha].
    + rewrite filter_cons_True by done. f_equal.
      apply filter_none. intros y Hy. apply Hall; [by right|].
      intros ->. done.
    + assert (Hne : x ≠ a) by (intros ->; done).
      rewrite filter_cons_False by (apply Hall; [left|done]).
      apply IH; [done..|]. intros y Hy. apply Hall. by right.
Qed.

(** A turn of the run loop with nothing due. *)
Lemma elapse_idle gap w :
  (∀ t, t ∈ timers w → now w + gap < t_due t) →
  elapse gap w = set_now (λ n, n + gap) w.
Proof.
  intros Hlate. unfold elapse, run_due.
  rewrite filter_none; [done|]. simpl. intros t Ht. apply Hlate in Ht. lia.
Qed.

(** A turn of the run loop with one timer due. *)
Lemma elapse_one gap w tn :
  Inv w → tn ∈ timers w → t_due tn ≤ now w + gap →
  (∀ t, t ∈ timers w → t ≠ tn → now w + gap < t_due t) →
  elapse gap w = exec (fire tn) (set_now (λ n, n + gap) w).
Proof.
  intros HI Hin Hdue Hlate. unfold elapse, run_due.
  rewrite (filter_one _ _ tn); simpl.
  - by rewrite bool_decide_eq_true_2.
  - eapply NoDup_fmap_1, inv_nodup, HI.
  - done.
  - done.
  - intros t Ht Hne. apply Hlate in Ht; [lia|done].
Qed.

Lemma call_method_invocations obj name args w :
  invocations (log (exec (call_method obj name args) w)) = invocations (log w)
  ∨ invocations (log (exec (call_method obj name args) w))
    = invocations (log w) ++ [(obj, name, args)].
Proof.
  unfold exec, call_method. munfold.
  destruct (methods w obj name) as [body|]; [right|by left].
  pose proof (quiet_invocations _ _
    (quiet_run_actions (body args) (add_log (Invoked obj name args) w))) as Hq.
  unfold exec in Hq. rewrite Hq. simpl. by rewrite invocations_app.
Qed.

Lemma call_method_invoked obj name args w body :
  methods w obj name = Some body →
  invocations (log (exec (call_method obj name args) w))
  = invocations (log w) ++ [(obj, name, args)].
Proof.
  intros Hm. unfold exec, call_method. munfold. rewrite Hm.
  pose proof (quiet_invocations _ _
    (quiet_run_actions (body args) (add_log (Invoked obj name args) w))) as Hq.
  unfold exec in Hq. rewrite Hq. simpl. by rewrite invocations_app.
Qed.

(** Firing a timer is calling the task of its wrapper in a world with the
    same classes and the same log. *)
Lemma fire_call t wr w :
  t_method t = Some wr →
  ∃ w0, exec (fire t) w
        = exec (call_method (w_obj wr) (w_name wr) (t_args t)) w0
        ∧ log w0 = log w ∧ methods w0 = methods w.
Proof.
  intros Hm.
  exists (exec (delete_entry (w_obj wr) (w_name wr))
            (set_timers (filter (λ x, t_id x ≠ t_id t)) w)).
  split; [|split].
  - unfold fire, call_wrapper, delete_entry. rewrite Hm. munfold. reflexivity.
  - done.
  - done.
Qed.

Lemma fire_invocations tn wr w body :
  t_method tn = Some wr →
  methods w (w_obj wr) (w_name wr) = Some body →
  invocations (log (exec (fire tn) w))
  = invocations (log w) ++ [(w_obj wr, w_name wr, t_args tn)].
Proof.
  intros Hm Hb. destruct (fire_call tn wr w Hm) as (w0 & -> & <- & Hmeth).
  apply (call_method_invoked _ _ _ _ body). by rewrite Hmeth.
Qed.

Lemma plain_not_proto name : inherited name = None → name ≠ "__proto__".
Proof. intros Hi ->. discriminate. Qed.

Lemma plain_not_size name : inherited name = None → name ≠ "size".
Proof. intros Hi ->. discriminate. Qed.

(** Under a name the blob does not inherit, [debounceTask] schedules a
    wrapper for the pair and stores it. *)
Lemma wrapper_for_plain obj name w :
  Inv w → inherited name = None →
  ∃ wr, wrapper_for w obj name = Some wr ∧ w_obj wr = obj ∧ w_name wr = name
        ∧ w_id wr ≤ token_for w obj name.
Proof.
  intros HI Hi.
  destruct (debounce_plan w obj name HI (plain_not_proto _ Hi)) as [_ Hplan].
  destruct (wrapper_for w obj name) as [wr|].
  - exists wr. destruct Hplan as (? & ? & ? & _). done.
  - destruct Hplan. congruence.
Qed.

Lemma debounced_world_pending obj name args wait w :
  Inv w → inherited name = None →
  mkTimer (token_for w obj name) obj (wrapper_for w obj name) args (now w + wait)
    ∈ timers (debounced_world obj name args wait w)
  ∧ pending_for obj name
      (mkTimer (token_for w obj name) obj (wrapper_for w obj name) args
         (now w + wait)).
Proof.
  intros HI Hi. split.
  - simpl. apply elem_of_insert_timer. by left.
  - destruct (wrapper_for_plain obj name w HI Hi) as (wr & Hw & ? & ? & _).
    unfold pending_for. simpl. by rewrite Hw.
Qed.

Lemma debounced_world_others obj name args wait w t :
  t ∈ timers (debounced_world obj name args wait w) →
  t = mkTimer (token_for w obj name) obj (wrapper_for w obj name) args
        (now w + wait)
  ∨ t ∈ timers w.
Proof.
  simpl. intros Ht. apply elem_of_insert_timer in Ht as [->|Ht]; [by left|].
  apply list_elem_of_filter in Ht as [_ Ht]. by right.
Qed.

Lemma burst_time_cons args wait gap calls :
  burst_time ((args, wait, gap) :: calls) = gap + burst_time calls.
Proof. done. Qed.

(** X15. Coalescing, for a task whose name the blob does not inherit.  In
    a burst of [debounceTask] calls for one task of one owner, each call
    made before the wait of the one before has elapsed, the owner's task is
    invoked once, with the arguments of the last call: the log of
    invocations grows by that one entry, provided no other timer comes due
    during the burst. *)
Theorem debounce_coalescing obj name calls args wait gap w :
  Inv w → inherited name = None →
  is_Some (methods w obj name) → obj ∉ destroyed w →
  Forall (λ c, c.2 < c.1.2) calls → wait ≤ gap →
  (∀ t, t ∈ timers w →
     pending_for obj name t
     ∨ now w + burst_time (calls ++ [(args, wait, gap)]) < t_due t) →
  invocations (log (debounce_burst obj name (calls ++ [(args, wait, gap)]) w))
  = invocations (log w) ++ [(obj, name, args)].
Proof.
  intros HI Hi. revert w HI.
  pose proof (plain_not_proto _ Hi) as Hnp.
  pose proof (plain_not_size _ Hi) as Hns.
  induction calls as [|[[a wt] g] calls IH];
    intros w HI Hm Hd Hgaps Hwait Hlate; simpl.
  - unfold exec. rewrite debounceTask_ok by done. simpl.
    pose proof (Inv_debounced_world obj name args wait w HI Hnp) as HI'.
    destruct (debounced_world_pending obj name args wait w HI Hi) as [Hin Hpend].
    destruct (wrapper_for_plain obj name w HI Hi) as (wr & Hw & Ho & Hn & _).
    set (tn := mkTimer _ _ _ _ _) in *.
    rewrite (elapse_one gap _ tn); [|done..| |].
    + destruct Hm as [body Hm].
      rewrite (fire_invocations tn wr _ body).
      * rewrite Ho, Hn. simpl. by rewrite invocations_app, app_nil_r.
      * done.
      * by rewrite Ho, Hn.
    + simpl. lia.
    + intros t Ht Hne.
      destruct (debounced_world_others _ _ _ _ _ _ Ht) as [->|Ht']; [done|].
      destruct (Hlate t Ht') as [Hp|Hl].
      * exfalso. apply Hne. by apply (pending_unique obj name _ _ _ HI').
      * simpl in *. unfold burst_time in Hl. simpl in Hl. lia.
  - apply Forall_cons in Hgaps as [Hg Hgaps]. simpl in Hg.
    unfold exec at 1. rewrite debounceTask_ok by done. simpl.
    pose proof (Inv_debounced_world obj name a wt w HI Hnp) as HI'.
    destruct (debounced_world_pending obj name a wt w HI Hi) as [Hin Hpend].
    set (tn := mkTimer _ _ _ _ _) in *.
    assert (Hl' : ∀ t, t ∈ timers (debounced_world obj name a wt w) →
              t = tn ∨ (t ∈ timers w ∧ t ≠ tn
                        ∧ now w + g + burst_time (calls ++ [(args, wait, gap)])
                          < t_due t)).
    { intros t Ht. destruct (decide (t = tn)) as [|Hne]; [by left|right].
      destruct (debounced_world_others _ _ _ _ _ _ Ht) as [->|Ht']; [done|].
      split; [done|]. split; [done|].
      destruct (Hlate t Ht') as [Hp|Hl].
      - exfalso. apply Hne. by apply (pending_unique obj name _ _ _ HI').
      - simpl in Hl. rewrite burst_time_cons in Hl. lia. }
    rewrite elapse_idle.
    + rewrite IH; try done.
      * simpl. by rewrite invocations_app, app_nil_r.
      * revert HI'. by apply Inv_frame.
      * intros t Ht. simpl in Ht. destruct (Hl' t Ht) as [->|(_ & _ & Hl)].
        -- by left.
        -- right. simpl. lia.
    + intros t Ht. destruct (Hl' t Ht) as [->|(_ & _ & Hl)]; simpl; lia.
Qed.

Lemma debounce_coalescing_witness :
  invocations
    (log (debounce_burst 7 "save"
            [([VNum 1], 100, 30); ([VNum 2], 100, 30); ([VNum 3], 100, 100)]
            demo_world))
  = [(7, "save", [VNum 3])].
Proof.
  apply (debounce_coalescing 7 "save"
           [([VNum 1], 100, 30); ([VNum 2], 100, 30)] [VNum 3] 100 100
           demo_world).
  - apply Inv_initial.
  - reflexivity.
  - vm_compute. eauto.
  - apply (bool_decide_unpack _). vm_compute. exact I.
  - repeat constructor; simpl; lia.
  - lia.
  - intros t Ht. vm_compute in Ht. by apply elem_of_nil in Ht.
Defined.

(** C1 fails on the code for a task named like something a map inherits.
    The blob is a [new Map()] read by property name, so for the task
    [clear] of a form the first [debounceTask] finds [Map.prototype.clear]
    where it looks for an entry, takes it for one, and schedules the
    [debouncedTask] of that function, which is [undefined].  The run loop
    has no task of the owner to call: the burst that makes one invocation
    of [submit] makes none of [clear].  For the task [size] the map answers
    0 and refuses the assignment, so every call of the burst schedules a
    wrapper of its own and all of them run. *)
Theorem debounced_clear_never_runs :
  is_Some (methods demo_form 9 "clear")
  ∧ (debounceTask 9 (VStr "clear") [VNum 1] 100 demo_form).1 = Ok tt
  ∧ timers demo_clearing = [mkTimer 0 9 None [VNum 1] 100]
  ∧ blob_of demo_clearing 9 !! "clear" = Some (mkPending None 0)
  ∧ invocations
      (log (debounce_burst 9 "clear"
              [([VNum 1], 100, 30); ([VNum 2], 100, 30); ([VNum 3], 100, 100)]
              demo_form))
    = []
  ∧ invocations
      (log (debounce_burst 9 "submit"
              [([VNum 1], 100, 30); ([VNum 2], 100, 30); ([VNum 3], 100, 100)]
              demo_form))
    = [(9, "submit", [VNum 3])]
  ∧ invocations
      (log (debounce_burst 9 "size"
              [([VNum 1], 100, 30); ([VNum 2], 100, 30); ([VNum 3], 100, 100)]
              demo_form))
    = [(9, "size", [VNum 1]); (9, "size", [VNum 2]); (9, "size", [VNum 3])].
Proof.
  split; [vm_compute; eauto|]. repeat split; by vm_compute.
Qed.

(** ** Re-entrancy *)




(** * The owner registry *)

Lemma reachable_rtc w w' : reachable w → rtc Step w w' → reachable w'.
Proof.
  intros (class_of & host & Hr) Hs. exists class_of, host. by etrans.
Qed.

(** C5, as the code has it.  In every reachable world the debounce
    registry has a blob for an owner exactly when a [debounceTask] call has
    registered for that owner since the module was loaded, and the listener
    registry has a blob for an owner for whom an [addEventListener] call has
    registered.  [cancelDebounce] does not create a blob, and no later step,
    disposal included, takes a blob of either registry away. *)
Theorem blob_iff_registered w obj :
  reachable w →
  (is_Some (registeredDebounces w !! obj)
   ↔ ∃ m a wt tok, Debounced obj m a wt tok ∈ log w)
  ∧ ((∃ el ev id cb opts, DomAdd el ev (VBound id obj cb) opts ∈ log w) →
     is_Some (eventListeners w !! obj))
  ∧ (∀ obj' name,
       is_Some (registeredDebounces (exec (cancelDebounce obj' name) w) !! obj)
       ↔ is_Some (registeredDebounces w !! obj))
  ∧ (∀ w', rtc Step w w' →
       (is_Some (registeredDebounces w !! obj) →
        is_Some (registeredDebounces w' !! obj))
       ∧ (is_Some (eventListeners w !! obj) →
          is_Some (eventListeners w' !! obj))).
Proof.
  intros Hr. pose proof (reachable_Inv _ Hr) as HI.
  split; [apply (inv_blob _ HI)|]. split.
  { intros (el & ev & id & cb & opts & Hin). by eapply inv_listeners. }
  split.
  - intros obj' name.
    pose proof (Inv_cancelDebounce obj' name w HI) as HI'.
    rewrite (inv_blob _ HI'), (inv_blob _ HI).
    destruct (blob_of w obj' !! name) as [p|] eqn:Hp.
    + destruct (blob_of_lookup _ _ _ _ Hp) as [blob Hb].
      rewrite (blob_of_Some _ _ _ Hb) in Hp. unfold exec.
      by rewrite (cancelDebounce_present _ _ _ _ _ Hb Hp).
    + unfold exec. by rewrite cancelDebounce_absent.
  - intros w' Hs. destruct (grows_blobs _ _ (grows_rtc _ _ Hs)) as [Hd Hl].
    split; [apply Hd|apply Hl].
Qed.

Lemma blob_iff_registered_witness :
  is_Some (registeredDebounces demo_saving !! 7)
  ↔ ∃ m a wt tok, Debounced 7 m a wt tok ∈ log demo_saving.
Proof.
  destruct (blob_iff_registered demo_saving 7) as (H & _).
  - exists demo_class, ProbeIgnoresOptions.
    apply rtc_once.
    apply (step_call (ADebounceTask 7 (VStr "save") [VNum 1] 100)).
  - exact H.
Defined.

(** C5, as the claim has it, fails twice.  After the owner's disposables
    have run, with no registration since, the blob is still in the debounce
    registry; and [removeEventListener] for an owner without any
    subscription puts a blob in the listener registry though nothing was
    ever registered. *)
Lemma blob_without_registration :
  (is_Some (registeredDebounces (exec (debouncesDisposable 7) demo_saving) !! 7)
   ∧ is_Some (registeredDebounces (exec (runDisposables 7) demo_saving) !! 7)
   ∧ log (exec (runDisposables 7) demo_saving) = log demo_saving)
  ∧ (eventListeners demo_world !! 7 = None
     ∧ log demo_world = []
     ∧ eventListeners
         (exec (removeEventListener 7 (VElement 1) (VStr "click") (VFun 1)
                  VUndefined) demo_world) !! 7
       = Some []).
Proof.
  split; split.
  - vm_compute. eauto.
  - split; [vm_compute; eauto|]. vm_compute. reflexivity.
  - reflexivity.
  - split; [reflexivity|]. vm_compute. reflexivity.
Qed.

(** * The event subscription ledger *)

(** C7. The capability flag is computed when the module is loaded and
    every later call reads that same value.  On a host without support both
    functions behave as if no options had been given: the event source is
    called with [undefined] in their place, and a call with a valid element
    returns normally whatever the options were. *)
Theorem unsupported_options_dropped class_of host w obj el ev cb opts :
  rtc Step (initial_world class_of host) w →
  PASSIVE_SUPPORTED w = detect_passive host
  ∧ (detect_passive host = false →
     addEventListener obj el ev cb opts w
     = addEventListener obj el ev cb VUndefined w
     ∧ removeEventListener obj el ev cb opts w
       = removeEventListener obj el ev cb VUndefined w
     ∧ (instanceof_Element el = true →
        (addEventListener obj el ev cb opts w).1 = Ok tt
        ∧ log (exec (addEventListener obj el ev cb opts) w)
          = log w ++ [DomAdd el ev (VBound (next_id w) obj cb) VUndefined]
        ∧ js_index (listeners_of (exec (addEventListener obj el ev cb opts) w) obj)
            (length (listeners_of w obj) + INDEX_OPTIONS)
          = VUndefined
        ∧ (removeEventListener obj el ev cb opts w).1 = Ok tt
        ∧ (log (exec (removeEventListener obj el ev cb opts) w) = log w
           ∨ ∃ callback,
               log (exec (removeEventListener obj el ev cb opts) w)
               = log w ++ [DomRemove el ev callback VUndefined]))).
Proof.
  intros Hs. pose proof (grows_passive _ _ (grows_rtc _ _ Hs)) as Hflag.
  simpl in Hflag. split; [done|]. intros Hno. rewrite Hno in Hflag.
  assert (Hadj : ∀ o, adjusted_options w o = VUndefined)
    by (intros o; unfold adjusted_options; by rewrite Hflag).
  destruct (instanceof_Element el) eqn:He.
  - unfold exec. rewrite !addEventListener_ok, !removeEventListener_ok by done.
    unfold listening_world, unlistened_world. rewrite !Hadj. simpl.
    split; [done|]. split; [done|]. intros _.
    split; [done|]. split; [done|]. split.
    { unfold listeners_of at 1. simpl. rewrite lookup_insert_eq. simpl.
      unfold js_index, INDEX_OPTIONS. rewrite lookup_app_r by lia.
      by replace (length (listeners_of w obj) + 4 - length (listeners_of w obj))
        with 4 by lia. }
    split; [done|].
    match goal with
    | |- context [find_listener ?a ?b ?c ?d ?e ?f] =>
        destruct (find_listener a b c d e f)
    end; simpl; [right; eauto|by left].
  - split; [|split; [|done]].
    + unfold addEventListener. munfold. rewrite He. by destruct (truthy el).
    + unfold removeEventListener. munfold. rewrite He. by destruct (truthy el).
Qed.

Lemma unsupported_options_dropped_witness :
  PASSIVE_SUPPORTED demo_saving = false
  ∧ addEventListener 7 (VElement 1) (VStr "scroll") (VFun 9) (VObj 3) demo_saving
    = addEventListener 7 (VElement 1) (VStr "scroll") (VFun 9) VUndefined
        demo_saving.
Proof.
  destruct (unsupported_options_dropped demo_class ProbeIgnoresOptions
              demo_saving 7 (VElement 1) (VStr "scroll") (VFun 9) (VObj 3))
    as [Hflag H].
  - apply rtc_once.
    apply (step_call (ADebounceTask 7 (VStr "save") [VNum 1] 100)).
  - split; [exact Hflag|]. apply H. reflexivity.
Defined.

(** ** Removal *)

Lemma flat_app ts1 ts2 : flat (ts1 ++ ts2) = flat ts1 ++ flat ts2.
Proof.
  induction ts1 as [|t ts1 IH]; simpl; [done|]. by rewrite IH.
Qed.

Lemma length_flat ts : length (flat ts) = length ts * LISTENER_ITEM_LENGTH.
Proof.
  induction ts as [|t ts IH]; simpl; [done|]. rewrite IH.
  unfold LISTENER_ITEM_LENGTH. lia.
Qed.

Lemma flat_unflat n l :
  length l = n * LISTENER_ITEM_LENGTH → flat (unflat l) = l.
Proof.
  unfold LISTENER_ITEM_LENGTH. revert l.
  induction n as [|n IH]; intros l Hlen.
  - by destruct l.
  - do 5 (destruct l as [|? l]; [simpl in Hlen; lia|]).
    simpl. do 5 f_equal. apply IH. simpl in Hlen. lia.
Qed.

(** In a reachable world every listener array is the layout of a sequence
    of records. *)
Lemma reachable_listeners_flat w obj l :
  reachable w → eventListeners w !! obj = Some l → flat (unflat l) = l.
Proof.
  intros Hr Hl. pose proof (inv_tuples _ (reachable_Inv _ Hr) _ _ Hl) as Hm.
  apply Nat.Div0.mod_divides in Hm as [c Hc].
  apply (flat_unflat c). unfold LISTENER_ITEM_LENGTH in *. lia.
Qed.

Lemma flat_index ts k t j :
  ts !! k = Some t → j < LISTENER_ITEM_LENGTH →
  js_index (flat ts) (k * LISTENER_ITEM_LENGTH + j) = js_index (slots t) j.
Proof.
  unfold LISTENER_ITEM_LENGTH, js_index. revert k.
  induction ts as [|x ts IH]; intros k Hk Hj; [done|].
  destruct k as [|k]; simpl in Hk.
  - simplify_eq. change (flat (t :: ts)) with (slots t ++ flat ts).
    rewrite lookup_app_l; [done|]. simpl. lia.
  - change (flat (x :: ts)) with (slots x ++ flat ts).
    rewrite lookup_app_r by (simpl; lia).
    replace (S k * 5 + j - length (slots x)) with (k * 5 + j) by (simpl; lia).
    by apply IH.
Qed.

Lemma listener_matches_flat ts k t el ev cb :
  ts !! k = Some t →
  listener_matches (flat ts) (k * LISTENER_ITEM_LENGTH) el ev cb
  = bool_decide (names el ev cb t).
Proof.
  intros Hk. unfold listener_matches, INDEX_ELEMENT, INDEX_EVENT_NAME,
    INDEX_ORIGINAL_CALLBACK.
  rewrite !(flat_index ts k t) by (done || unfold LISTENER_ITEM_LENGTH; lia).
  unfold js_index, strict_eq, names. simpl.
  repeat case_bool_decide; simpl; try done; exfalso; tauto.
Qed.

Lemma tuple_of_index ts i k :
  i = 0 + k * LISTENER_ITEM_LENGTH → i < length (flat ts) →
  ∃ t, ts !! k = Some t.
Proof.
  rewrite length_flat. unfold LISTENER_ITEM_LENGTH. intros -> Hlt.
  apply lookup_lt_is_Some. lia.
Qed.

Lemma find_listener_flat pre t post el ev cb :
  names el ev cb t → Forall (λ x, ¬ names el ev cb x) pre →
  find_listener (length (flat (pre ++ t :: post))) 0 (flat (pre ++ t :: post))
    el ev cb
  = Some (length pre * LISTENER_ITEM_LENGTH).
Proof.
  intros Ht Hpre. set (ts := pre ++ t :: post).
  assert (Hat : ts !! length pre = Some t).
  { unfold ts. rewrite lookup_app_r by lia. by rewrite Nat.sub_diag. }
  assert (Hhere : listener_matches (flat ts) (length pre * LISTENER_ITEM_LENGTH)
                    el ev cb = true).
  { rewrite (listener_matches_flat ts _ t) by done. by apply bool_decide_eq_true_2. }
  assert (Hlen : length pre * LISTENER_ITEM_LENGTH < length (flat ts)).
  { rewrite length_flat. unfold ts, LISTENER_ITEM_LENGTH.
    rewrite length_app. simpl. lia. }
  destruct (find_listener _ 0 (flat ts) el ev cb) as [i|] eqn:Hf.
  - apply find_listener_Some in Hf as ((k & Hk) & Hlt & Hm & Hbefore).
    destruct (tuple_of_index ts i k Hk Hlt) as [x Hx].
    simpl in Hk. subst i.
    destruct (Nat.lt_trichotomy k (length pre)) as [Hlt'|[->|Hgt]]; [|done|].
    + exfalso. rewrite (listener_matches_flat ts k x) in Hm by done.
      apply bool_decide_eq_true_1 in Hm.
      unfold ts in Hx. rewrite lookup_app_l in Hx by done.
      rewrite Forall_forall in Hpre. apply (Hpre x); [|done].
      by eapply list_elem_of_lookup_2.
    + exfalso.
      specialize (Hbefore (length pre)
                    ltac:(unfold LISTENER_ITEM_LENGTH; lia)).
      simpl in Hbefore. congruence.
  - exfalso.
    pose proof (find_listener_None (length (flat ts)) 0 (flat ts) el ev cb) as Hn.
    specialize (Hn ltac:(unfold LISTENER_ITEM_LENGTH; lia) Hf (length pre) Hlen).
    simpl in Hn. congruence.
Qed.

Lemma find_listener_flat_none ts el ev cb :
  Forall (λ x, ¬ names el ev cb x) ts →
  find_listener (length (flat ts)) 0 (flat ts) el ev cb = None.
Proof.
  intros Hts. destruct (find_listener _ 0 (flat ts) el ev cb) as [i|] eqn:Hf;
    [|done].
  exfalso. apply find_listener_Some in Hf as ((k & Hk) & Hlt & Hm & _).
  destruct (tuple_of_index ts i k Hk Hlt) as [x Hx]. simpl in Hk. subst i.
  rewrite (listener_matches_flat ts k x) in Hm by done.
  apply bool_decide_eq_true_1 in Hm. rewrite Forall_forall in Hts.
  apply (Hts x); [|done]. by eapply list_elem_of_lookup_2.
Qed.

Lemma splice_flat pre t post :
  splice (length pre * LISTENER_ITEM_LENGTH) LISTENER_ITEM_LENGTH
    (flat (pre ++ t :: post))
  = flat (pre ++ post).
Proof.
  unfold splice. rewrite !flat_app. simpl flat.
  rewrite <- length_flat.
  rewrite take_app_length. f_equal.
  rewrite drop_app_ge by lia.
  replace (length (flat pre) + LISTENER_ITEM_LENGTH - length (flat pre))
    with LISTENER_ITEM_LENGTH by lia.
  done.
Qed.

Lemma removeEventListener_found obj el ev cb opts w pre t post :
  eventListeners w !! obj = Some (flat (pre ++ t :: post)) →
  names el ev cb t → Forall (λ x, ¬ names el ev cb x) pre →
  instanceof_Element el = true →
  removeEventListener obj el ev cb opts w
  = (Ok tt,
     add_log (DomRemove el ev (l_callback t) (adjusted_options w opts))
       (set_eventListeners <[obj := flat (pre ++ post)]> w)).
Proof.
  intros Hl Ht Hpre He. rewrite removeEventListener_ok by done.
  unfold unlistened_world, listeners_of. rewrite Hl. simpl.
  rewrite find_listener_flat by done. rewrite splice_flat.
  assert (Hat : (pre ++ t :: post) !! length pre = Some t).
  { rewrite lookup_app_r by lia. by rewrite Nat.sub_diag. }
  rewrite (flat_index _ _ _ INDEX_CALLBACK Hat)
    by (unfold INDEX_CALLBACK, LISTENER_ITEM_LENGTH; lia).
  reflexivity.
Qed.

Lemma removeEventListener_not_found obj el ev cb opts w ts :
  eventListeners w !! obj = Some (flat ts) →
  Forall (λ x, ¬ names el ev cb x) ts →
  instanceof_Element el = true →
  removeEventListener obj el ev cb opts w = (Ok tt, w).
Proof.
  intros Hl Hts He. rewrite removeEventListener_ok by done.
  unfold unlistened_world, listeners_of, listeners_ledger. rewrite Hl. simpl.
  rewrite find_listener_flat_none by done.
  rewrite insert_id by done. by destruct w.
Qed.

Lemma first_named {A} (P : A → Prop) `{!∀ x, Decision (P x)} (l : list A) :
  Exists P l →
  ∃ pre t post, l = pre ++ t :: post ∧ P t ∧ Forall (λ x, ¬ P x) pre.
Proof.
  induction l as [|x l IH]; intros Hex; [by apply Exists_nil in Hex|].
  destruct (decide (P x)) as [Hx|Hx].
  - exists [], x, l. by repeat split.
  - apply Exists_cons in Hex as [?|Hex]; [done|].
    destruct (IH Hex) as (pre & t & post & -> & Ht & Hpre).
    exists (x :: pre), t, post. repeat split; [done|]. by constructor.
Qed.

Lemma listening_world_listeners obj el ev cb opts w ts :
  listeners_of w obj = flat ts →
  eventListeners (listening_world obj el ev cb opts w) !! obj
  = Some (flat (ts ++ [mkListener el ev (VBound (next_id w) obj cb) cb
                         (adjusted_options w opts)])).
Proof.
  intros Hl. simpl. rewrite lookup_insert_eq, Hl, flat_app. done.
Qed.

Lemma flat_nil_inv ts : flat ts = [] → ts = [].
Proof. by destruct ts. Qed.

Lemma listeners_of_Some w obj ts :
  listeners_of w obj = flat ts → ts ≠ [] →
  eventListeners w !! obj = Some (flat ts).
Proof.
  unfold listeners_of. destruct (eventListeners w !! obj); simpl.
  - by intros ->.
  - intros Hnil Hne. symmetry in Hnil. by apply flat_nil_inv in Hnil.
Qed.

Lemma removeEventListener_no_list obj el ev cb opts w :
  eventListeners w !! obj = None → instanceof_Element el = true →
  removeEventListener obj el ev cb opts w
  = (Ok tt,
     set_disposables
       (λ m, <[obj := default [] (m !! obj) ++ [EventListenersDisposable obj]]> m)
       (set_eventListeners <[obj := []]> w)).
Proof.
  intros Hl He. rewrite removeEventListener_ok by done.
  unfold unlistened_world, listeners_of, listeners_ledger. by rewrite Hl.
Qed.

(** C6, as the code has it.  [removeEventListener] finds in the owner's
    list the first tuple whose target, event name and original callback are
    the given ones, unregisters that tuple's wrapper from the target and
    drops that tuple, the others staying in order.  When no tuple matches
    it unregisters nothing and drops nothing, and for an owner that has a
    list it changes nothing at all.  Registering the same triple twice adds
    two tuples with different wrappers, and one removal takes one of the
    matching tuples away. *)
Theorem removeEventListener_removes_first obj el ev cb opts w ts :
  listeners_of w obj = flat ts →
  instanceof_Element el = true →
  (∀ pre t post,
     ts = pre ++ t :: post → names el ev cb t →
     Forall (λ x, ¬ names el ev cb x) pre →
     removeEventListener obj el ev cb opts w
     = (Ok tt,
        add_log (DomRemove el ev (l_callback t) (adjusted_options w opts))
          (set_eventListeners <[obj := flat (pre ++ post)]> w)))
  ∧ (Forall (λ x, ¬ names el ev cb x) ts →
     (removeEventListener obj el ev cb opts w).1 = Ok tt
     ∧ listeners_of (exec (removeEventListener obj el ev cb opts) w) obj
       = flat ts
     ∧ log (exec (removeEventListener obj el ev cb opts) w) = log w
     ∧ (is_Some (eventListeners w !! obj) →
        exec (removeEventListener obj el ev cb opts) w = w))
  ∧ (∀ opts1 opts2,
       let w2 := exec (addEventListener obj el ev cb opts2)
                   (exec (addEventListener obj el ev cb opts1) w) in
       let w3 := exec (removeEventListener obj el ev cb opts) w2 in
       (∃ t1 t2,
          eventListeners w2 !! obj = Some (flat (ts ++ [t1; t2]))
          ∧ names el ev cb t1 ∧ names el ev cb t2
          ∧ l_callback t1 ≠ l_callback t2)
       ∧ ∃ ts3,
           eventListeners w3 !! obj = Some (flat ts3)
           ∧ length ts3 = length ts + 1
           ∧ length (filter (names el ev cb) ts3)
             = length (filter (names el ev cb) ts) + 1).
Proof.
  intros Hl0 He. split; [|split].
  - intros pre t post -> Ht Hpre. apply removeEventListener_found; try done.
    apply listeners_of_Some; [done|]. by destruct pre.
  - intros Hts. destruct (eventListeners w !! obj) as [l|] eqn:Hl.
    + assert (Hl' : eventListeners w !! obj = Some (flat ts)).
      { rewrite Hl. f_equal. unfold listeners_of in Hl0. by rewrite Hl in Hl0. }
      unfold exec.
      rewrite (removeEventListener_not_found _ _ _ _ _ _ ts Hl' Hts He).
      by repeat split.
    + unfold exec. rewrite removeEventListener_no_list by done. simpl.
      split; [done|]. split.
      { unfold listeners_of in *. simpl. rewrite lookup_insert_eq.
        by rewrite Hl in Hl0. }
      split; [done|]. by intros [? ?].
  - intros opts1 opts2 w2 w3.
    set (t1 := mkListener el ev (VBound (next_id w) obj cb) cb
                 (adjusted_options w opts1)).
    set (w1 := listening_world obj el ev cb opts1 w).
    set (t2 := mkListener el ev (VBound (next_id w1) obj cb) cb
                 (adjusted_options w1 opts2)).
    assert (Hl1 : eventListeners w1 !! obj = Some (flat (ts ++ [t1])))
      by (by apply (listening_world_listeners obj el ev cb opts1 w ts)).
    assert (Hl2 : eventListeners w2 !! obj = Some (flat (ts ++ [t1; t2]))).
    { unfold w2, exec. rewrite (addEventListener_ok _ _ _ _ opts1) by done.
      cbn [snd]. rewrite addEventListener_ok by done. cbn [snd]. fold w1.
      rewrite (listening_world_listeners _ _ _ _ _ _ (ts ++ [t1])).
      - by rewrite <- app_assoc.
      - unfold listeners_of. by rewrite Hl1. }
    split.
    { exists t1, t2. split; [done|]. repeat split. simpl. intros [=]. lia. }
    assert (Hex : Exists (names el ev cb) (ts ++ [t1; t2])).
    { apply Exists_app. right. by left. }
    destruct (first_named _ _ Hex) as (pre & t & post & Heq & Ht & Hpre).
    exists (pre ++ post). split; [|split].
    + unfold w3, exec. rewrite Heq in Hl2.
      rewrite (removeEventListener_found _ _ _ _ _ _ _ _ _ Hl2 Ht Hpre He).
      simpl. by rewrite lookup_insert_eq.
    + apply (f_equal length) in Heq. rewrite !length_app in Heq. simpl in Heq.
      rewrite length_app. lia.
    + apply (f_equal (λ l, length (filter (names el ev cb) l))) in Heq.
      rewrite !filter_app, !length_app in Heq.
      rewrite (filter_cons_True _ t) in Heq by done.
      rewrite (filter_cons_True _ t1), (filter_cons_True _ t2) in Heq by done.
      simpl in Heq. rewrite filter_app, length_app. lia.
Qed.

Lemma removeEventListener_removes_first_witness :
  removeEventListener 7 (VElement 1) (VStr "click") (VFun 9) VUndefined
    demo_listening
  = (Ok tt,
     add_log (DomRemove (VElement 1) (VStr "click") (VBound 0 7 (VFun 9))
                VUndefined)
       (set_eventListeners <[7 := []]> demo_listening)).
Proof.
  destruct (removeEventListener_removes_first 7 (VElement 1) (VStr "click")
              (VFun 9) VUndefined demo_listening
              [mkListener (VElement 1) (VStr "click") (VBound 0 7 (VFun 9))
                 (VFun 9) VUndefined]) as (H & _ & _).
  - vm_compute. reflexivity.
  - reflexivity.
  - rewrite (H [] (mkListener (VElement 1) (VStr "click")
                       (VBound 0 7 (VFun 9)) (VFun 9) VUndefined) []).
    + reflexivity.
    + reflexivity.
    + repeat split.
    + constructor.
Defined.

(** C6, as the claim has it, fails for an owner without a subscription
    list: no tuple matches, yet the call is not a no-op, since it puts an
    empty list in the registry and records a teardown closure. *)
Lemma removeEventListener_not_noop :
  (removeEventListener 7 (VElement 1) (VStr "click") (VFun 9) VUndefined
     demo_world).1 = Ok tt
  ∧ eventListeners demo_world !! 7 = None
  ∧ disposables demo_world !! 7 = None
  ∧ eventListeners
      (exec (removeEventListener 7 (VElement 1) (VStr "click") (VFun 9)
               VUndefined) demo_world) !! 7 = Some []
  ∧ disposables
      (exec (removeEventListener 7 (VElement 1) (VStr "click") (VFun 9)
               VUndefined) demo_world) !! 7 = Some [EventListenersDisposable 7]
  ∧ exec (removeEventListener 7 (VElement 1) (VStr "click") (VFun 9)
            VUndefined) demo_world ≠ demo_world.
Proof.
  split; [reflexivity|]. split; [reflexivity|]. split; [reflexivity|].
  split; [by vm_compute|]. split; [by vm_compute|].
  intros Heq. apply (f_equal (λ w, eventListeners w !! 7)) in Heq.
  vm_compute in Heq. discriminate.
Qed.

(** C10. In every reachable world the array of an owner holds whole
    records: its length is a multiple of 5.  [addEventListener] appends the
    5 slots of one record, [removeEventListener] leaves the array alone or
    takes out the 5 slots of one record, starting at a record boundary, and
    every step keeps the lengths multiples of 5. *)
Theorem listener_array_keeps_tuples w obj el ev cb opts :
  reachable w →
  length (listeners_of w obj) `mod` LISTENER_ITEM_LENGTH = 0
  ∧ (instanceof_Element el = true →
     listeners_of (exec (addEventListener obj el ev cb opts) w) obj
     = listeners_of w obj
       ++ [el; ev; VBound (next_id w) obj cb; cb; adjusted_options w opts])
  ∧ (listeners_of (exec (removeEventListener obj el ev cb opts) w) obj
     = listeners_of w obj
     ∨ ∃ k,
         k * LISTENER_ITEM_LENGTH + LISTENER_ITEM_LENGTH
         ≤ length (listeners_of w obj)
         ∧ listeners_of (exec (removeEventListener obj el ev cb opts) w) obj
           = take (k * LISTENER_ITEM_LENGTH) (listeners_of w obj)
             ++ drop (k * LISTENER_ITEM_LENGTH + LISTENER_ITEM_LENGTH)
                  (listeners_of w obj))
  ∧ (∀ w' o, Step w w' →
       length (listeners_of w' o) `mod` LISTENER_ITEM_LENGTH = 0).
Proof.
  intros Hr. pose proof (reachable_Inv _ Hr) as HI.
  assert (Hmod : ∀ w o, Inv w →
            length (listeners_of w o) `mod` LISTENER_ITEM_LENGTH = 0).
  { intros w0 o HI0. unfold listeners_of.
    destruct (eventListeners w0 !! o) eqn:Hl; [|done].
    by apply (inv_tuples _ HI0 o). }
  split; [by apply Hmod|]. split; [|split].
  - intros He. unfold exec. rewrite addEventListener_ok by done.
    unfold listeners_of at 1. simpl. by rewrite lookup_insert_eq.
  - destruct (instanceof_Element el) eqn:He.
    + unfold exec. rewrite removeEventListener_ok by done.
      unfold unlistened_world.
      destruct (find_listener _ _ _ _ _ _) as [i|] eqn:Hf.
      * right. apply find_listener_Some in Hf as ((k & Hk) & Hlt & _).
        simpl in Hk. subst i. exists k. split.
        -- apply tuple_fits; [by apply Hmod|by exists k|done].
        -- unfold listeners_of at 1. simpl. by rewrite lookup_insert_eq.
      * left. unfold listeners_of at 1. simpl. by rewrite lookup_insert_eq.
    + left. destruct (removeEventListener_fails obj el ev cb opts w He)
        as [msg Hm]. unfold exec. by rewrite Hm.
  - intros w' o Hs. apply Hmod. by apply (Inv_Step w).
Qed.

Lemma listener_array_keeps_tuples_witness :
  length (listeners_of demo_saving 7) `mod` LISTENER_ITEM_LENGTH = 0
  ∧ listeners_of
      (exec (addEventListener 7 (VElement 1) (VStr "click") (VFun 9) VUndefined)
         demo_saving) 7
    = [VElement 1; VStr "click"; VBound 2 7 (VFun 9); VFun 9; VUndefined].
Proof.
  destruct (listener_array_keeps_tuples demo_saving 7 (VElement 1)
              (VStr "click") (VFun 9) VUndefined) as (Hm & Ha & _).
  - exists demo_class, ProbeIgnoresOptions.
    apply rtc_once.
    apply (step_call (ADebounceTask 7 (VStr "save") [VNum 1] 100)).
  - split; [exact Hm|]. apply Ha. reflexivity.
Defined.

(** * Further properties *)

Global Instance tidy_step_refl : Reflexive tidy_step.
Proof. intros w HT. exact HT. Qed.

Global Instance tidy_step_trans : Transitive tidy_step.
Proof. intros w1 w2 w3 H1 H2 HT. by apply H2, H1. Qed.

Lemma unflat_flat ts : unflat (flat ts) = ts.
Proof.
  induction ts as [|[a b c d e] ts IH]; simpl; [done|]. by rewrite IH.
Qed.

Lemma Tidy_frame w w' :
  next_id w ≤ next_id w' →
  registeredDebounces w' = registeredDebounces w →
  eventListeners w' = eventListeners w →
  disposables w' = disposables w →
  tidy_step w w'.
Proof.
  intros Hn Hr He Hd [Hl [Hb Hi] Hg]. split.
  - intros obj l. rewrite He. apply Hl.
  - unfold tokens_ok, blob_of in *. rewrite Hr. split; [|done].
    intros obj name p Hp. apply Hb in Hp. lia.
  - intros obj ds. rewrite Hd, Hr, He. apply Hg.
Qed.

Lemma Tidy_initial class_of host : Tidy (initial_world class_of host).
Proof.
  split.
  - intros obj l. simpl. by rewrite lookup_empty.
  - split; intros obj name p; unfold blob_of; simpl; by rewrite lookup_empty.
  - intros obj ds. simpl. by rewrite lookup_empty.
Qed.

Lemma Tidy_debounced_world obj name args wait w :
  tidy_step w (debounced_world obj name args wait w).
Proof.
  intros [Hl [Hb Hi] Hg]. pose proof (token_for_ge w obj name) as Hge.
  pose proof (blob_of_debounced_world obj name args wait w) as Hlook.
  destruct (keeps_blobs_debounced_world obj name args wait w) as [Hkeep _].
  assert (Hnew : is_Some (registeredDebounces
                            (debounced_world obj name args wait w) !! obj)).
  { simpl. destruct (assignable _); rewrite lookup_insert_eq; eauto. }
  set (w' := debounced_world obj name args wait w) in *.
  split.
  - exact Hl.
  - split.
    + intros o n p. rewrite Hlook.
      destruct (decide (o = obj ∧ n = name ∧ _));
        [intros [= <-]; simpl; lia|].
      intros Hp. apply Hb in Hp. simpl. lia.
    + intros o n p o' n' p'. rewrite !Hlook.
      destruct (decide (o = obj ∧ n = name ∧ _)) as [(-> & -> & _)|?];
        destruct (decide (o' = obj ∧ n' = name ∧ _)) as [(-> & -> & _)|?];
        intros Hp Hp' Heq; simplify_eq; simpl in *.
      * done.
      * apply Hb in Hp'. lia.
      * apply Hb in Hp. lia.
      * by eapply Hi.
  - intros o ds Hds. unfold w' in Hds. simpl in Hds.
    change (eventListeners w') with (eventListeners w).
    destruct (registeredDebounces w !! obj) as [blob|] eqn:Hb'.
    + destruct (Hg o ds Hds) as [Hnd Hall]. split; [done|].
      intros d Hd. destruct (Hall d Hd) as [[-> ?]|[-> ?]]; [left|right]; auto.
    + destruct (decide (o = obj)) as [->|Ho].
      * rewrite lookup_insert_eq in Hds. simplify_eq.
        assert (Hold : NoDup (default [] (disposables w !! obj))
                  ∧ ∀ d, d ∈ default [] (disposables w !! obj) →
                      d = EventListenersDisposable obj
                      ∧ is_Some (eventListeners w !! obj)).
        { destruct (disposables w !! obj) as [ds|] eqn:Hds; simpl.
          - destruct (Hg obj ds Hds) as [Hnd Hall]. split; [done|].
            intros d Hd. destruct (Hall d Hd) as [[-> [? ?]]|?]; [|done].
            congruence.
          - split; [constructor|]. intros d Hd. by apply elem_of_nil in Hd. }
        destruct Hold as [Hnd Hall]. split.
        -- apply NoDup_app. split; [done|]. split; [|apply NoDup_singleton].
           intros d Hd Hin. apply list_elem_of_singleton in Hin.
           destruct (Hall d Hd) as [-> _]. discriminate.
        -- intros d Hd. apply elem_of_app in Hd as [Hd|Hd].
           ++ right. by apply Hall.
           ++ apply list_elem_of_singleton in Hd. left. by split.
      * rewrite lookup_insert_ne in Hds by done.
        destruct (Hg o ds Hds) as [Hnd Hall]. split; [done|].
        intros d Hd. destruct (Hall d Hd) as [[-> ?]|[-> ?]]; [left|right]; auto.
Qed.

Lemma Tidy_drop obj name blob (P : Timer → Prop) `{!∀ t, Decision (P t)} w :
  registeredDebounces w !! obj = Some blob →
  tidy_step w (set_timers (filter P)
                 (set_registeredDebounces <[obj := delete name blob]> w)).
Proof.
  intros Hb' [Hl [Hb Hi] Hg].
  assert (Hsub : ∀ o n p,
    blob_of (set_timers (filter P)
      (set_registeredDebounces <[obj := delete name blob]> w)) o !! n = Some p →
    blob_of w o !! n = Some p).
  { intros o n p. unfold blob_of. simpl.
    destruct (decide (o = obj)) as [->|Ho].
    - rewrite lookup_insert_eq, Hb'. simpl.
      destruct (decide (n = name)) as [->|Hn].
      + by rewrite lookup_delete_eq.
      + by rewrite lookup_delete_ne.
    - by rewrite lookup_insert_ne. }
  split.
  - exact Hl.
  - split.
    + intros o n p Hp. apply Hsub in Hp. by apply Hb in Hp.
    + intros o n p o' n' p' Hp Hp'. apply Hsub in Hp, Hp'. by eapply Hi.
  - intros o ds Hds. simpl in *. destruct (Hg o ds Hds) as [Hnd Hall].
    split; [done|]. intros d Hd.
    destruct (Hall d Hd) as [[-> ?]|[-> ?]]; [left|right]; split; try done.
    apply lookup_insert_is_Some'. by right.
Qed.

Lemma listeners_of_flat w obj :
  listeners_ok w →
  listeners_of w obj = flat (unflat (listeners_of w obj))
  ∧ Forall (listener_ok obj) (unflat (listeners_of w obj)).
Proof.
  intros Hl. unfold listeners_of.
  destruct (eventListeners w !! obj) as [l|] eqn:He; simpl.
  - destruct (Hl obj l He) as [Hf Hok]. by rewrite Hf.
  - split; [done|constructor].
Qed.

Lemma ledger_listeners w obj l :
  ledger_ok w →
  ∀ o ds',
    listeners_ledger w obj !! o = Some ds' →
    NoDup ds'
    ∧ ∀ d, d ∈ ds' →
        (d = DebouncesDisposable o ∧ is_Some (registeredDebounces w !! o))
        ∨ (d = EventListenersDisposable o
           ∧ is_Some (<[obj := l]> (eventListeners w) !! o)).
Proof.
  intros Hg o ds'. unfold listeners_ledger.
  assert (Hmono : ∀ o', is_Some (eventListeners w !! o') →
            is_Some (<[obj := l]> (eventListeners w) !! o')).
  { intros o' Ho'. apply lookup_insert_is_Some'. by right. }
  destruct (eventListeners w !! obj) as [l0|] eqn:He.
  - intros Hds. destruct (Hg o ds' Hds) as [Hnd Hall]. split; [done|].
    intros d Hd. destruct (Hall d Hd) as [[-> ?]|[-> ?]]; [left|right]; auto.
  - destruct (decide (o = obj)) as [->|Ho].
    + rewrite lookup_insert_eq. intros [= <-].
      assert (Hold : NoDup (default [] (disposables w !! obj))
                ∧ ∀ d, d ∈ default [] (disposables w !! obj) →
                    d = DebouncesDisposable obj
                    ∧ is_Some (registeredDebounces w !! obj)).
      { destruct (disposables w !! obj) as [ds|] eqn:Hds; simpl.
        - destruct (Hg obj ds Hds) as [Hnd Hall]. split; [done|].
          intros d Hd. destruct (Hall d Hd) as [?|[-> [? ?]]]; [done|].
          congruence.
        - split; [constructor|]. intros d Hd. by apply elem_of_nil in Hd. }
      destruct Hold as [Hnd Hall]. split.
      * apply NoDup_app. split; [done|]. split; [|apply NoDup_singleton].
        intros d Hd Hin. apply list_elem_of_singleton in Hin.
        destruct (Hall d Hd) as [-> _]. discriminate.
      * intros d Hd. apply elem_of_app in Hd as [Hd|Hd].
        -- left. by apply Hall.
        -- apply list_elem_of_singleton in Hd. right. split; [done|].
           rewrite lookup_insert_eq. eauto.
    + rewrite lookup_insert_ne by done. intros Hds.
      destruct (Hg o ds' Hds) as [Hnd Hall]. split; [done|].
      intros d Hd. destruct (Hall d Hd) as [[-> ?]|[-> ?]]; [left|right]; auto.
Qed.

Lemma Tidy_listening_world obj el ev cb opts w :
  instanceof_Element el = true →
  tidy_step w (listening_world obj el ev cb opts w).
Proof.
  intros He [Hl [Hb Hi] Hg]. split.
  - intros o l. simpl. destruct (decide (o = obj)) as [->|Ho].
    + rewrite lookup_insert_eq. intros [= <-].
      destruct (listeners_of_flat w obj Hl) as [Hf Hok].
      set (t := mkListener el ev (VBound (next_id w) obj cb) cb
                  (adjusted_options w opts)).
      change [el; ev; VBound (next_id w) obj cb; cb; adjusted_options w opts]
        with (flat [t]).
      rewrite Hf at 1 2 3. rewrite <- flat_app, unflat_flat. split; [done|].
      apply Forall_app. split; [done|]. constructor; [|constructor].
      split; [done|]. by exists (next_id w).
    + rewrite lookup_insert_ne by done. apply Hl.
  - split; [|exact Hi]. intros o n p Hp. apply Hb in Hp. simpl. lia.
  - intros o ds Hds. simpl in *. by eapply ledger_listeners.
Qed.

Lemma Tidy_unlistened_world obj el ev cb opts w :
  tidy_step w (unlistened_world obj el ev cb opts w).
Proof.
  intros [Hl [Hb Hi] Hg].
  destruct (listeners_of_flat w obj Hl) as [Hf Hok].
  set (ts := unflat (listeners_of w obj)) in *.
  unfold unlistened_world. rewrite Hf.
  destruct (decide (Exists (names el ev cb) ts)) as [Hex|Hno].
  - destruct (first_named _ _ Hex) as (pre & t & post & Heq & Ht & Hpre).
    rewrite Heq, find_listener_flat, splice_flat by done. split.
    + intros o l. simpl. destruct (decide (o = obj)) as [->|Ho].
      * rewrite lookup_insert_eq. intros [= <-]. rewrite unflat_flat.
        split; [done|]. rewrite Heq in Hok.
        apply Forall_app in Hok as [Hpre' Hpost]. apply Forall_cons in Hpost as [_ Hpost].
        apply Forall_app. by split.
      * rewrite lookup_insert_ne by done. apply Hl.
    + done.
    + intros o ds Hds. simpl in *. destruct (Hg o ds Hds) as [Hnd Hall].
      split; [done|]. intros d Hd.
      destruct (Hall d Hd) as [[-> ?]|[-> ?]]; [left|right]; split; try done.
      apply lookup_insert_is_Some'. by right.
  - apply not_Exists_Forall in Hno; [|apply _].
    rewrite find_listener_flat_none by done. split.
    + intros o l. simpl. destruct (decide (o = obj)) as [->|Ho].
      * rewrite lookup_insert_eq. intros [= <-]. by rewrite unflat_flat.
      * rewrite lookup_insert_ne by done. apply Hl.
    + done.
    + intros o ds Hds. simpl in *. by eapply ledger_listeners.
Qed.

Lemma tidy_modify_frame (f : World → World) :
  (∀ w, next_id w ≤ next_id (f w)) →
  (∀ w, registeredDebounces (f w) = registeredDebounces w) →
  (∀ w, eventListeners (f w) = eventListeners w) →
  (∀ w, disposables (f w) = disposables w) →
  respects tidy_step (modify f).
Proof. intros ???? w. by apply Tidy_frame. Qed.

Lemma tidy_debounceTask obj name args wait :
  respects tidy_step (debounceTask obj name args wait).
Proof.
  intros w.
  destruct (debounceTask_cases obj name args wait w) as [->|(s & _ & _ & ->)];
    [done|]. apply Tidy_debounced_world.
Qed.

Lemma tidy_cancelDebounce obj name : respects tidy_step (cancelDebounce obj name).
Proof.
  intros w. destruct (blob_of w obj !! name) as [p|] eqn:Hp.
  - destruct (blob_of_lookup _ _ _ _ Hp) as [blob Hb].
    rewrite (blob_of_Some _ _ _ Hb) in Hp.
    unfold exec. rewrite (cancelDebounce_present _ _ _ _ _ Hb Hp).
    by apply Tidy_drop.
  - unfold exec. by rewrite cancelDebounce_absent.
Qed.

Lemma tidy_addEventListener obj el ev cb opts :
  respects tidy_step (addEventListener obj el ev cb opts).
Proof.
  intros w. destruct (instanceof_Element el) eqn:He.
  - unfold exec. rewrite addEventListener_ok by done.
    by apply Tidy_listening_world.
  - destruct (addEventListener_fails obj el ev cb opts w He) as [msg Hm].
    unfold exec. by rewrite Hm.
Qed.

Lemma tidy_removeEventListener obj el ev cb opts :
  respects tidy_step (removeEventListener obj el ev cb opts).
Proof.
  intros w. destruct (instanceof_Element el) eqn:He.
  - unfold exec. rewrite removeEventListener_ok by done.
    apply Tidy_unlistened_world.
  - destruct (removeEventListener_fails obj el ev cb opts w He) as [msg Hm].
    unfold exec. by rewrite Hm.
Qed.

Lemma tidy_cancel_each blob names : respects tidy_step (cancel_each blob names).
Proof.
  induction names as [|n names IH]; simpl; [apply respects_ret, _|].
  apply respects_bind; [apply _| |done].
  destruct (blob !! n); [|apply respects_throw, _].
  by apply tidy_modify_frame.
Qed.

Lemma tidy_debouncesDisposable obj : respects tidy_step (debouncesDisposable obj).
Proof.
  unfold debouncesDisposable.
  apply respects_bind; [apply _|apply respects_get, _|].
  intros w. destruct (registeredDebounces w !! obj); [|apply respects_ret, _].
  case_bool_decide; [apply respects_ret, _|apply tidy_cancel_each].
Qed.

Lemma tidy_remove_each fuel i l : respects tidy_step (remove_each fuel i l).
Proof.
  revert i. induction fuel as [|fuel IH]; intros i; simpl;
    [apply respects_ret, _|].
  case_decide; [|apply respects_ret, _].
  apply respects_bind; [apply _| |done].
  unfold element_removeEventListener.
  destruct (instanceof_Element _); [|apply respects_throw, _].
  by apply tidy_modify_frame.
Qed.

Lemma tidy_eventListenersDisposable obj :
  respects tidy_step (eventListenersDisposable obj).
Proof.
  unfold eventListenersDisposable.
  apply respects_bind; [apply _|apply respects_get, _|].
  intros w. case_bool_decide; [apply respects_ret, _|].
  apply respects_bind; [apply _|apply tidy_remove_each|].
  intros _. by apply tidy_modify_frame.
Qed.

Lemma tidy_run_each ds : respects tidy_step (run_each ds).
Proof.
  induction ds as [|d ds IH]; simpl; [apply respects_ret, _|].
  apply respects_bind; [apply _| |done].
  destruct d; [apply tidy_debouncesDisposable
              |apply tidy_eventListenersDisposable].
Qed.

Lemma Tidy_forget obj w : tidy_step w (set_disposables (delete obj) w).
Proof.
  intros [Hl Hb Hg]. split; [done..|].
  intros o ds. simpl. destruct (decide (o = obj)) as [->|Ho].
  - by rewrite lookup_delete_eq.
  - rewrite lookup_delete_ne by done. apply Hg.
Qed.

Lemma tidy_runDisposables obj : respects tidy_step (runDisposables obj).
Proof.
  unfold runDisposables.
  apply respects_bind; [apply _|apply respects_get, _|].
  intros w. destruct (disposables w !! obj); [|apply respects_ret, _].
  apply respects_bind; [apply _| |intros _; apply tidy_run_each].
  intros w'. apply Tidy_forget.
Qed.

Lemma tidy_exec_action a : respects tidy_step (exec_action a).
Proof.
  destruct a; simpl.
  - apply tidy_debounceTask.
  - apply tidy_cancelDebounce.
  - apply tidy_addEventListener.
  - apply tidy_removeEventListener.
  - apply tidy_runDisposables.
Qed.

Lemma tidy_run_actions body : respects tidy_step (run_actions body).
Proof.
  induction body as [|a body IH]; simpl; [apply respects_ret, _|].
  apply respects_bind; [apply _|apply tidy_exec_action|done].
Qed.

Lemma tidy_call_method obj name args :
  respects tidy_step (call_method obj name args).
Proof.
  unfold call_method.
  apply respects_bind; [apply _|apply respects_get, _|].
  intros w. destruct (methods w obj name); [|apply respects_throw, _].
  apply respects_bind; [apply _|by apply tidy_modify_frame|].
  intros _. apply tidy_run_actions.
Qed.

Lemma tidy_delete_entry obj name : respects tidy_step (delete_entry obj name).
Proof.
  intros w. unfold exec, delete_entry, modify. simpl.
  destruct (registeredDebounces w !! obj) as [blob|] eqn:Hb.
  - etrans; [apply (Tidy_drop _ name blob (λ _, True) w Hb)|].
    apply Tidy_frame; simpl; try done. by rewrite Hb.
  - apply Tidy_frame; simpl; try done. by rewrite Hb.
Qed.

Lemma tidy_fire t : respects tidy_step (fire t).
Proof.
  unfold fire.
  apply respects_bind; [apply _|by apply tidy_modify_frame|].
  intros _. destruct (t_method t) as [wr|]; [|apply respects_throw, _].
  unfold call_wrapper.
  apply respects_bind;
    [apply _|apply tidy_delete_entry|intros _; apply tidy_call_method].
Qed.

Lemma tidy_run_due w : tidy_step w (run_due w).
Proof.
  unfold run_due. generalize (filter (λ t, t_due t ≤ now w) (timers w)).
  intros due. revert w. induction due as [|t due IH]; intros w; simpl; [done|].
  etrans; [|apply IH]. case_bool_decide; [apply tidy_fire|done].
Qed.

Lemma tidy_Step w w' : Step w w' → tidy_step w w'.
Proof.
  intros [a ?|dt ?|obj ?].
  - apply tidy_exec_action.
  - unfold elapse. etrans; [|apply tidy_run_due]. by apply Tidy_frame.
  - by apply Tidy_frame.
Qed.

Lemma reachable_Tidy w : reachable w → Tidy w.
Proof.
  intros (class_of & host & Hr).
  apply (rtc_ind_r (R := Step) (λ w, Tidy w) (initial_world class_of host));
    [apply Tidy_initial| |exact Hr].
  intros y z _ Hs IH. by apply (tidy_Step y).
Qed.

(** ** The teardown closure of the listener registry *)

Lemma add_logs_nil w : add_logs [] w = w.
Proof. destruct w. unfold add_logs. simpl. by rewrite app_nil_r. Qed.

Lemma add_logs_cons e events w :
  add_logs events (add_log e w) = add_logs (e :: events) w.
Proof. unfold add_logs, add_log. simpl. by rewrite <- app_assoc. Qed.

Lemma remove_each_flat pre ts fuel w :
  length ts ≤ fuel →
  Forall (λ t, instanceof_Element (l_element t) = true) ts →
  remove_each fuel (length pre * LISTENER_ITEM_LENGTH) (flat (pre ++ ts)) w
  = (Ok tt, add_logs (detach <$> ts) w).
Proof.
  revert pre fuel w. induction ts as [|t ts IH]; intros pre fuel w Hfuel Hel.
  - rewrite app_nil_r. simpl. rewrite add_logs_nil.
    destruct fuel as [|fuel]; simpl; [done|].
    rewrite length_flat. case_decide; [lia|done].
  - destruct fuel as [|fuel]; simpl in Hfuel; [lia|].
    apply Forall_cons in Hel as [Ht Hel]. simpl.
    assert (Hat : (pre ++ t :: ts) !! length pre = Some t).
    { rewrite lookup_app_r by lia. by rewrite Nat.sub_diag. }
    case_decide as Hlt.
    + rewrite !(flat_index _ _ _ _ Hat)
        by (unfold INDEX_ELEMENT, INDEX_EVENT_NAME, INDEX_CALLBACK,
              INDEX_OPTIONS, LISTENER_ITEM_LENGTH; lia).
      unfold js_index, INDEX_ELEMENT, INDEX_EVENT_NAME, INDEX_CALLBACK,
        INDEX_OPTIONS. simpl.
      unfold element_removeEventListener. rewrite Ht. munfold.
      replace (length pre * LISTENER_ITEM_LENGTH + LISTENER_ITEM_LENGTH)
        with (length (pre ++ [t]) * LISTENER_ITEM_LENGTH)
        by (rewrite length_app; simpl; lia).
      replace (pre ++ t :: ts) with ((pre ++ [t]) ++ ts)
        by (by rewrite <- app_assoc).
      rewrite IH by (done || lia). by rewrite add_logs_cons.
    + exfalso. apply Hlt. rewrite length_flat, length_app. simpl.
      unfold LISTENER_ITEM_LENGTH. lia.
Qed.

Lemma listeners_elements obj ts :
  Forall (listener_ok obj) ts →
  Forall (λ t, instanceof_Element (l_element t) = true) ts.
Proof. intros H. eapply Forall_impl; [exact H|]. by intros t [? _]. Qed.

Lemma eventListenersDisposable_ok obj w l :
  listeners_ok w → eventListeners w !! obj = Some l →
  obj ∉ listenersDisposed w →
  eventListenersDisposable obj w
  = (Ok tt,
     set_listenersDisposed (union {[obj]}) (add_logs (detach <$> unflat l) w)).
Proof.
  intros Hok Hl Hd. destruct (Hok obj l Hl) as [Hf Hts].
  unfold eventListenersDisposable. munfold.
  rewrite (bool_decide_eq_false_2 _ Hd), Hl. simpl.
  pose proof (remove_each_flat [] (unflat l) (length l) w) as Hr.
  simpl in Hr. rewrite Hf in Hr. rewrite Hr; [done| |by eapply listeners_elements].
  rewrite <- Hf at 2. rewrite length_flat. unfold LISTENER_ITEM_LENGTH. lia.
Qed.

Lemma eventListenersDisposable_spent obj w :
  obj ∈ listenersDisposed w → eventListenersDisposable obj w = (Ok tt, w).
Proof.
  intros Hd. unfold eventListenersDisposable. munfold.
  by rewrite (bool_decide_eq_true_2 _ Hd).
Qed.

(** X1. In every reachable world each record of an owner's array has an
    element as its target and, as its dispatch callback, a function bound
    to that owner around the record's original callback. *)
Theorem listener_records_wellformed w obj l :
  reachable w → eventListeners w !! obj = Some l →
  ∃ ts, l = flat ts
        ∧ Forall (λ t, instanceof_Element (l_element t) = true
                       ∧ ∃ id, l_callback t = VBound id obj (l_original t)) ts.
Proof.
  intros Hr Hl. destruct (tidy_listeners _ (reachable_Tidy _ Hr) obj l Hl)
    as [Hf Hok].
  exists (unflat l). by split.
Qed.

Lemma reachable_demo_listening_twice : reachable demo_listening_twice.
Proof.
  exists demo_class, ProbeIgnoresOptions.
  eapply rtc_l;
    [apply (step_call (AAddEventListener 7 (VElement 1) (VStr "click") (VFun 9)
                         VUndefined))|].
  apply rtc_once.
  apply (step_call (AAddEventListener 7 (VElement 1) (VStr "keydown") (VFun 5)
                      VUndefined)).
Qed.

Lemma listener_records_wellformed_witness :
  ∃ ts,
    [VElement 1; VStr "click"; VBound 0 7 (VFun 9); VFun 9; VUndefined;
     VElement 1; VStr "keydown"; VBound 1 7 (VFun 5); VFun 5; VUndefined]
    = flat ts
    ∧ Forall (λ t, instanceof_Element (l_element t) = true
                   ∧ ∃ id, l_callback t = VBound id 7 (l_original t)) ts.
Proof.
  apply (listener_records_wellformed demo_listening_twice 7).
  - apply reachable_demo_listening_twice.
  - vm_compute. reflexivity.
Defined.

(** X2. The teardown closure of the listener registry, run for the first
    time, returns normally after one [removeEventListener] call per record
    of the owner's array, in the order of registration, each with the
    record's element, event name, wrapper and stored options; it marks
    itself as spent and leaves the array and everything else as it is. *)
Theorem listeners_teardown obj w l :
  listeners_ok w → eventListeners w !! obj = Some l →
  obj ∉ listenersDisposed w →
  (eventListenersDisposable obj w).1 = Ok tt
  ∧ log (exec (eventListenersDisposable obj) w)
    = log w ++ (detach <$> unflat l)
  ∧ obj ∈ listenersDisposed (exec (eventListenersDisposable obj) w)
  ∧ eventListeners (exec (eventListenersDisposable obj) w) = eventListeners w
  ∧ timers (exec (eventListenersDisposable obj) w) = timers w
  ∧ registeredDebounces (exec (eventListenersDisposable obj) w)
    = registeredDebounces w
  ∧ disposables (exec (eventListenersDisposable obj) w) = disposables w.
Proof.
  intros Hok Hl Hd. unfold exec.
  rewrite (eventListenersDisposable_ok _ _ _ Hok Hl Hd). simpl.
  repeat split. set_solver.
Qed.

Lemma listeners_teardown_witness :
  (eventListenersDisposable 7 demo_listening_twice).1 = Ok tt
  ∧ log (exec (eventListenersDisposable 7) demo_listening_twice)
    = log demo_listening_twice
      ++ [DomRemove (VElement 1) (VStr "click") (VBound 0 7 (VFun 9)) VUndefined;
          DomRemove (VElement 1) (VStr "keydown") (VBound 1 7 (VFun 5))
            VUndefined].
Proof.
  destruct (listeners_teardown 7 demo_listening_twice
           [VElement 1; VStr "click"; VBound 0 7 (VFun 9); VFun 9; VUndefined;
            VElement 1; VStr "keydown"; VBound 1 7 (VFun 5); VFun 5; VUndefined])
    as (Hok & Hlog & _).
  - apply tidy_listeners, reachable_Tidy, reachable_demo_listening_twice.
  - vm_compute. reflexivity.
  - apply (bool_decide_unpack _). vm_compute. exact I.
  - split; [exact Hok|exact Hlog].
Defined.

(** X3. The closure is spent after its first run: a listener the owner adds
    afterwards is attached, no new teardown closure is recorded for it, and
    running the closure again detaches nothing and changes nothing. *)
Theorem listeners_teardown_one_shot obj el ev cb opts w l :
  listeners_ok w → eventListeners w !! obj = Some l →
  obj ∉ listenersDisposed w → instanceof_Element el = true →
  let w1 := exec (eventListenersDisposable obj) w in
  let w2 := exec (addEventListener obj el ev cb opts) w1 in
  eventListenersDisposable obj w2 = (Ok tt, w2)
  ∧ disposables w2 = disposables w
  ∧ log w2 = log w ++ (detach <$> unflat l)
             ++ [DomAdd el ev (VBound (next_id w) obj cb)
                   (adjusted_options w opts)].
Proof.
  intros Hok Hl Hd He w1 w2. unfold w2, w1, exec.
  rewrite (eventListenersDisposable_ok _ _ _ Hok Hl Hd). cbn [snd].
  rewrite addEventListener_ok by done. cbn [snd]. split; [|split].
  - apply eventListenersDisposable_spent. simpl. set_solver.
  - unfold listening_world, listeners_ledger. simpl. by rewrite Hl.
  - unfold listening_world, adjusted_options. simpl. by rewrite <- app_assoc.
Qed.

Lemma listeners_teardown_one_shot_witness :
  eventListenersDisposable 7
    (exec (addEventListener 7 (VElement 2) (VStr "scroll") (VFun 6) VUndefined)
       (exec (eventListenersDisposable 7) demo_listening_twice))
  = (Ok tt,
     exec (addEventListener 7 (VElement 2) (VStr "scroll") (VFun 6) VUndefined)
       (exec (eventListenersDisposable 7) demo_listening_twice)).
Proof.
  destruct (listeners_teardown_one_shot 7 (VElement 2) (VStr "scroll") (VFun 6)
              VUndefined demo_listening_twice
              [VElement 1; VStr "click"; VBound 0 7 (VFun 9); VFun 9; VUndefined;
               VElement 1; VStr "keydown"; VBound 1 7 (VFun 5); VFun 5;
               VUndefined]) as (H & _).
  - apply tidy_listeners, reachable_Tidy, reachable_demo_listening_twice.
  - vm_compute. reflexivity.
  - apply (bool_decide_unpack _). vm_compute. exact I.
  - reflexivity.
  - exact H.
Defined.

(** ** Isolation of debounced tasks *)

Lemma reachable_demo_both : reachable demo_both.
Proof.
  exists demo_class, ProbeIgnoresOptions.
  eapply rtc_l;
    [apply (step_call (ADebounceTask 7 (VStr "save") [VNum 1] 100))|].
  apply rtc_once.
  apply (step_call (ADebounceTask 8 (VStr "poll") [VNum 2] 40)).
Qed.

(** X4. [debounceTask] for one task of one owner, under a name that the
    blob does not inherit as a function, leaves everything else alone
    whether the call returns or throws: the entry of every other pair of
    owner and name stays as it is, and so does every timer of the queue
    that is not a timer of this task. *)
Theorem debounceTask_isolation obj name args wait w :
  Inv w → inherited name ≠ Some InheritedMethod →
  (∀ obj' name', ¬ (obj' = obj ∧ name' = name) →
     blob_of (exec (debounceTask obj (VStr name) args wait) w) obj' !! name'
     = blob_of w obj' !! name')
  ∧ (∀ t, ¬ pending_for obj name t →
       (t ∈ timers (exec (debounceTask obj (VStr name) args wait) w)
        ↔ t ∈ timers w)).
Proof.
  intros HI Hnm.
  destruct (debounceTask_cases obj (VStr name) args wait w)
    as [->|(s & Hs & Hm & ->)]; [done|].
  injection Hs as <-.
  pose proof (task_not_proto w obj name HI Hm) as Hnp.
  destruct (debounce_plan w obj name HI Hnp) as [_ Hplan].
  destruct (wrapper_for w obj name) as [wr|] eqn:Hw; [|by destruct Hplan].
  destruct Hplan as (Ho & Hn & _).
  split.
  - intros obj' name' Hne. rewrite blob_of_debounced_world.
    rewrite decide_False; [done|]. intros (? & ? & _). by apply Hne.
  - intros t Hnot. simpl. rewrite Hw.
    rewrite elem_of_insert_timer, list_elem_of_filter. split.
    + intros [->|[_ Ht]]; [|done]. by destruct Hnot.
    + intros Ht. right. split; [|done]. intros [_ Hm']. apply Hnot.
      unfold pending_for. by rewrite Hm'.
Qed.

Lemma debounceTask_isolation_witness :
  blob_of (exec (debounceTask 7 (VStr "save") [VNum 5] 10) demo_both) 8 !! "poll"
  = blob_of demo_both 8 !! "poll"
  ∧ ∀ t, pending_for 8 "poll" t →
         (t ∈ timers (exec (debounceTask 7 (VStr "save") [VNum 5] 10) demo_both)
          ↔ t ∈ timers demo_both).
Proof.
  destruct (debounceTask_isolation 7 "save" [VNum 5] 10 demo_both) as [He Ht].
  - apply reachable_Inv, reachable_demo_both.
  - discriminate.
  - split.
    + apply He. intros [H1 _]. discriminate H1.
    + intros t Hp. apply Ht. unfold pending_for in *.
      destruct (t_method t); [|done]. intros [H1 _]. destruct Hp as [H2 _].
      rewrite H1 in H2. discriminate H2.
Defined.

(** X5. [cancelDebounce] and the teardown closure of an owner cancel
    nothing of anybody else: in a reachable world, cancelling one pair
    keeps the entry and the pending timers of every other pair, and the
    teardown closure of one owner keeps the pending timers of every other
    owner. *)
Theorem cancellation_isolation obj name w obj' name' :
  reachable w →
  (¬ (obj' = obj ∧ name' = name) →
   blob_of (exec (cancelDebounce obj name) w) obj' !! name'
   = blob_of w obj' !! name'
   ∧ ∀ t, pending_for obj' name' t →
          (t ∈ timers (exec (cancelDebounce obj name) w) ↔ t ∈ timers w))
  ∧ (obj' ≠ obj →
     ∀ t, t_target t = obj' →
          (t ∈ timers (exec (debouncesDisposable obj) w) ↔ t ∈ timers w)).
Proof.
  intros Hr. pose proof (reachable_Inv _ Hr) as HI.
  split.
  - intros Hne. destruct (blob_of w obj !! name) as [p|] eqn:Hp.
    + destruct (blob_of_lookup _ _ _ _ Hp) as [blob Hb].
      pose proof Hp as Hp'. rewrite (blob_of_Some _ _ _ Hb) in Hp'.
      unfold exec. rewrite (cancelDebounce_present _ _ _ _ _ Hb Hp'). simpl.
      split.
      * unfold blob_of. simpl. destruct (decide (obj' = obj)) as [->|Ho].
        -- rewrite lookup_insert_eq, Hb. simpl. rewrite lookup_delete_ne; [done|].
           intros ->. by apply Hne.
        -- by rewrite lookup_insert_ne.
      * intros t Hpend. rewrite list_elem_of_filter.
        split; [by intros [_ ?]|]. intros Ht. split; [|done]. intros Hid.
        symmetry in Hid.
        destruct (inv_token _ HI t obj name p Ht Hp Hid) as [_ Hmeth].
        unfold pending_for in Hpend. rewrite Hmeth in Hpend.
        pose proof (inv_wrapper _ HI _ _ _ Hp) as Hw.
        destruct (debouncedTask p) as [wr|]; [|done].
        destruct Hw as (_ & ? & ? & _). destruct Hpend. apply Hne.
        split; congruence.
    + unfold exec. by rewrite cancelDebounce_absent.
  - intros Hne t Ho'. destruct (registeredDebounces w !! obj) as [blob|] eqn:Hb.
    + unfold exec. rewrite (debouncesDisposable_ok _ _ _ Hb). simpl.
      rewrite list_elem_of_filter. split; [by intros [_ ?]|].
      intros Ht. split; [|done]. intros Hin. unfold tokens_of in Hin.
      apply list_elem_of_fmap in Hin as ([n p] & Hid & Hnp). simpl in Hid.
      apply elem_of_map_to_list in Hnp.
      rewrite <- (blob_of_Some _ _ _ Hb) in Hnp. symmetry in Hid.
      destruct (inv_token _ HI t obj n p Ht Hnp Hid) as [Htg _]. congruence.
    + unfold exec, debouncesDisposable. munfold. by rewrite Hb.
Qed.

Lemma cancellation_isolation_witness :
  (∀ t, pending_for 8 "poll" t →
        (t ∈ timers (exec (cancelDebounce 7 "save") demo_both)
         ↔ t ∈ timers demo_both))
  ∧ (∀ t, t_target t = 8 →
          (t ∈ timers (exec (debouncesDisposable 7) demo_both)
           ↔ t ∈ timers demo_both)).
Proof.
  destruct (cancellation_isolation 7 "save" demo_both 8 "poll") as [Hc Hd].
  - apply reachable_demo_both.
  - split.
    + apply Hc. intros [H _]. discriminate H.
    + apply Hd. discriminate.
Defined.

(** ** Arming and disarming *)

(** X6. After a successful [debounceTask], under a name the blob does not
    inherit, exactly one timer is pending for the pair of owner and name,
    however many calls came before: it carries the arguments of this call
    and is due [wait] after it, and it is the timer whose method and token
    the entry holds. *)
Theorem debounceTask_single_pending obj name args wait w :
  Inv w → inherited name = None →
  is_Some (methods w obj name) → obj ∉ destroyed w →
  (debounceTask obj (VStr name) args wait w).1 = Ok tt
  ∧ ∃ t,
      filter (pending_for obj name)
        (timers (exec (debounceTask obj (VStr name) args wait) w)) = [t]
      ∧ t_args t = args ∧ t_due t = now w + wait ∧ t_target t = obj
      ∧ blob_of (exec (debounceTask obj (VStr name) args wait) w) obj !! name
        = Some (mkPending (t_method t) (t_id t)).
Proof.
  intros HI Hi Hm Hd.
  pose proof (assignable_plain (blob_of w obj) name Hi) as Ha.
  unfold exec. rewrite debounceTask_ok by done. cbn [fst snd].
  split; [by apply assignable_outcome|].
  pose proof (Inv_debounced_world obj name args wait w HI
                (plain_not_proto _ Hi)) as HI'.
  destruct (debounced_world_pending obj name args wait w HI Hi) as [Hin Hpend].
  eexists. split; [|split; [|split; [|split]]].
  - apply filter_one; [|exact Hin|exact Hpend|].
    + eapply NoDup_fmap_1, inv_nodup, HI'.
    + intros x Hx Hne Hp. apply Hne.
      by apply (pending_unique obj name _ _ _ HI' (plain_not_size _ Hi)).
  - done.
  - done.
  - done.
  - by rewrite debounced_world_entry.
Qed.

Lemma debounceTask_single_pending_witness :
  ∃ t,
    filter (pending_for 7 "save")
      (timers (exec (debounceTask 7 (VStr "save") [VNum 2] 30) demo_both)) = [t]
    ∧ t_args t = [VNum 2] ∧ t_due t = now demo_both + 30 ∧ t_target t = 7
    ∧ blob_of (exec (debounceTask 7 (VStr "save") [VNum 2] 30) demo_both) 7
        !! "save"
      = Some (mkPending (t_method t) (t_id t)).
Proof.
  destruct (debounceTask_single_pending 7 "save" [VNum 2] 30 demo_both)
    as [_ H].
  - apply reachable_Inv, reachable_demo_both.
  - reflexivity.
  - vm_compute. eauto.
  - apply (bool_decide_unpack _). vm_compute. exact I.
  - exact H.
Defined.

Lemma filter_insert_timer_drop (P : Timer → Prop) `{!∀ t, Decision (P t)} t l :
  ¬ P t → filter P (insert_timer t l) = filter P l.
Proof.
  intros Ht. induction l as [|x l IH]; simpl.
  - by rewrite filter_cons_False.
  - case_decide.
    + by rewrite filter_cons_False.
    + rewrite !filter_cons. by rewrite IH.
Qed.

(** X7. Debouncing a task that has no entry, under a name the blob does not
    inherit, and cancelling it again is a round trip for the run loop and
    the blob: the queue of timers and the entries of the owner are what
    they were, and no task was invoked. *)
Theorem debounce_then_cancel obj name args wait w :
  Inv w → inherited name = None →
  is_Some (methods w obj name) → obj ∉ destroyed w →
  blob_of w obj !! name = None →
  (cancelDebounce obj name
     (exec (debounceTask obj (VStr name) args wait) w)).1 = Ok tt
  ∧ timers (exec (cancelDebounce obj name)
              (exec (debounceTask obj (VStr name) args wait) w))
    = timers w
  ∧ blob_of (exec (cancelDebounce obj name)
               (exec (debounceTask obj (VStr name) args wait) w)) obj
    = blob_of w obj
  ∧ invocations (log (exec (cancelDebounce obj name)
                        (exec (debounceTask obj (VStr name) args wait) w)))
    = invocations (log w).
Proof.
  intros HI Hi Hm Hd Hnone. unfold exec.
  rewrite debounceTask_ok by done. cbn [snd].
  pose proof (assignable_plain (blob_of w obj) name Hi) as Ha.
  set (w1 := debounced_world obj name args wait w).
  assert (Hb1 : registeredDebounces w1 !! obj
                = Some (<[name := mkPending (wrapper_for w obj name)
                                    (token_for w obj name)]> (blob_of w obj))).
  { unfold w1. simpl. rewrite Ha. by rewrite lookup_insert_eq. }
  rewrite (cancelDebounce_present _ _ _ _ _ Hb1 (lookup_insert_eq _ _ _)).
  simpl. split; [done|]. split; [|split].
  - rewrite (token_for_None _ _ _ Hnone Hi), (wrapper_for_None _ _ _ Hnone Hi).
    rewrite filter_insert_timer_drop by (simpl; intros Hid; by apply Hid).
    rewrite list_filter_filter. apply filter_all.
    intros t Ht. split.
    + pose proof (inv_ids _ HI t Ht). lia.
    + intros [_ Hmeth]. destruct (inv_target _ HI t _ Ht Hmeth) as [_ Hlt].
      simpl in Hlt. lia.
  - unfold blob_of at 1. simpl. rewrite Ha, lookup_insert_eq. simpl.
    rewrite delete_insert_eq. by apply delete_id.
  - rewrite invocations_app. simpl. by rewrite app_nil_r.
Qed.

Lemma debounce_then_cancel_witness :
  timers (exec (cancelDebounce 7 "save")
            (exec (debounceTask 7 (VStr "save") [VNum 1] 100) demo_polling))
  = timers demo_polling.
Proof.
  destruct (debounce_then_cancel 7 "save" [VNum 1] 100 demo_polling)
    as (_ & H & _).
  - apply Inv_debounceTask, Inv_initial.
  - reflexivity.
  - vm_compute. eauto.
  - apply (bool_decide_unpack _). vm_compute. exact I.
  - vm_compute. reflexivity.
  - exact H.
Defined.

(** The timers of an owner that the teardown closure leaves are timers of
    a task named [size]. *)
Lemma teardown_leaves_size obj w t :
  Inv w → t ∈ timers (exec (debouncesDisposable obj) w) → t_target t = obj →
  pending_for obj "size" t.
Proof.
  intros HI Ht Ho. destruct (registeredDebounces w !! obj) as [blob|] eqn:Hb.
  - unfold exec in Ht. rewrite (debouncesDisposable_ok _ _ _ Hb) in Ht.
    simpl in Ht. apply list_elem_of_filter in Ht as [Hnot Ht].
    destruct (inv_entry _ HI t Ht) as [Hsz|(n & He)]; [by rewrite Ho in Hsz|].
    rewrite Ho, (blob_of_Some _ _ _ Hb) in He. destruct Hnot.
    unfold tokens_of. apply list_elem_of_fmap.
    exists (n, mkPending (t_method t) (t_id t)).
    split; [done|]. by apply elem_of_map_to_list.
  - assert (He : debouncesDisposable obj w = (Ok tt, w)).
    { unfold debouncesDisposable. munfold. by rewrite Hb. }
    unfold exec in Ht. rewrite He in Ht. simpl in Ht.
    destruct (inv_entry _ HI t Ht) as [Hsz|(n & Hn)]; [by rewrite Ho in Hsz|].
    rewrite Ho in Hn. apply blob_of_lookup in Hn as [? Hn]. congruence.
Qed.

(** X8. Running the teardown closure of the debounce registry a second time
    changes nothing, and the closure reads the blob when it runs: a task
    debounced after a first run is cancelled by the next run, which leaves
    no timer of the owner pending other than timers of a task named
    [size]. *)
Theorem debounces_teardown_again obj name args wait w :
  exec (debouncesDisposable obj) (exec (debouncesDisposable obj) w)
  = exec (debouncesDisposable obj) w
  ∧ (Inv w → is_Some (methods w obj name) → obj ∉ destroyed w →
     ∀ t, t ∈ timers
            (exec (debouncesDisposable obj)
               (exec (debounceTask obj (VStr name) args wait)
                  (exec (debouncesDisposable obj) w))) →
          t_target t = obj → pending_for obj "size" t).
Proof.
  split.
  - destruct (registeredDebounces w !! obj) as [blob|] eqn:Hb.
    + unfold exec. rewrite (debouncesDisposable_ok _ _ _ Hb). cbn [snd].
      rewrite (debouncesDisposable_ok _ _ blob) by done.
      unfold set_timers. simpl. f_equal.
      rewrite list_filter_filter. apply list_filter_iff. tauto.
    + assert (He : debouncesDisposable obj w = (Ok tt, w)).
      { unfold debouncesDisposable. munfold. by rewrite Hb. }
      unfold exec. rewrite He. cbn [snd]. by rewrite He.
  - intros HI _ _ t Ht Ho. eapply teardown_leaves_size; [|exact Ht|exact Ho].
    apply Inv_debounceTask. by apply preserves_debouncesDisposable.
Qed.

Lemma debounces_teardown_again_witness :
  Forall (λ t, t_target t = 7 → pending_for 7 "size" t)
    (timers
       (exec (debouncesDisposable 7)
          (exec (debounceTask 7 (VStr "save") [VNum 3] 20)
             (exec (debouncesDisposable 7) demo_both)))).
Proof.
  destruct (debounces_teardown_again 7 "save" [VNum 3] 20 demo_both) as [_ H].
  apply Forall_forall. apply H.
  - apply reachable_Inv, reachable_demo_both.
  - vm_compute. eauto.
  - apply (bool_decide_unpack _). vm_compute. exact I.
Defined.

(** ** What the run loop can still invoke *)

Lemma fire_invocations_cases t w :
  invocations (log (exec (fire t) w)) = invocations (log w)
  ∨ ∃ wr, t_method t = Some wr
          ∧ invocations (log (exec (fire t) w))
            = invocations (log w) ++ [(w_obj wr, w_name wr, t_args t)].
Proof.
  destruct (t_method t) as [wr|] eqn:Hm.
  - destruct (fire_call t wr w Hm) as (w0 & -> & <- & _).
    destruct (call_method_invocations (w_obj wr) (w_name wr) (t_args t) w0)
      as [?|?]; [by left|right; eauto].
  - left. unfold exec. by rewrite (fire_undefined _ _ Hm).
Qed.

Lemma foldl_fire_invocations due w :
  ∃ extra,
    invocations (log (foldl (λ w t, if bool_decide (t ∈ timers w)
                                     then exec (fire t) w else w) w due))
    = invocations (log w) ++ extra
    ∧ Forall (λ x, ∃ t wr, t ∈ due ∧ t_method t = Some wr
                ∧ x = (w_obj wr, w_name wr, t_args t)) extra.
Proof.
  revert w. induction due as [|t due IH]; intros w; simpl.
  { exists []. by rewrite app_nil_r. }
  match goal with
  | |- context [foldl _ ?w1 due] => destruct (IH w1) as (ex & -> & Hex)
  end.
  assert (Hex' : Forall (λ x, ∃ t0 wr, t0 ∈ t :: due ∧ t_method t0 = Some wr
             ∧ x = (w_obj wr, w_name wr, t_args t0)) ex).
  { eapply Forall_impl; [exact Hex|]. intros x (t' & wr & ? & ? & ->).
    exists t', wr. split; [by right|done]. }
  case_bool_decide; [|by exists ex].
  destruct (fire_invocations_cases t w) as [Heq|(wr & Hm & Heq)]; rewrite Heq;
    [by exists ex|].
  eexists (_ :: ex). split; [by rewrite <- app_assoc|].
  constructor; [|done]. exists t, wr. split; [left|done].
Qed.

Lemma run_due_invocations w :
  ∃ extra,
    invocations (log (run_due w)) = invocations (log w) ++ extra
    ∧ Forall (λ x, ∃ t wr, t ∈ timers w ∧ t_method t = Some wr
                ∧ x = (w_obj wr, w_name wr, t_args t)) extra.
Proof.
  unfold run_due.
  destruct (foldl_fire_invocations (filter (λ t, t_due t ≤ now w) (timers w)) w)
    as (ex & Heq & Hex).
  exists ex. split; [done|]. eapply Forall_impl; [exact Hex|].
  intros x (t & wr & Ht & Hm & ->). apply list_elem_of_filter in Ht as [? ?].
  by exists t, wr.
Qed.

(** X9. What was cancelled does not fire: the tasks invoked in the turn of
    the run loop that follows [cancelDebounce] include none of the
    cancelled pair, unless the task is named [size], and those invoked in
    the turn that follows the teardown closure of an owner include none of
    that owner other than a task named [size]. *)
Theorem cancelled_does_not_fire obj name dt w :
  Inv w →
  (name ≠ "size" →
   ∃ extra,
     invocations (log (elapse dt (exec (cancelDebounce obj name) w)))
     = invocations (log w) ++ extra
     ∧ Forall (λ x, ¬ (x.1.1 = obj ∧ x.1.2 = name)) extra)
  ∧ (∃ extra,
       invocations (log (elapse dt (exec (debouncesDisposable obj) w)))
       = invocations (log w) ++ extra
       ∧ Forall (λ x, x.1.1 = obj → x.1.2 = "size") extra).
Proof.
  intros HI. split.
  - intros Hns.
    destruct (run_due_invocations
                (set_now (λ n, n + dt) (exec (cancelDebounce obj name) w)))
      as (ex & Heq & Hex).
    exists ex. split.
    { unfold elapse. rewrite Heq. simpl.
      by rewrite (quiet_invocations _ _ (quiet_cancelDebounce obj name w)). }
    eapply Forall_impl; [exact Hex|]. simpl. intros x (t & wr & Ht & Hm & ->).
    simpl. intros [Ho Hn].
    pose proof (Inv_cancelDebounce obj name w HI) as HI'.
    pose proof (pending_entry _ t wr HI' Ht Hm ltac:(by rewrite Hn)) as He.
    rewrite Ho, Hn in He. revert He.
    destruct (blob_of w obj !! name) as [p|] eqn:Hp.
    + destruct (blob_of_lookup _ _ _ _ Hp) as [blob Hb].
      rewrite (blob_of_Some _ _ _ Hb) in Hp. unfold exec.
      rewrite (cancelDebounce_present _ _ _ _ _ Hb Hp). unfold blob_of. simpl.
      rewrite lookup_insert_eq. simpl. by rewrite lookup_delete_eq.
    + unfold exec. rewrite cancelDebounce_absent by done. simpl. by rewrite Hp.
  - destruct (run_due_invocations
                (set_now (λ n, n + dt) (exec (debouncesDisposable obj) w)))
      as (ex & Heq & Hex).
    exists ex. split.
    { unfold elapse. rewrite Heq. simpl.
      by rewrite (quiet_invocations _ _ (quiet_debouncesDisposable obj w)). }
    eapply Forall_impl; [exact Hex|]. simpl. intros x (t & wr & Ht & Hm & ->).
    simpl. intros Ho.
    pose proof (preserves_debouncesDisposable obj w HI) as HI'.
    destruct (inv_target _ HI' t wr Ht Hm) as [Htg _].
    pose proof (teardown_leaves_size obj w t HI Ht ltac:(congruence)) as Hsz.
    unfold pending_for in Hsz. rewrite Hm in Hsz. by destruct Hsz.
Qed.

Lemma cancelled_does_not_fire_witness :
  ∃ extra,
    invocations (log (elapse 200 (exec (cancelDebounce 7 "save") demo_both)))
    = invocations (log demo_both) ++ extra
    ∧ Forall (λ x, ¬ (x.1.1 = 7 ∧ x.1.2 = "save")) extra.
Proof.
  destruct (cancelled_does_not_fire 7 "save" 200 demo_both) as [H _].
  - apply reachable_Inv, reachable_demo_both.
  - apply H. discriminate.
Defined.

(** ** Every attached wrapper is accounted for *)

Global Instance settled_step_refl : Reflexive settled_step.
Proof. intros w HT. exact HT. Qed.

Global Instance settled_step_trans : Transitive settled_step.
Proof. intros w1 w2 w3 H1 H2 HT. by apply H2, H1. Qed.

Lemma settled_frame w w' extra :
  tidy_step w w' →
  eventListeners w' = eventListeners w →
  listenersDisposed w ⊆ listenersDisposed w' →
  log w' = log w ++ extra →
  attaches_nothing extra →
  settled_step w w'.
Proof.
  intros Ht He Hd Hlog Hex [HT Ha]. split; [by apply Ht|].
  intros el ev id obj cb opts Hadd Hnot. rewrite Hlog in Hadd.
  apply elem_of_app in Hadd as [Hadd|Hadd].
  - destruct (Ha el ev id obj cb opts Hadd) as [[o Hr]|(l & t & Hl & Hrest)].
    + set_solver.
    + left. exists o. rewrite Hlog. apply elem_of_app. by left.
    + right. exists l, t. by rewrite He.
  - unfold attaches_nothing in Hex. rewrite Forall_forall in Hex.
    by destruct (Hex _ Hadd el ev (VBound id obj cb) opts).
Qed.

Lemma settled_modify_frame (f : World → World) extra :
  (∀ w, tidy_step w (f w)) →
  (∀ w, eventListeners (f w) = eventListeners w) →
  (∀ w, listenersDisposed w ⊆ listenersDisposed (f w)) →
  (∀ w, log (f w) = log w ++ extra) →
  attaches_nothing extra →
  respects settled_step (modify f).
Proof. intros Ht He Hd Hl Hex w. by apply (settled_frame _ _ extra). Qed.

Lemma settled_same (f : World → World) :
  (∀ w, tidy_step w (f w)) →
  (∀ w, eventListeners (f w) = eventListeners w) →
  (∀ w, listenersDisposed (f w) = listenersDisposed w) →
  (∀ w, log (f w) = log w) →
  respects settled_step (modify f).
Proof.
  intros Ht He Hd Hl. apply (settled_modify_frame f []); try done.
  - intros w. by rewrite Hd.
  - intros w. by rewrite app_nil_r.
  - constructor.
Qed.

Lemma settled_initial class_of host : settled (initial_world class_of host).
Proof.
  split; [apply Tidy_initial|].
  intros el ev id obj cb opts Hadd. simpl in Hadd. by apply elem_of_nil in Hadd.
Qed.

Lemma settled_debounceTask obj name args wait :
  respects settled_step (debounceTask obj name args wait).
Proof.
  intros w.
  destruct (debounceTask_cases obj name args wait w) as [->|(s & _ & _ & ->)];
    [done|].
  eapply settled_frame; [apply Tidy_debounced_world|done|done|done|].
  constructor; [done|constructor].
Qed.

Lemma settled_cancelDebounce obj name :
  respects settled_step (cancelDebounce obj name).
Proof.
  intros w. pose proof (tidy_cancelDebounce obj name w) as Ht. revert Ht.
  destruct (blob_of w obj !! name) as [p|] eqn:Hp.
  - destruct (blob_of_lookup _ _ _ _ Hp) as [blob Hb].
    rewrite (blob_of_Some _ _ _ Hb) in Hp.
    unfold exec. rewrite (cancelDebounce_present _ _ _ _ _ Hb Hp). intros Ht.
    apply (settled_frame _ _ []); try done.
    + simpl. by rewrite app_nil_r.
    + constructor.
  - unfold exec. by rewrite cancelDebounce_absent.
Qed.

Lemma recorded_other w w' obj o el ev c opts :
  o ≠ obj →
  (∀ o', o' ≠ obj → eventListeners w' !! o' = eventListeners w !! o') →
  recorded w o el ev c opts → recorded w' o el ev c opts.
Proof.
  intros Ho Hsame (l & t & Hl & Hrest). exists l, t. by rewrite Hsame.
Qed.

Lemma settled_addEventListener obj el ev cb opts :
  respects settled_step (addEventListener obj el ev cb opts).
Proof.
  intros w. destruct (instanceof_Element el) eqn:He.
  - intros [HT Ha]. split; [by apply tidy_addEventListener|].
    unfold exec. rewrite addEventListener_ok by done. cbn [snd].
    destruct (listeners_of_flat w obj (tidy_listeners _ HT)) as [Hf _].
    set (t := mkListener el ev (VBound (next_id w) obj cb) cb
                (adjusted_options w opts)).
    assert (Hnew : eventListeners (listening_world obj el ev cb opts w) !! obj
                   = Some (flat (unflat (listeners_of w obj) ++ [t]))).
    { by apply listening_world_listeners. }
    intros el' ev' id o cb' opts' Hadd Hnot. simpl in Hadd, Hnot.
    apply elem_of_app in Hadd as [Hadd|Hadd].
    + destruct (Ha el' ev' id o cb' opts' Hadd Hnot)
        as [[x Hr]|(l & t' & Hl & Ht' & Hrest)].
      * left. exists x. simpl. apply elem_of_app. by left.
      * right. destruct (decide (o = obj)) as [->|Ho].
        -- exists (flat (unflat (listeners_of w obj) ++ [t])), t'.
           split; [done|]. split; [|done]. rewrite unflat_flat.
           apply elem_of_app. left. unfold listeners_of. by rewrite Hl.
        -- exists l, t'. split; [|done]. simpl. by rewrite lookup_insert_ne.
    + apply list_elem_of_singleton in Hadd. simplify_eq. right.
      exists (flat (unflat (listeners_of w obj) ++ [t])), t.
      split; [done|]. split; [|done]. rewrite unflat_flat.
      apply elem_of_app. right. by left.
  - destruct (addEventListener_fails obj el ev cb opts w He) as [msg Hm].
    unfold exec. by rewrite Hm.
Qed.

Lemma settled_removeEventListener obj el ev cb opts :
  respects settled_step (removeEventListener obj el ev cb opts).
Proof.
  intros w. destruct (instanceof_Element el) eqn:He.
  - intros [HT Ha]. split; [by apply tidy_removeEventListener|].
    destruct (eventListeners w !! obj) as [l|] eqn:Hl.
    + destruct (tidy_listeners _ HT obj l Hl) as [Hf _].
      set (ts := unflat l) in *. rewrite <- Hf in Hl.
      destruct (decide (Exists (names el ev cb) ts)) as [Hex|Hno].
      * destruct (first_named _ _ Hex) as (pre & t & post & Heq & Ht & Hpre).
        rewrite Heq in Hl. unfold exec.
        rewrite (removeEventListener_found _ _ _ _ _ _ _ _ _ Hl Ht Hpre He).
        cbn [snd].
        intros el' ev' id o cb' opts' Hadd Hnot. simpl in Hadd, Hnot.
        apply elem_of_app in Hadd as [Hadd|Hadd];
          [|apply list_elem_of_singleton in Hadd; discriminate].
        destruct (Ha el' ev' id o cb' opts' Hadd Hnot)
          as [[x Hr]|(l' & t' & Hl' & Ht' & Hel & Hev & Hcb & Hop)].
        -- left. exists x. simpl. apply elem_of_app. by left.
        -- destruct (decide (o = obj)) as [->|Ho].
           ++ rewrite Hl in Hl'. simplify_eq. rewrite unflat_flat in Ht'.
              apply elem_of_app in Ht' as [Hin|Hin];
                [|apply elem_of_cons in Hin as [->|Hin]].
              ** right. exists (flat (pre ++ post)), t'. simpl.
                 rewrite lookup_insert_eq, unflat_flat. split; [done|].
                 split; [|done]. apply elem_of_app. by left.
              ** left. exists (adjusted_options w opts). simpl.
                 destruct Ht as (Hte & Htv & _). rewrite <- Hcb.
                 rewrite <- Hte, <- Htv. apply elem_of_app. right. by left.
              ** right. exists (flat (pre ++ post)), t'. simpl.
                 rewrite lookup_insert_eq, unflat_flat. split; [done|].
                 split; [|done]. apply elem_of_app. by right.
           ++ right. exists l', t'. simpl. by rewrite lookup_insert_ne.
      * apply not_Exists_Forall in Hno; [|apply _]. unfold exec.
        by rewrite (removeEventListener_not_found _ _ _ _ _ _ ts Hl Hno He).
    + unfold exec. rewrite removeEventListener_no_list by done. cbn [snd].
      intros el' ev' id o cb' opts' Hadd Hnot. simpl in Hadd, Hnot.
      destruct (Ha el' ev' id o cb' opts' Hadd Hnot)
        as [[x Hr]|(l' & t' & Hl' & Hrest)].
      * left. by exists x.
      * right. exists l', t'. simpl. rewrite lookup_insert_ne; [done|].
        intros ->. congruence.
  - destruct (removeEventListener_fails obj el ev cb opts w He) as [msg Hm].
    unfold exec. by rewrite Hm.
Qed.

Lemma settled_cancel_each blob names :
  respects settled_step (cancel_each blob names).
Proof.
  induction names as [|n names IH]; simpl; [apply respects_ret, _|].
  apply respects_bind; [apply _| |done].
  destruct (blob !! n); [|apply respects_throw, _].
  apply settled_same; try done. intros w. by apply Tidy_frame.
Qed.

Lemma settled_debouncesDisposable obj :
  respects settled_step (debouncesDisposable obj).
Proof.
  unfold debouncesDisposable.
  apply respects_bind; [apply _|apply respects_get, _|].
  intros w. destruct (registeredDebounces w !! obj); [|apply respects_ret, _].
  case_bool_decide; [apply respects_ret, _|apply settled_cancel_each].
Qed.

Lemma settled_remove_each fuel i l : respects settled_step (remove_each fuel i l).
Proof.
  revert i. induction fuel as [|fuel IH]; intros i; simpl;
    [apply respects_ret, _|].
  case_decide; [|apply respects_ret, _].
  apply respects_bind; [apply _| |done].
  unfold element_removeEventListener.
  destruct (instanceof_Element _); [|apply respects_throw, _].
  eapply settled_modify_frame; try done.
  - intros w. by apply Tidy_frame.
  - constructor; [done|constructor].
Qed.

Lemma settled_eventListenersDisposable obj :
  respects settled_step (eventListenersDisposable obj).
Proof.
  unfold eventListenersDisposable.
  apply respects_bind; [apply _|apply respects_get, _|].
  intros w. case_bool_decide; [apply respects_ret, _|].
  apply respects_bind; [apply _|apply settled_remove_each|].
  intros _. apply (settled_modify_frame _ []).
  - intros w'. by apply Tidy_frame.
  - done.
  - intros w'. simpl. set_solver.
  - intros w'. simpl. by rewrite app_nil_r.
  - constructor.
Qed.

Lemma settled_run_each ds : respects settled_step (run_each ds).
Proof.
  induction ds as [|d ds IH]; simpl; [apply respects_ret, _|].
  apply respects_bind; [apply _| |done].
  destruct d; [apply settled_debouncesDisposable
              |apply settled_eventListenersDisposable].
Qed.

Lemma settled_runDisposables obj : respects settled_step (runDisposables obj).
Proof.
  unfold runDisposables.
  apply respects_bind; [apply _|apply respects_get, _|].
  intros w. destruct (disposables w !! obj); [|apply respects_ret, _].
  apply respects_bind; [apply _| |intros _; apply settled_run_each].
  apply settled_same; try done. intros w'. apply Tidy_forget.
Qed.

Lemma settled_exec_action a : respects settled_step (exec_action a).
Proof.
  destruct a; simpl.
  - apply settled_debounceTask.
  - apply settled_cancelDebounce.
  - apply settled_addEventListener.
  - apply settled_removeEventListener.
  - apply settled_runDisposables.
Qed.

Lemma settled_run_actions body : respects settled_step (run_actions body).
Proof.
  induction body as [|a body IH]; simpl; [apply respects_ret, _|].
  apply respects_bind; [apply _|apply settled_exec_action|done].
Qed.

Lemma settled_call_method obj name args :
  respects settled_step (call_method obj name args).
Proof.
  unfold call_method.
  apply respects_bind; [apply _|apply respects_get, _|].
  intros w. destruct (methods w obj name); [|apply respects_throw, _].
  apply respects_bind; [apply _| |intros _; apply settled_run_actions].
  eapply settled_modify_frame; try done.
  - intros w'. by apply Tidy_frame.
  - constructor; [done|constructor].
Qed.

Lemma settled_fire t : respects settled_step (fire t).
Proof.
  unfold fire.
  apply respects_bind; [apply _| |].
  { apply settled_same; try done. intros w. by apply Tidy_frame. }
  intros _. destruct (t_method t) as [wr|]; [|apply respects_throw, _].
  unfold call_wrapper. apply respects_bind; [apply _| |intros _; apply settled_call_method].
  intros w. apply (settled_frame _ _ []).
  - apply tidy_delete_entry.
  - done.
  - done.
  - unfold exec, delete_entry, modify. simpl. by rewrite app_nil_r.
  - constructor.
Qed.

Lemma settled_run_due w : settled_step w (run_due w).
Proof.
  unfold run_due. generalize (filter (λ t, t_due t ≤ now w) (timers w)).
  intros due. revert w. induction due as [|t due IH]; intros w; simpl; [done|].
  etrans; [|apply IH]. case_bool_decide; [apply settled_fire|done].
Qed.

Lemma settled_Step w w' : Step w w' → settled_step w w'.
Proof.
  intros [a ?|dt ?|obj ?].
  - apply settled_exec_action.
  - unfold elapse. etrans; [|apply settled_run_due].
    apply (settled_frame _ _ []); try done.
    + by apply Tidy_frame.
    + simpl. by rewrite app_nil_r.
    + constructor.
  - apply (settled_frame _ _ []); try done.
    + by apply Tidy_frame.
    + simpl. by rewrite app_nil_r.
    + constructor.
Qed.

Lemma reachable_settled w : reachable w → settled w.
Proof.
  intros (class_of & host & Hr).
  apply (rtc_ind_r (R := Step) (λ w, settled w) (initial_world class_of host));
    [apply settled_initial| |exact Hr].
  intros y z _ Hs IH. by apply (settled_Step y).
Qed.

(** X10. Every attached wrapper is accounted for at teardown.  In every
    reachable world, when the teardown closure of an owner runs for the
    first time, each wrapper that an [addEventListener] call of that owner
    ever attached either had an earlier [removeEventListener] request of
    the owner take it off, with the options of that request, or is taken
    off by the closure with exactly the options it was attached with. *)
Theorem teardown_accounts_for_every_listener w obj el ev id cb opts :
  reachable w → obj ∉ listenersDisposed w →
  DomAdd el ev (VBound id obj cb) opts ∈ log w →
  removal_called (log w) el ev (VBound id obj cb)
  ∨ DomRemove el ev (VBound id obj cb) opts
    ∈ log (exec (eventListenersDisposable obj) w).
Proof.
  intros Hr Hnot Hadd. destruct (reachable_settled w Hr) as [HT Ha].
  destruct (inv_listeners _ (reachable_Inv _ Hr) _ _ _ _ _ _ Hadd) as [l Hl].
  unfold exec.
  rewrite (eventListenersDisposable_ok _ _ _ (tidy_listeners _ HT) Hl Hnot).
  simpl.
  destruct (Ha el ev id obj cb opts Hadd Hnot)
    as [Hx|(l' & t & Hl' & Ht & Hel & Hev & Hcb & Hop)].
  - by left.
  - right. rewrite Hl in Hl'. injection Hl' as <-.
    apply elem_of_app. right.
    apply list_elem_of_fmap. exists t. split; [|done].
    unfold detach. by rewrite Hel, Hev, Hcb, Hop.
Qed.

Lemma teardown_accounts_for_every_listener_witness :
  removal_called (log demo_listening_twice)
    (VElement 1) (VStr "click") (VBound 0 7 (VFun 9))
  ∨ DomRemove (VElement 1) (VStr "click") (VBound 0 7 (VFun 9)) VUndefined
    ∈ log (exec (eventListenersDisposable 7) demo_listening_twice).
Proof.
  apply (teardown_accounts_for_every_listener demo_listening_twice 7
           (VElement 1) (VStr "click") 0 (VFun 9) VUndefined).
  - apply reachable_demo_listening_twice.
  - apply (bool_decide_unpack _). vm_compute. exact I.
  - vm_compute. left.
Defined.

(** ** Registrations and removals in sequence *)

(** X11. A registration followed by its removal is a round trip on the
    owner's array: when no older record has the same target, event name
    and callback, the array is again the one before the registration, and
    the element has seen one [addEventListener] and one
    [removeEventListener] call with the same wrapper; the first carries the
    options of the registration, the second those of the removal request.
    Timers, debounce blobs and the arrays of other owners are as before. *)
Theorem add_then_remove obj el ev cb opts opts' w ts :
  listeners_of w obj = flat ts →
  Forall (λ x, ¬ names el ev cb x) ts →
  instanceof_Element el = true →
  let w1 := exec (addEventListener obj el ev cb opts) w in
  let w2 := exec (removeEventListener obj el ev cb opts') w1 in
  (removeEventListener obj el ev cb opts' w1).1 = Ok tt
  ∧ eventListeners w2 !! obj = Some (flat ts)
  ∧ log w2
    = log w ++ [DomAdd el ev (VBound (next_id w) obj cb)
                  (adjusted_options w opts);
                DomRemove el ev (VBound (next_id w) obj cb)
                  (adjusted_options w opts')]
  ∧ (∀ o, o ≠ obj → eventListeners w2 !! o = eventListeners w !! o)
  ∧ timers w2 = timers w
  ∧ registeredDebounces w2 = registeredDebounces w.
Proof.
  intros Hl Hts He w1 w2.
  set (t := mkListener el ev (VBound (next_id w) obj cb) cb
              (adjusted_options w opts)).
  assert (Hw1 : w1 = listening_world obj el ev cb opts w).
  { unfold w1, exec. by rewrite addEventListener_ok. }
  assert (Hl1 : eventListeners w1 !! obj = Some (flat (ts ++ t :: []))).
  { rewrite Hw1. by apply listening_world_listeners. }
  assert (Hrm : removeEventListener obj el ev cb opts' w1
                = (Ok tt,
                   add_log (DomRemove el ev (l_callback t)
                              (adjusted_options w1 opts'))
                     (set_eventListeners <[obj := flat (ts ++ [])]> w1))).
  { by apply removeEventListener_found. }
  unfold w2, exec. rewrite Hrm. cbn [fst snd]. rewrite app_nil_r.
  split; [done|]. rewrite Hw1. simpl.
  split; [by rewrite lookup_insert_eq|].
  split; [by rewrite <- app_assoc|].
  split; [|done]. intros o Ho. by rewrite !lookup_insert_ne.
Qed.

Lemma add_then_remove_witness :
  eventListeners
    (exec (removeEventListener 7 (VElement 1) (VStr "keydown") (VFun 5)
             (VObj 3))
       (exec (addEventListener 7 (VElement 1) (VStr "keydown") (VFun 5)
                VUndefined) demo_listening)) !! 7
  = Some (flat [mkListener (VElement 1) (VStr "click") (VBound 0 7 (VFun 9))
                  (VFun 9) VUndefined]).
Proof.
  destruct (add_then_remove 7 (VElement 1) (VStr "keydown") (VFun 5) VUndefined
              (VObj 3) demo_listening
              [mkListener (VElement 1) (VStr "click") (VBound 0 7 (VFun 9))
                 (VFun 9) VUndefined]) as (_ & H & _).
  - vm_compute. reflexivity.
  - constructor; [|constructor]. unfold names. simpl. intros (_ & Hev & _).
    discriminate.
  - reflexivity.
  - exact H.
Defined.

(** X12. Of two registrations of the same target, event name and callback,
    a removal takes the older one: with no matching record before them,
    the [removeEventListener] call on the element carries the wrapper of
    the first registration, and the record of the second stays, after the
    records that were there before. *)
Theorem removal_takes_oldest obj el ev cb opts1 opts2 opts w ts :
  listeners_of w obj = flat ts →
  Forall (λ x, ¬ names el ev cb x) ts →
  instanceof_Element el = true →
  let w2 := exec (addEventListener obj el ev cb opts2)
              (exec (addEventListener obj el ev cb opts1) w) in
  let w3 := exec (removeEventListener obj el ev cb opts) w2 in
  log w3
  = log w2 ++ [DomRemove el ev (VBound (next_id w) obj cb)
                 (adjusted_options w opts)]
  ∧ eventListeners w3 !! obj
    = Some (flat (ts ++ [mkListener el ev (VBound (S (next_id w)) obj cb) cb
                           (adjusted_options w opts2)])).
Proof.
  intros Hl Hts He w2 w3.
  set (t1 := mkListener el ev (VBound (next_id w) obj cb) cb
               (adjusted_options w opts1)).
  set (t2 := mkListener el ev (VBound (S (next_id w)) obj cb) cb
               (adjusted_options w opts2)).
  set (w1 := listening_world obj el ev cb opts1 w).
  assert (Hl1 : eventListeners w1 !! obj = Some (flat (ts ++ [t1])))
    by (by apply (listening_world_listeners obj el ev cb opts1 w ts)).
  assert (Hw2 : w2 = listening_world obj el ev cb opts2 w1).
  { unfold w2, exec. rewrite (addEventListener_ok _ _ _ _ opts1) by done.
    cbn [snd]. by rewrite addEventListener_ok. }
  assert (Hl2 : eventListeners w2 !! obj = Some (flat (ts ++ t1 :: [t2]))).
  { rewrite Hw2.
    rewrite (listening_world_listeners _ _ _ _ _ _ (ts ++ [t1])).
    - by rewrite <- app_assoc.
    - unfold listeners_of. by rewrite Hl1. }
  assert (Hrm : removeEventListener obj el ev cb opts w2
                = (Ok tt,
                   add_log (DomRemove el ev (l_callback t1)
                              (adjusted_options w2 opts))
                     (set_eventListeners <[obj := flat (ts ++ [t2])]> w2))).
  { by apply removeEventListener_found. }
  unfold w3, exec. rewrite Hrm. cbn [snd]. simpl.
  split; [by rewrite Hw2|]. by rewrite lookup_insert_eq.
Qed.

Lemma removal_takes_oldest_witness :
  let w2 := exec (addEventListener 8 (VElement 2) (VStr "scroll") (VFun 4)
                    VUndefined)
              (exec (addEventListener 8 (VElement 2) (VStr "scroll") (VFun 4)
                       VUndefined) demo_listening) in
  log (exec (removeEventListener 8 (VElement 2) (VStr "scroll") (VFun 4)
               VUndefined) w2)
  = log w2 ++ [DomRemove (VElement 2) (VStr "scroll") (VBound 1 8 (VFun 4))
                 VUndefined].
Proof.
  destruct (removal_takes_oldest 8 (VElement 2) (VStr "scroll") (VFun 4)
              VUndefined VUndefined VUndefined demo_listening []) as [H _].
  - vm_compute. reflexivity.
  - constructor.
  - reflexivity.
  - exact H.
Defined.

(** X13. Registering or removing a listener for one owner leaves every
    other owner's array and ledger entry, all timers and all debounce blobs
    as they are, whatever the arguments. *)
Theorem listeners_isolation obj o el ev cb opts w :
  o ≠ obj →
  let wa := exec (addEventListener obj el ev cb opts) w in
  let wr := exec (removeEventListener obj el ev cb opts) w in
  (eventListeners wa !! o = eventListeners w !! o
   ∧ disposables wa !! o = disposables w !! o
   ∧ timers wa = timers w
   ∧ registeredDebounces wa = registeredDebounces w)
  ∧ (eventListeners wr !! o = eventListeners w !! o
     ∧ disposables wr !! o = disposables w !! o
     ∧ timers wr = timers w
     ∧ registeredDebounces wr = registeredDebounces w).
Proof.
  intros Ho wa wr.
  assert (Hledger : listeners_ledger w obj !! o = disposables w !! o).
  { unfold listeners_ledger. destruct (eventListeners w !! obj); [done|].
    by rewrite lookup_insert_ne. }
  destruct (instanceof_Element el) eqn:He.
  - unfold wa, wr, exec.
    rewrite addEventListener_ok, removeEventListener_ok by done. cbn [snd].
    split.
    + simpl. by rewrite lookup_insert_ne.
    + unfold unlistened_world. destruct (find_listener _ _ _ _ _ _); simpl;
        by rewrite lookup_insert_ne.
  - destruct (addEventListener_fails obj el ev cb opts w He) as [m1 H1].
    destruct (removeEventListener_fails obj el ev cb opts w He) as [m2 H2].
    unfold wa, wr, exec. by rewrite H1, H2.
Qed.

Lemma listeners_isolation_witness :
  eventListeners
    (exec (addEventListener 8 (VElement 2) (VStr "scroll") (VFun 4) VUndefined)
       demo_listening) !! 7
  = eventListeners demo_listening !! 7.
Proof.
  destruct (listeners_isolation 8 7 (VElement 2) (VStr "scroll") (VFun 4)
              VUndefined demo_listening) as [[H _] _].
  - lia.
  - exact H.
Defined.

(** X14. Each module records its teardown closure for an owner at most
    once: in every reachable world the ledger entry of an owner has no
    repetition and holds nothing but the debounce closure of that owner,
    whose blob is then in the registry, and the listener closure of that
    owner, whose array is then in the registry. *)
Theorem teardown_recorded_once w obj ds :
  reachable w → disposables w !! obj = Some ds →
  NoDup ds
  ∧ ∀ d, d ∈ ds →
      (d = DebouncesDisposable obj ∧ is_Some (registeredDebounces w !! obj))
      ∨ (d = EventListenersDisposable obj ∧ is_Some (eventListeners w !! obj)).
Proof.
  intros Hr Hds. exact (tidy_ledger _ (reachable_Tidy _ Hr) obj ds Hds).
Qed.

Lemma teardown_recorded_once_witness :
  NoDup [EventListenersDisposable 7].
Proof.
  destruct (teardown_recorded_once demo_listening_twice 7
              [EventListenersDisposable 7]) as [H _].
  - apply reachable_demo_listening_twice.
  - vm_compute. reflexivity.
  - exact H.
Defined.
